(** * BingoMaster: the real-time game coordinator, embedded and verified

  The development follows the TypeScript sources:
  - [Utils]        the client utilities kept in src/client/src/index.css
                   ([createPositionGrid], [checkBingoPattern]);
  - [Tally]        the two vote counting loops of
                   src/server/controllers/game.ts ([checkGroupConsensus]
                   and [handleRevealAnswer]);
  - [MemStorage]   the in-memory implementation of [IStorage] kept in
                   src/server/routes.ts, which the server exports as
                   [storage];
  - [DatabaseStorage] the SQL implementation of the same interface in
                   src/unnamed/part_003, over the tables of
                   src/unnamed/part_014;
  - [Coordinator]  the WebSocket handlers of
                   src/server/controllers/game.ts, running on [MemStorage];
  - [Referential]  [DatabaseStorage] behind the foreign keys of
                   src/unnamed/part_014, its selects taken up to order;
  - [Failing]      the handlers that call the storage, over any
                   implementation of [IStorage], whose calls may reject;
  - [Rest]         the REST controllers of src/server/controllers/game.ts.

  JavaScript strings are embedded as [string]; a code unit is an [ascii], so
  the embedding covers the code units below 256.  JavaScript numbers that
  the code computes with are integers or NaN, embedded as [option Z] with
  [None] for NaN. *)

From Stdlib Require Import ZArith Lia Bool.
From Stdlib Require Import Ascii String DecimalString.
From stdpp Require Import base option list strings gmap.

Local Open Scope string_scope.
Local Open Scope list_scope.
Local Open Scope nat_scope.

(** ** JavaScript numbers restricted to integers and NaN *)

Module JsNum.

Abbreviation num := (option Z).

Definition NaN : num := None.

Definition sub (a : num) (k : Z) : num := (λ x, x - k)%Z <$> a.

(** Every comparison with NaN is false. *)
Definition geb (a : num) (k : Z) : bool :=
  match a with Some x => (k <=? x)%Z | None => false end.

Definition ltb (a : num) (k : Z) : bool :=
  match a with Some x => (x <? k)%Z | None => false end.

End JsNum.

(** ** The client utilities (src/client/src/index.css) *)

Module Utils.

Import JsNum.

(** [pos.charCodeAt(0)]: NaN on the empty string. *)
Definition charCodeAt0 (pos : string) : num :=
  match pos with
  | EmptyString => NaN
  | String c _ => Some (Z.of_nat (nat_of_ascii c))
  end.

(** [pos.substring(1)] *)
Definition substring1 (pos : string) : string :=
  match pos with
  | EmptyString => EmptyString
  | String _ rest => rest
  end.

(** The white space that [parseInt] skips (StrWhiteSpaceChar), as far as it
    lies below 256: TAB, LF, VT, FF, CR, SP and NBSP. *)
Definition isWhiteSpace (c : ascii) : bool :=
  let n := nat_of_ascii c in
  ((n =? 9) || (n =? 10) || (n =? 11) || (n =? 12) || (n =? 13)
   || (n =? 32) || (n =? 160))%nat.

Fixpoint skipWhiteSpace (s : string) : string :=
  match s with
  | String c rest => if isWhiteSpace c then skipWhiteSpace rest else s
  | EmptyString => EmptyString
  end.

(** Value of a digit in the given radix (10 or 16), if it is one. *)
Definition digitValue (radix : Z) (c : ascii) : option Z :=
  let n := Z.of_nat (nat_of_ascii c) in
  let v :=
    if (48 <=? n)%Z && (n <=? 57)%Z then Some (n - 48)%Z
    else if (97 <=? n)%Z && (n <=? 122)%Z then Some (n - 87)%Z
    else if (65 <=? n)%Z && (n <=? 90)%Z then Some (n - 55)%Z
    else None in
  match v with
  | Some d => if (d <? radix)%Z then Some d else None
  | None => None
  end.

(** The longest prefix of digits, read left to right; [seen] records
    whether at least one digit was read. *)
Fixpoint parseDigits (radix : Z) (s : string) (acc : Z) (seen : bool) : num :=
  match s with
  | String c rest =>
      match digitValue radix c with
      | Some d => parseDigits radix rest (acc * radix + d)%Z true
      | None => if seen then Some acc else NaN
      end
  | EmptyString => if seen then Some acc else NaN
  end.

(** [parseInt(s)] with no radix argument: white space, an optional sign, an
    optional [0x] or [0X] prefix that selects radix 16, then the digits.
    The mathematical value is kept exact; it differs from the rounded
    double only above 2^53, far beyond every array length. *)
Definition parseInt (s : string) : num :=
  let s1 := skipWhiteSpace s in
  let '(sign, s2) :=
    match s1 with
    | String "-" rest => ((-1)%Z, rest)
    | String "+" rest => (1%Z, rest)
    | _ => (1%Z, s1)
    end in
  let '(radix, s3) :=
    match s2 with
    | String "0" (String "x" rest) => (16%Z, rest)
    | String "0" (String "X" rest) => (16%Z, rest)
    | _ => (10%Z, s2)
    end in
  (λ v, sign * v)%Z <$> parseDigits radix s3 0 false.

(** The decimal text of a non-negative integer, as a template literal
    prints it. *)
Definition numToString (n : nat) : string :=
  NilEmpty.string_of_uint (Nat.to_uint n).

(** [`${String.fromCharCode(65 + row)}${col + 1}`].  The letter of the row
    is a code unit below 256 for the rows 0 to 190; what is proved of the
    labels is stated for boards of at most 191 rows. *)
Definition label (row col : nat) : string :=
  String (ascii_of_nat (65 + row)) (numToString (col + 1)).

(** [createPositionGrid(size)]: the two nested loops, row-major. *)
Definition createPositionGrid (size : nat) : list string :=
  row ← seq 0 size; (λ col, label row col) <$> seq 0 size.

(** *** The board of [checkBingoPattern] *)

Abbreviation Board := (list (list bool)).

(** [Array(boardSize).fill(false).map(() => Array(boardSize).fill(false))] *)
Definition emptyBoard (boardSize : nat) : Board :=
  replicate boardSize (replicate boardSize false).

(** An array access either stays within the array or leaves it.  Leaving it
    is what JavaScript answers with a TypeError (a missing row), with a
    grown array (a column past the end) or with [undefined] (a read). *)
Inductive access (A : Type) : Type :=
| Within (a : A)
| OutOfBounds.
Arguments Within {A} a.
Arguments OutOfBounds {A}.

#[export] Instance access_bind : MBind access := λ A B k m,
  match m with
  | Within a => k a
  | OutOfBounds => OutOfBounds
  end.

(** [arr[i]] as a read. *)
Definition readAt {A} (arr : list A) (i : nat) : access A :=
  match arr !! i with
  | Some a => Within a
  | None => OutOfBounds
  end.

(** [board[row][col] = true], unguarded. *)
Definition setCell (board : Board) (row col : num) : access Board :=
  match row, col with
  | Some row, Some col =>
      if (0 <=? row)%Z && (0 <=? col)%Z then
        r ← readAt board (Z.to_nat row);
        if (Z.to_nat col <? length r)%nat then
          Within (<[Z.to_nat row := <[Z.to_nat col := true]> r]> board)
        else OutOfBounds
      else OutOfBounds
  | _, _ => OutOfBounds
  end.

(** The row and column that a position label stands for. *)
Definition rowOf (pos : string) : num := sub (charCodeAt0 pos) 65.
Definition colOf (pos : string) : num := sub (parseInt (substring1 pos)) 1.

(** [row >= 0 && row < boardSize && col >= 0 && col < boardSize] *)
Definition onBoard (boardSize : nat) (pos : string) : bool :=
  geb (rowOf pos) 0 && ltb (rowOf pos) (Z.of_nat boardSize)
  && geb (colOf pos) 0 && ltb (colOf pos) (Z.of_nat boardSize).

(** The marking loop. *)
Fixpoint markPositions (markedPositions : list string) (boardSize : nat)
    (board : Board) : access Board :=
  match markedPositions with
  | [] => Within board
  | pos :: rest =>
      let row := rowOf pos in
      let col := colOf pos in
      if onBoard boardSize pos then
        board' ← setCell board row col;
        markPositions rest boardSize board'
      else markPositions rest boardSize board
  end.

(** [Array(boardSize).fill(0).map((_, k) => f k)] *)
Definition tabulate {A} (boardSize : nat) (f : nat → A) : list A :=
  f <$> seq 0 boardSize.

Definition rowLabels (boardSize i : nat) : list string :=
  tabulate boardSize (λ j, label i j).
Definition colLabels (boardSize j : nat) : list string :=
  tabulate boardSize (λ i, label i j).
Definition diagLabels (boardSize : nat) : list string :=
  tabulate boardSize (λ i, label i i).
(** [`${String.fromCharCode(65 + i)}${boardSize - i}`] *)
Definition antiLabels (boardSize : nat) : list string :=
  tabulate boardSize
    (λ i, String (ascii_of_nat (65 + i)) (numToString (boardSize - i))).

(** [arr.every(f)] where [f] reads the board. *)
Fixpoint every {A} (f : A → access bool) (arr : list A) : access bool :=
  match arr with
  | [] => Within true
  | a :: rest =>
      holds ← f a;
      if (holds : bool) then every f rest else Within false
  end.

(** The loop over the rows: [board[i].every(cell => cell)]. *)
Fixpoint checkRows (board : Board) (boardSize : nat) (rows : list nat)
    : access (option (list string)) :=
  match rows with
  | [] => Within None
  | i :: rest =>
      r ← readAt board i;
      if forallb id r then Within (Some (rowLabels boardSize i))
      else checkRows board boardSize rest
  end.

(** The loop over the columns: [board.every(row => row[j])]. *)
Fixpoint checkCols (board : Board) (boardSize : nat) (cols : list nat)
    : access (option (list string)) :=
  match cols with
  | [] => Within None
  | j :: rest =>
      full ← every (λ row, readAt row j) board;
      if (full : bool) then Within (Some (colLabels boardSize j))
      else checkCols board boardSize rest
  end.

(** [board[i][j]] as a read. *)
Definition readCell (board : Board) (i j : nat) : access bool :=
  r ← readAt board i; readAt r j.

Definition checkDiag (board : Board) (boardSize : nat)
    : access (option (list string)) :=
  full ← every (λ i, readCell board i i) (seq 0 boardSize);
  Within (if (full : bool) then Some (diagLabels boardSize) else None).

Definition checkAnti (board : Board) (boardSize : nat)
    : access (option (list string)) :=
  full ← every (λ i, readCell board i (boardSize - 1 - i)) (seq 0 boardSize);
  Within (if (full : bool) then Some (antiLabels boardSize) else None).

(** [first <|> second]: the early [return] of a found pattern. *)
Definition orElse (first second : access (option (list string)))
    : access (option (list string)) :=
  found ← first;
  match found with
  | Some pattern => Within (Some pattern)
  | None => second
  end.

(** [checkBingoPattern(markedPositions, boardSize)]; [boardSize] ranges over
    the array lengths, the values [Array(boardSize)] accepts. *)
Definition checkBingoPattern (markedPositions : list string) (boardSize : nat)
    : access (option (list string)) :=
  board ← markPositions markedPositions boardSize (emptyBoard boardSize);
  orElse (checkRows board boardSize (seq 0 boardSize))
    (orElse (checkCols board boardSize (seq 0 boardSize))
       (orElse (checkDiag board boardSize) (checkAnti board boardSize))).

End Utils.


(** ** The cells behind [checkBingoPattern]

    What the marking loop computes, read off the position labels: the cell
    [(i, j)] is marked when some label passes the bounds check and decodes to
    row [i] and column [j]. *)

Module Lines.

Import JsNum Utils.

Definition decode (pos : string) : num * num := (rowOf pos, colOf pos).

Definition cellOf (i j : nat) : num * num :=
  (Some (Z.of_nat i), Some (Z.of_nat j)).

Definition cellMarked (boardSize : nat) (markedPositions : list string)
    (i j : nat) : bool :=
  existsb (λ pos, onBoard boardSize pos && bool_decide (decode pos = cellOf i j))
    markedPositions.

Definition rowFull (boardSize : nat) (markedPositions : list string) (i : nat) : bool :=
  forallb (λ j, cellMarked boardSize markedPositions i j) (seq 0 boardSize).

Definition colFull (boardSize : nat) (markedPositions : list string) (j : nat) : bool :=
  forallb (λ i, cellMarked boardSize markedPositions i j) (seq 0 boardSize).

Definition diagFull (boardSize : nat) (markedPositions : list string) : bool :=
  forallb (λ i, cellMarked boardSize markedPositions i i) (seq 0 boardSize).

Definition antiFull (boardSize : nat) (markedPositions : list string) : bool :=
  forallb (λ i, cellMarked boardSize markedPositions i (boardSize - 1 - i))
    (seq 0 boardSize).

(** The board on which exactly the cells selected by [m] are set. *)
Definition boardOf (boardSize : nat) (m : nat → nat → bool) : Board :=
  tabulate boardSize (λ i, tabulate boardSize (m i)).

(** Setting one more cell. *)
Definition mark (m : nat → nat → bool) (i j : nat) : nat → nat → bool :=
  λ i' j', m i' j' || (bool_decide (i' = i) && bool_decide (j' = j)).

(** Win detection in the words of the specification: rows top to bottom,
    then columns left to right, then the two diagonals, first match wins. *)
Definition detectWinPattern (markedPositions : list string) (boardSize : nat)
    : option (list string) :=
  match find (rowFull boardSize markedPositions) (seq 0 boardSize) with
  | Some i => Some (rowLabels boardSize i)
  | None =>
      match find (colFull boardSize markedPositions) (seq 0 boardSize) with
      | Some j => Some (colLabels boardSize j)
      | None =>
          if diagFull boardSize markedPositions then Some (diagLabels boardSize)
          else if antiFull boardSize markedPositions then Some (antiLabels boardSize)
          else None
      end
  end.

(** The name of a cell in the words of the specification: the letter of the
    row, [A] for the top row, then the number of the column, counted from 1
    and written in decimal. *)
Definition position (row col : nat) : string :=
  String (ascii_of_nat (65 + row))
    (NilEmpty.string_of_uint (Nat.to_uint (col + 1))).

(** The distinct labels that pass the bounds check. *)
Definition uniqueOnBoard (boardSize : nat) (markedPositions : list string)
    : list string :=
  remove_dups (filter (λ pos, onBoard boardSize pos = true) markedPositions).

End Lines.

(** ** JavaScript [Map]: keys in insertion order

    [set] on a present key keeps the key's place and replaces its value; on
    an absent key it appends.  [entries] is the list itself. *)

Module JsMap.

Abbreviation t K V := (list (K * V)).

Section JsMap.
Context {K V : Type} `{EqDecision K}.

Definition get (k : K) (m : t K V) : option V :=
  snd <$> find (λ e, bool_decide (e.1 = k)) m.

Definition has (k : K) (m : t K V) : bool :=
  bool_decide (is_Some (get k m)).

Definition set (k : K) (v : V) (m : t K V) : t K V :=
  if has k m
  then (λ e, if bool_decide (e.1 = k) then (k, v) else e) <$> m
  else m ++ [(k, v)].

Definition delete (k : K) (m : t K V) : t K V :=
  filter (λ e, e.1 ≠ k) m.

Definition keys (m : t K V) : list K := fst <$> m.
Definition values (m : t K V) : list V := snd <$> m.

End JsMap.

End JsMap.

(** ** The two vote tallies of server/controllers/game.ts *)

Module Tally.

(** [answerCounts.set(cellId, (answerCounts.get(cellId) || 0) + 1)] *)
Definition bump (cellId : string) (answerCounts : JsMap.t string nat)
    : JsMap.t string nat :=
  let count := default 0 (JsMap.get cellId answerCounts) in
  JsMap.set cellId (count + 1) answerCounts.

(** The first loop of [checkGroupConsensus]. *)
Definition countAnswers (cellIds : list string) : JsMap.t string nat :=
  foldl (λ answerCounts cellId, bump cellId answerCounts) [] cellIds.

(** The body of the second loop of [checkGroupConsensus]: the pair
    [(mostCommonAnswer, highestCount)] is replaced on a strictly higher
    count. *)
Definition selectStep (best : string * nat) (entry : string * nat) : string * nat :=
  let '(mostCommonAnswer, highestCount) := best in
  let '(cellId, count) := entry in
  if highestCount <? count then (cellId, count)
  else (mostCommonAnswer, highestCount).

Definition mostCommon (answerCounts : JsMap.t string nat) : string * nat :=
  foldl selectStep ("", 0) answerCounts.

(** [if (mostCommonAnswer)]: the empty string is falsy. *)
Definition truthy (s : string) : option string :=
  if bool_decide (s = "") then None else Some s.

(** Consensus as [checkGroupConsensus] resolves it from the cell ids of the
    group's stored answers. *)
Definition groupConsensus (cellIds : list string) : option string :=
  truthy (mostCommon (countAnswers cellIds)).1.

(** The single loop of [handleRevealAnswer]: counts and running winner are
    updated together, vote by vote. *)
Definition revealStep
    (acc : JsMap.t string nat * string * nat) (cellId : string)
    : JsMap.t string nat * string * nat :=
  let '(answerCounts, mostCommonAnswer, highestCount) := acc in
  let count := default 0 (JsMap.get cellId answerCounts) in
  let answerCounts := JsMap.set cellId (count + 1) answerCounts in
  if (highestCount <? count + 1)%nat then (answerCounts, cellId, count + 1)
  else (answerCounts, mostCommonAnswer, highestCount).

Definition revealTally (cellIds : list string) : JsMap.t string nat * string * nat :=
  foldl revealStep ([], "", 0) cellIds.

(** Consensus as [handleRevealAnswer] resolves it from the values of the
    in-memory vote map of a group. *)
Definition revealConsensus (cellIds : list string) : option string :=
  truthy (revealTally cellIds).1.2.

(** The number of votes for a choice. *)
Definition votesFor (cellIds : list string) (c : string) : nat :=
  count_occ string_dec cellIds c.

(** The choice [c] wins the vote [cellIds] with the tie-break of the
    specification: it has the highest count, and every choice that was voted
    for before the first vote for [c] has a strictly lower count. *)
Definition FirstVoteWinner (cellIds : list string) (c : string) : Prop :=
  ∃ before after,
    cellIds = before ++ (c :: after) ∧ (c ∉ before)
    ∧ (∀ x, votesFor cellIds x ≤ votesFor cellIds c)
    ∧ (∀ x, x ∈ before → votesFor cellIds x < votesFor cellIds c).

(** The choices of a vote in the order of their first votes. *)
Definition firstOcc (cellIds : list string) : list string :=
  foldl (λ seen c, if bool_decide (c ∈ seen) then seen else seen ++ [c]) [] cellIds.




End Tally.

(** ** The game record (the [Game] interface of src/server/routes.ts) *)

Inductive Status : Type := waiting | active | completed.

#[export] Instance Status_eq_dec : EqDecision Status.
Proof. solve_decision. Defined.

Record Player : Type := mkPlayer {
  player_id : string;
  player_name : string }.

Record BoardCell : Type := mkCell {
  position : string;
  content : string;
  answer : string;
  correct : bool }.

Record Group : Type := mkGroup {
  group_id : string;
  group_name : string;
  players : list Player;
  board : list BoardCell;
  hasBingo : bool;
  bingoPattern : option (list string) }.

Record Question : Type := mkQuestion {
  question_id : string;
  question : string;
  question_answer : string;
  used : bool }.

Record CurrentQuestion : Type := mkCurrent {
  current_id : string;
  current_question : string;
  timeLimit : nat }.

Record Game : Type := mkGame {
  game_id : string;
  game_name : string;
  creatorId : nat;
  boardSize : nat;
  cellSize : string;
  answerTime : nat;
  groupCount : nat;
  status : Status;
  createdAt : string;
  questions : list Question;
  currentQuestion : option CurrentQuestion;
  groups : list Group }.

Record PlayerAnswer : Type := mkAnswer {
  answer_playerId : string;
  answer_groupId : string;
  answer_cellId : string;
  answer_position : string;
  timestamp : nat }.

#[export] Instance Player_eq_dec : EqDecision Player.
Proof. solve_decision. Defined.
#[export] Instance BoardCell_eq_dec : EqDecision BoardCell.
Proof. solve_decision. Defined.
#[export] Instance Group_eq_dec : EqDecision Group.
Proof. solve_decision. Defined.
#[export] Instance Question_eq_dec : EqDecision Question.
Proof. solve_decision. Defined.
#[export] Instance CurrentQuestion_eq_dec : EqDecision CurrentQuestion.
Proof. solve_decision. Defined.
#[export] Instance Game_eq_dec : EqDecision Game.
Proof. solve_decision. Defined.
#[export] Instance PlayerAnswer_eq_dec : EqDecision PlayerAnswer.
Proof. solve_decision. Defined.

(** Field assignments on the records. *)

Definition set_status (s : Status) (g : Game) : Game :=
  mkGame (game_id g) (game_name g) (creatorId g) (boardSize g) (cellSize g)
    (answerTime g) (groupCount g) s (createdAt g) (questions g)
    (currentQuestion g) (groups g).

Definition set_questions (qs : list Question) (g : Game) : Game :=
  mkGame (game_id g) (game_name g) (creatorId g) (boardSize g) (cellSize g)
    (answerTime g) (groupCount g) (status g) (createdAt g) qs
    (currentQuestion g) (groups g).

Definition set_currentQuestion (q : option CurrentQuestion) (g : Game) : Game :=
  mkGame (game_id g) (game_name g) (creatorId g) (boardSize g) (cellSize g)
    (answerTime g) (groupCount g) (status g) (createdAt g) (questions g)
    q (groups g).

Definition set_groups (gs : list Group) (g : Game) : Game :=
  mkGame (game_id g) (game_name g) (creatorId g) (boardSize g) (cellSize g)
    (answerTime g) (groupCount g) (status g) (createdAt g) (questions g)
    (currentQuestion g) gs.

Definition set_used (q : Question) : Question :=
  mkQuestion (question_id q) (question q) (question_answer q) true.

Definition set_correct (isCorrect : bool) (c : BoardCell) : BoardCell :=
  mkCell (position c) (content c) (answer c) isCorrect.

Definition set_board (cells : list BoardCell) (g : Group) : Group :=
  mkGroup (group_id g) (group_name g) (players g) cells (hasBingo g)
    (bingoPattern g).

Definition set_players (ps : list Player) (g : Group) : Group :=
  mkGroup (group_id g) (group_name g) ps (board g) (hasBingo g)
    (bingoPattern g).

Definition set_bingo (pattern : list string) (g : Group) : Group :=
  mkGroup (group_id g) (group_name g) (players g) (board g) true (Some pattern).

(** ** Outcomes of calls that may throw *)

Inductive result (A : Type) : Type :=
| Ok (a : A)
| Throw (message : string).
Arguments Ok {A} a.
Arguments Throw {A} message.

(** ** JavaScript array and string helpers *)

Module Js.

(** [arr.find(p)] followed by an assignment to the found element: the first
    element that satisfies [p] is replaced. *)
Fixpoint updateFirst {A} (p : A → bool) (f : A → A) (arr : list A) : list A :=
  match arr with
  | [] => []
  | a :: rest => if p a then f a :: rest else a :: updateFirst p f rest
  end.

(** [arr.findIndex(p)], with [None] for -1. *)
Fixpoint findIndex {A} (p : A → bool) (arr : list A) : option nat :=
  match arr with
  | [] => None
  | a :: rest => if p a then Some 0 else S <$> findIndex p rest
  end.

(** [s.split(sep)] for a separator of one character. *)
Fixpoint split (sep : ascii) (s : string) : list string :=
  match s with
  | EmptyString => [EmptyString]
  | String c rest =>
      if bool_decide (c = sep) then EmptyString :: split sep rest
      else match split sep rest with
           | part :: parts => String c part :: parts
           | [] => [String c EmptyString]
           end
  end.

(** The player with this id is a member: [players.some(p => p.id === id)]. *)
Definition isMember (playerId : string) (g : Group) : bool :=
  existsb (λ p, bool_decide (player_id p = playerId)) (players g).

(** [game.groups.find(group => group.players.some(...))] *)
Definition findPlayerGroup (playerId : string) (game : Game) : option Group :=
  find (isMember playerId) (groups game).

(** [game.groups.find(g => g.id === groupId)] *)
Definition findGroup (groupId : string) (game : Game) : option Group :=
  find (λ g, bool_decide (group_id g = groupId)) (groups game).

End Js.

(** ** [MemStorage], the implementation of [IStorage] exported as [storage]

    Only the game methods are embedded.  [getGame] hands out the stored
    object itself; the callers read from it only fields that no later call
    of the same handler assigns (ids, names, members, board size), so a
    snapshot taken at the call stands for it.  Every method throws, if it
    throws, before its first assignment. *)

Module MemStorage.

Record t : Type := mk {
  games : gmap string Game;
  playerAnswers : gmap string (list PlayerAnswer) }.

Definition set_games (gs : gmap string Game) (st : t) : t :=
  mk gs (playerAnswers st).

Definition set_playerAnswers (pa : gmap string (list PlayerAnswer)) (st : t) : t :=
  mk (games st) pa.

(** [this.games.set(gameId, game)] *)
Definition putGame (gameId : string) (game : Game) (st : t) : t :=
  set_games (<[gameId := game]> (games st)) st.

Definition getGame (id : string) (st : t) : option Game := games st !! id.

Definition updateGameStatus (gameId : string) (s : Status) (st : t)
    : result (unit * t) :=
  match getGame gameId st with
  | None => Throw "Game not found"
  | Some game => Ok (tt, putGame gameId (set_status s game) st)
  end.

(** The player id is the one [randomUUID()] returned. *)
Definition addPlayerToGame (gameId playerName playerId : string) (st : t)
    : result (string * string * string * t) :=
  match getGame gameId st with
  | None => Throw "Game not found"
  | Some game =>
      if bool_decide (status game ≠ waiting)
      then Throw "Game has already started or ended"
      else
        match groups game with
        | [] => Throw "TypeError: Cannot read properties of undefined"
        | first :: _ =>
            let minPlayersGroup :=
              foldl (λ best group,
                       if length (players group) <? length (players best)
                       then group else best)
                first (groups game) in
            let groups' :=
              Js.updateFirst
                (λ g, bool_decide (g = minPlayersGroup))
                (λ g, set_players (players g ++ [mkPlayer playerId playerName]) g)
                (groups game) in
            Ok (playerId, group_id minPlayersGroup, group_name minPlayersGroup,
                putGame gameId (set_groups groups' game) st)
        end
  end.

Definition getNextQuestion (gameId : string) (st : t)
    : result (option CurrentQuestion * t) :=
  match getGame gameId st with
  | None => Throw "Game not found"
  | Some game =>
      match find (λ q, negb (used q)) (questions game) with
      | None => Ok (None, st)
      | Some unusedQuestion =>
          let questions' :=
            Js.updateFirst (λ q, negb (used q)) set_used (questions game) in
          Ok (Some (mkCurrent (question_id unusedQuestion)
                      (question unusedQuestion) (answerTime game)),
              putGame gameId (set_questions questions' game) st)
      end
  end.

Definition updateCurrentQuestion (gameId : string) (q : CurrentQuestion) (st : t)
    : result (unit * t) :=
  match getGame gameId st with
  | None => Throw "Game not found"
  | Some game => Ok (tt, putGame gameId (set_currentQuestion (Some q) game) st)
  end.

(** [`${gameId}:${game.currentQuestion?.id}`] *)
Definition answerKey (gameId : string) (game : Game) : string :=
  gameId +:+ ":" +:+
  match currentQuestion game with
  | Some q => current_id q
  | None => "undefined"
  end.

(** The update-or-push on the answers of one question. *)
Definition upsertAnswer (a : PlayerAnswer) (answers : list PlayerAnswer)
    : list PlayerAnswer :=
  match Js.findIndex
          (λ a', bool_decide (answer_playerId a' = answer_playerId a)) answers with
  | Some existingAnswerIndex => <[existingAnswerIndex := a]> answers
  | None => answers ++ [a]
  end.

(** [now] is the value of [Date.now()] at the call. *)
Definition recordPlayerAnswer (gameId playerId groupId cellId : string)
    (now : nat) (st : t) : result (unit * t) :=
  match getGame gameId st with
  | None => Throw "Game not found"
  | Some game =>
      match Js.findGroup groupId game with
      | None => Throw "Group not found"
      | Some group =>
          if negb (Js.isMember playerId group)
          then Throw "Player not found in group"
          else
            match Js.split "-" cellId with
            | [_; position] =>
                let key := answerKey gameId game in
                let answers := default [] (playerAnswers st !! key) in
                let answers' :=
                  upsertAnswer (mkAnswer playerId groupId cellId position now)
                    answers in
                Ok (tt, set_playerAnswers (<[key := answers']> (playerAnswers st)) st)
            | _ => Throw "Invalid cell ID format"
            end
      end
  end.

Definition getGroupAnswers (gameId groupId : string) (st : t)
    : list PlayerAnswer :=
  match getGame gameId st with
  | None => []
  | Some game =>
      match currentQuestion game with
      | None => []
      | Some _ =>
          let allAnswers :=
            default [] (playerAnswers st !! answerKey gameId game) in
          filter (λ a, answer_groupId a = groupId) allAnswers
      end
  end.

Definition setGroupAnswer (gameId groupId cellId : string) (st : t)
    : result (unit * t) :=
  match getGame gameId st with
  | None => Throw "Game not found or no current question"
  | Some game =>
      match currentQuestion game with
      | None => Throw "Game not found or no current question"
      | Some current =>
          match Js.findGroup groupId game with
          | None => Throw "Group not found"
          | Some group =>
              match Js.split "-" cellId with
              | [_; pos] =>
                  match find (λ c, bool_decide (position c = pos)) (board group) with
                  | None => Throw "Cell not found"
                  | Some cell =>
                      match find (λ q, bool_decide (question_id q = current_id current))
                              (questions game) with
                      | None => Throw "Question not found"
                      | Some q =>
                          let isCorrect := bool_decide (answer cell = question q) in
                          let board' :=
                            Js.updateFirst (λ c, bool_decide (position c = pos))
                              (set_correct isCorrect) (board group) in
                          let groups' :=
                            Js.updateFirst (λ g, bool_decide (group_id g = groupId))
                              (set_board board') (groups game) in
                          Ok (tt, putGame gameId (set_groups groups' game) st)
                      end
                  end
              | _ => Throw "Invalid cell ID format"
              end
          end
      end
  end.

(** The positions and contents of the cells marked correct. *)
Definition getGroupCorrectAnswers (gameId groupId : string) (st : t)
    : result (list (string * string)) :=
  match getGame gameId st with
  | None => Throw "Game not found"
  | Some game =>
      match Js.findGroup groupId game with
      | None => Throw "Group not found"
      | Some group =>
          Ok ((λ c, (position c, content c)) <$> filter (λ c, correct c = true) (board group))
      end
  end.

Definition setGroupBingo (gameId groupId : string) (pattern : list string) (st : t)
    : result (unit * t) :=
  match getGame gameId st with
  | None => Throw "Game not found"
  | Some game =>
      match Js.findGroup groupId game with
      | None => Throw "Group not found"
      | Some _ =>
          let groups' :=
            Js.updateFirst (λ g, bool_decide (group_id g = groupId))
              (set_bingo pattern) (groups game) in
          Ok (tt, putGame gameId (set_groups groups' game) st)
      end
  end.

(** A group keeps its id, and its bingo once it has one. *)
Definition groupKept (g g' : Group) : Prop :=
  group_id g = group_id g' ∧ (hasBingo g = true → hasBingo g' = true).

(** Every stored game is still stored, with the same groups in the same
    order, and no group has lost its bingo. *)
Definition keepsBingo (st st' : t) : Prop :=
  ∀ gameId game,
    getGame gameId st = Some game →
    ∃ game', getGame gameId st' = Some game'
             ∧ Forall2 groupKept (groups game) (groups game').

(** A sequence of [recordPlayerAnswer] calls for the players of one group,
    each vote with the time of its call; a call that throws leaves the
    storage as it is. *)
Definition recordAll (gameId groupId : string)
    (votes : list (string * string * nat)) (st : t) : t :=
  foldl (λ st v,
           match recordPlayerAnswer gameId v.1.1 groupId v.1.2 v.2 st with
           | Ok (_, st') => st'
           | Throw _ => st
           end) st votes.


(** The vote of a stored answer. *)
Definition ballot (a : PlayerAnswer) : string * string :=
  (answer_playerId a, answer_cellId a).

End MemStorage.

(** ** [DatabaseStorage], the SQL implementation of [IStorage]

    The tables are lists of rows in their stored order.  A [select] without
    [ORDER BY] yields the matching rows in that order, an [update] changes
    the matching rows in place and an [insert] appends.  [before] is the
    order of the database on texts, which [orderBy(desc(questions.id))]
    sorts by.  The game methods that the coordinator calls to write are
    embedded, and the two reads of the votes and the correct cells.

    Two things of the database are not in these definitions.  The order of
    the rows of a [select] without [ORDER BY] is the database's choice: the
    stored order is one of the orders that it may return, and what is
    proved of such a result and depends on its order is stated in
    [Referential] of every permutation of it.  The foreign keys of the
    schema are checked in [Referential] as well; here every statement is
    taken to be accepted. *)

Module DatabaseStorage.

Record GameRow : Type := mkGameRow {
  games_id : string;
  games_status : Status;
  games_answerTime : nat;
  games_completedAt : option nat }.

Record QuestionRow : Type := mkQuestionRow {
  questions_id : string;
  questions_gameId : string;
  questions_question : string;
  questions_answer : string;
  questions_used : bool }.

(** [bingoPattern] holds the JSON text of the pattern; the pattern stands for
    its text. *)
Record GroupRow : Type := mkGroupRow {
  groups_id : string;
  groups_gameId : string;
  groups_name : string;
  groups_hasBingo : bool;
  groups_bingoPattern : option (list string) }.

Record BoardCellRow : Type := mkCellRow {
  boardCells_id : string;
  boardCells_groupId : string;
  boardCells_position : string;
  boardCells_content : string;
  boardCells_answer : string;
  boardCells_correct : bool }.

(** [id] is the serial primary key. *)
Record PlayerAnswerRow : Type := mkAnswerRow {
  playerAnswers_id : nat;
  playerAnswers_gameId : string;
  playerAnswers_questionId : string;
  playerAnswers_playerId : string;
  playerAnswers_groupId : string;
  playerAnswers_cellId : string;
  playerAnswers_position : string;
  playerAnswers_timestamp : nat }.

(** [serial] is the next value of the sequence behind [playerAnswers.id]. *)
Record t : Type := mk {
  games : list GameRow;
  questions : list QuestionRow;
  groups : list GroupRow;
  boardCells : list BoardCellRow;
  playerAnswers : list PlayerAnswerRow;
  serial : nat }.

Definition set_games (rows : list GameRow) (db : t) : t :=
  mk rows (questions db) (groups db) (boardCells db) (playerAnswers db) (serial db).

Definition set_questions (rows : list QuestionRow) (db : t) : t :=
  mk (games db) rows (groups db) (boardCells db) (playerAnswers db) (serial db).

Definition set_groups (rows : list GroupRow) (db : t) : t :=
  mk (games db) (questions db) rows (boardCells db) (playerAnswers db) (serial db).

Definition set_boardCells (rows : list BoardCellRow) (db : t) : t :=
  mk (games db) (questions db) (groups db) rows (playerAnswers db) (serial db).

Definition set_playerAnswers (rows : list PlayerAnswerRow) (next : nat) (db : t) : t :=
  mk (games db) (questions db) (groups db) (boardCells db) rows next.

(** [update(table).set(f).where(p)] *)
Definition updateWhere {A} (p : A → bool) (f : A → A) (rows : list A) : list A :=
  (λ r, if p r then f r else r) <$> rows.

Section Collation.

Variable before : string → string → bool.

(** The first row of [orderBy(desc(id))]: a row with the greatest id. *)
Definition greatest (rows : list QuestionRow) : option QuestionRow :=
  foldl (λ best q,
           match best with
           | None => Some q
           | Some b => if before (questions_id b) (questions_id q)
                       then Some q else Some b
           end) None rows.

(** The query for the current question: the used question of the game with
    the greatest id. *)
Definition currentQuestion (gameId : string) (db : t) : option QuestionRow :=
  greatest
    (List.filter
       (λ q, bool_decide (questions_gameId q = gameId) && questions_used q)
       (questions db)).

Definition updateGameStatus (gameId : string) (s : Status) (time : nat) (db : t)
    : result (unit * t) :=
  Ok (tt,
      set_games
        (updateWhere (λ g, bool_decide (games_id g = gameId))
           (λ g, mkGameRow (games_id g) s (games_answerTime g)
                   (if bool_decide (s = completed) then Some time
                    else games_completedAt g))
           (games db)) db).

Definition getNextQuestion (gameId : string) (db : t)
    : result (option CurrentQuestion * t) :=
  match List.filter (λ g, bool_decide (games_id g = gameId)) (games db) with
  | [] => Throw "Game not found"
  | game :: _ =>
      match List.filter
              (λ q, bool_decide (questions_gameId q = gameId)
                    && negb (questions_used q))
              (questions db) with
      | [] => Ok (None, db)
      | unusedQuestion :: _ =>
          Ok (Some (mkCurrent (questions_id unusedQuestion)
                      (questions_question unusedQuestion)
                      (games_answerTime game)),
              set_questions
                (updateWhere
                   (λ q, bool_decide (questions_id q = questions_id unusedQuestion))
                   (λ q, mkQuestionRow (questions_id q) (questions_gameId q)
                           (questions_question q) (questions_answer q) true)
                   (questions db)) db)
      end
  end.

Definition updateCurrentQuestion (gameId : string) (q : CurrentQuestion) (db : t)
    : result (unit * t) :=
  Ok (tt,
      set_questions
        (updateWhere (λ r, bool_decide (questions_id r = current_id q))
           (λ r, mkQuestionRow (questions_id r) (questions_gameId r)
                   (questions_question r) (questions_answer r) true)
           (questions db)) db).

(** The rows of the answers of one player to one question. *)
Definition answersOfPlayer (gameId questionId playerId : string) (db : t)
    : list PlayerAnswerRow :=
  List.filter
    (λ a, bool_decide (playerAnswers_gameId a = gameId)
          && bool_decide (playerAnswers_questionId a = questionId)
          && bool_decide (playerAnswers_playerId a = playerId))
    (playerAnswers db).

Definition recordPlayerAnswer (gameId playerId groupId cellId : string)
    (time : nat) (db : t) : result (unit * t) :=
  match Js.split "-" cellId with
  | [_; pos] =>
      match currentQuestion gameId db with
      | None => Throw "No current question found"
      | Some current =>
          let questionId := questions_id current in
          match answersOfPlayer gameId questionId playerId db with
          | existing :: _ =>
              Ok (tt,
                  set_playerAnswers
                    (updateWhere
                       (λ a, bool_decide (playerAnswers_id a = playerAnswers_id existing))
                       (λ a, mkAnswerRow (playerAnswers_id a)
                               (playerAnswers_gameId a) (playerAnswers_questionId a)
                               (playerAnswers_playerId a) groupId cellId pos time)
                       (playerAnswers db))
                    (serial db) db)
          | [] =>
              Ok (tt,
                  set_playerAnswers
                    (playerAnswers db
                     ++ [mkAnswerRow (serial db) gameId questionId playerId
                           groupId cellId pos time])
                    (S (serial db)) db)
          end
      end
  | _ => Throw "Invalid cell ID format"
  end.

Definition getGroupAnswers (gameId groupId : string) (db : t)
    : list PlayerAnswerRow :=
  match currentQuestion gameId db with
  | None => []
  | Some current =>
      List.filter
        (λ a, bool_decide (playerAnswers_gameId a = gameId)
              && bool_decide (playerAnswers_questionId a = questions_id current)
              && bool_decide (playerAnswers_groupId a = groupId))
        (playerAnswers db)
  end.

Definition setGroupAnswer (gameId groupId cellId : string) (db : t)
    : result (unit * t) :=
  match Js.split "-" cellId with
  | [_; pos] =>
      match List.filter
              (λ c, bool_decide (boardCells_groupId c = groupId)
                    && bool_decide (boardCells_position c = pos))
              (boardCells db) with
      | [] => Throw "Cell not found"
      | cell :: _ =>
          match currentQuestion gameId db with
          | None => Throw "No current question found"
          | Some current =>
              let isCorrect :=
                bool_decide (boardCells_answer cell = questions_question current) in
              Ok (tt,
                  set_boardCells
                    (updateWhere
                       (λ c, bool_decide (boardCells_id c = boardCells_id cell))
                       (λ c, mkCellRow (boardCells_id c) (boardCells_groupId c)
                               (boardCells_position c) (boardCells_content c)
                               (boardCells_answer c) isCorrect)
                       (boardCells db)) db)
          end
      end
  | _ => Throw "Invalid cell ID format"
  end.

Definition getGroupCorrectAnswers (gameId groupId : string) (db : t)
    : list (string * string) :=
  (λ c, (boardCells_position c, boardCells_content c))
  <$> List.filter
        (λ c, bool_decide (boardCells_groupId c = groupId) && boardCells_correct c)
        (boardCells db).

Definition setGroupBingo (gameId groupId : string) (pattern : list string) (db : t)
    : result (unit * t) :=
  Ok (tt,
      set_groups
        (updateWhere (λ g, bool_decide (groups_id g = groupId))
           (λ g, mkGroupRow (groups_id g) (groups_gameId g) (groups_name g)
                   true (Some pattern))
           (groups db)) db).

(** The writing methods, as calls. *)
Inductive Call : Type :=
| callUpdateGameStatus (gameId : string) (s : Status) (time : nat)
| callGetNextQuestion (gameId : string)
| callUpdateCurrentQuestion (gameId : string) (q : CurrentQuestion)
| callRecordPlayerAnswer (gameId playerId groupId cellId : string) (time : nat)
| callSetGroupAnswer (gameId groupId cellId : string)
| callSetGroupBingo (gameId groupId : string) (pattern : list string).

(** The database after a call; a call that throws leaves it as it is. *)
Definition perform (c : Call) (db : t) : t :=
  let after {A} (r : result (A * t)) : t :=
    match r with Ok (_, db') => db' | Throw _ => db end in
  match c with
  | callUpdateGameStatus gameId s time => after (updateGameStatus gameId s time db)
  | callGetNextQuestion gameId => after (getNextQuestion gameId db)
  | callUpdateCurrentQuestion gameId q => after (updateCurrentQuestion gameId q db)
  | callRecordPlayerAnswer gameId playerId groupId cellId time =>
      after (recordPlayerAnswer gameId playerId groupId cellId time db)
  | callSetGroupAnswer gameId groupId cellId =>
      after (setGroupAnswer gameId groupId cellId db)
  | callSetGroupBingo gameId groupId pattern =>
      after (setGroupBingo gameId groupId pattern db)
  end.

(** A sequence of votes of one group, each with the time of its call. *)
Definition recordAll (gameId groupId : string)
    (votes : list (string * string * nat)) (db : t) : t :=
  foldl (λ db v, perform (callRecordPlayerAnswer gameId v.1.1 groupId v.1.2 v.2) db)
    db votes.

End Collation.


(** The vote of a row. *)
Definition ballot (a : PlayerAnswerRow) : string * string :=
  (playerAnswers_playerId a, playerAnswers_cellId a).


(** The groups table keeps its rows with their ids, and a bingo once set. *)
Definition groupRowKept (g g' : GroupRow) : Prop :=
  groups_id g = groups_id g' ∧ (groups_hasBingo g = true → groups_hasBingo g' = true).

End DatabaseStorage.

(** ** The WebSocket coordinator of server/controllers/game.ts

    With [MemStorage] every [await] of a handler resolves within the same
    turn of the event loop, so a handler runs to completion before the next
    socket event or timer is served: an event is one step of the world. *)

Module Coordinator.

Inductive ReadyState : Type := CONNECTING | OPEN | CLOSING | CLOSED.

#[export] Instance ReadyState_eq_dec : EqDecision ReadyState.
Proof. solve_decision. Defined.

(** *** Messages to the clients *)

(** The [game] object of the host's [game_update]. *)
Record HostView : Type := mkHostView {
  host_id : string;
  host_name : string;
  host_status : Status;
  host_boardSize : nat;
  host_cellSize : string;
  host_answerTime : nat;
  host_groupCount : nat;
  host_currentQuestion : option CurrentQuestion;
  host_groups : list Group }.

(** The [game] object of a player's [game_update]. *)
Record PlayerView : Type := mkPlayerView {
  view_id : string;
  view_name : string;
  view_status : Status;
  view_boardSize : nat;
  view_cellSize : string;
  view_currentQuestion : option CurrentQuestion;
  view_currentGroup : Group }.

(** An entry of [options] in [player_vote]. *)
Record AnswerOption : Type := mkOption {
  option_id : string;
  option_position : string;
  option_content : string;
  option_votes : nat;
  option_voters : list string }.

Inductive ServerMessage : Type :=
| game_update_host (game : HostView)
| game_update_player (game : PlayerView)
| game_over (message : string)
| bingo_achieved (groupId groupName : string) (members : list Player)
    (pattern : list string) (size : nat)
| host_selected (cellId pos : string) (limit : nat) (cellContent : string)
    (current : option CurrentQuestion)
| player_vote (groupId : option string) (playerId cellId : string)
    (options : list AnswerOption)
| error (message : string).

(** *** Messages from the clients

    The payload fields have their declared type [string]; the empty string
    stands for every falsy value.  [malformed] is a text that [JSON.parse]
    rejects, [unknown] a [type] that the switch does not list. *)
Inductive ClientMessage : Type :=
| start_game
| end_game
| next_question
| select_answer (playerId cellId : string)
| host_selected_cell (cellId pos : string) (limit : nat)
| reveal_answer (cellId pos : string)
| answer_select (playerId cellId pos : string)
| unknown (type : string)
| malformed.

(** *** What a handler does to the outside *)

(** The storage methods that assign, as a handler completes them. *)
Inductive StorageCall : Type :=
| UpdateGameStatus (gameId : string) (s : Status)
| GetNextQuestion (gameId : string)
| UpdateCurrentQuestion (gameId : string) (q : CurrentQuestion)
| RecordPlayerAnswer (gameId playerId groupId cellId : string)
| SetGroupAnswer (gameId groupId cellId : string)
| SetGroupBingo (gameId groupId : string) (pattern : list string).

Inductive Action : Type :=
| Sent (ws : nat) (msg : ServerMessage)
| Stored (call : StorageCall).

(** *** The world of the coordinator

    A socket is named by a number; [readyState] holds the state of every
    socket object, [gameConnections] and [gameAnswers] are the two module
    level maps, [timers] the pending [setTimeout] callbacks with the
    arguments of their [handleRevealAnswer] and [now] the clock. *)
Record World : Type := mkWorld {
  storage : MemStorage.t;
  gameConnections : gmap string (JsMap.t string nat);
  gameAnswers : gmap string (gmap string (JsMap.t string string));
  readyState : gmap nat ReadyState;
  timers : list (string * string * string);
  now : nat }.

Definition set_storage (st : MemStorage.t) (w : World) : World :=
  mkWorld st (gameConnections w) (gameAnswers w) (readyState w) (timers w) (now w).

Definition set_gameConnections (c : gmap string (JsMap.t string nat)) (w : World)
    : World :=
  mkWorld (storage w) c (gameAnswers w) (readyState w) (timers w) (now w).

Definition set_gameAnswers
    (a : gmap string (gmap string (JsMap.t string string))) (w : World) : World :=
  mkWorld (storage w) (gameConnections w) a (readyState w) (timers w) (now w).

Definition set_readyState (r : gmap nat ReadyState) (w : World) : World :=
  mkWorld (storage w) (gameConnections w) (gameAnswers w) r (timers w) (now w).

Definition set_timers (t : list (string * string * string)) (w : World) : World :=
  mkWorld (storage w) (gameConnections w) (gameAnswers w) (readyState w) t (now w).

Definition set_now (t : nat) (w : World) : World :=
  mkWorld (storage w) (gameConnections w) (gameAnswers w) (readyState w)
    (timers w) t.

(** *** The monad of the handlers: state, exceptions and a trace *)

Definition M (A : Type) : Type := World → result A * World * list Action.

#[export] Instance M_ret : MRet M := λ A a w, (Ok a, w, []).

#[export] Instance M_bind : MBind M := λ A B k m w,
  match m w with
  | (Ok a, w', trace) =>
      match k a w' with
      | (r, w'', trace') => (r, w'', trace ++ trace')
      end
  | (Throw e, w', trace) => (Throw e, w', trace)
  end.

Definition throw {A} (message : string) : M A := λ w, (Throw message, w, []).

(** [try { body } catch (error) { handler error }] *)
Definition tryCatch {A} (body : M A) (handler : string → M A) : M A := λ w,
  match body w with
  | (Ok a, w', trace) => (Ok a, w', trace)
  | (Throw e, w', trace) =>
      match handler e w' with
      | (r, w'', trace') => (r, w'', trace ++ trace')
      end
  end.

Definition world : M World := λ w, (Ok w, w, []).

Definition update (f : World → World) : M unit := λ w, (Ok tt, f w, []).

Definition emit (trace : list Action) : M unit := λ w, (Ok tt, w, trace).

(** A call of a storage method that assigns: the call is recorded when it
    returns. *)
Definition store {A} (call : StorageCall)
    (method : MemStorage.t → result (A * MemStorage.t)) : M A := λ w,
  match method (storage w) with
  | Ok (a, st) => (Ok a, set_storage st w, [Stored call])
  | Throw e => (Throw e, w, [])
  end.

(** [for (const x of xs) body x] *)
Fixpoint forEach {A} (xs : list A) (body : A → M unit) : M unit :=
  match xs with
  | [] => mret tt
  | x :: rest => body x ;; forEach rest body
  end.

(** *** Sending *)

Definition isOpen (w : World) (ws : nat) : bool :=
  bool_decide (readyState w !! ws = Some OPEN).

(** The loop over [connections.entries()] that sends one message to every
    open socket of the game. *)
Definition broadcast (w : World) (gameId : string) (msg : ServerMessage)
    : list Action :=
  match gameConnections w !! gameId with
  | None => []
  | Some connections =>
      (λ e, Sent e.2 msg) <$> filter (λ e, isOpen w e.2 = true) connections
  end.

Definition hostUpdate (game : Game) : ServerMessage :=
  game_update_host
    (mkHostView (game_id game) (game_name game) (status game) (boardSize game)
       (cellSize game) (answerTime game) (groupCount game)
       (currentQuestion game) (groups game)).

Definition playerUpdate (game : Game) (playerGroup : Group) : ServerMessage :=
  game_update_player
    (mkPlayerView (game_id game) (game_name game) (status game) (boardSize game)
       (cellSize game) (currentQuestion game) playerGroup).

(** The loop of [sendGameUpdate] over the players' connections. *)
Definition playerUpdates (w : World) (game : Game)
    (connections : JsMap.t string nat) : list Action :=
  e ← connections;
  let '(playerId, connection) := e in
  if bool_decide (playerId = "host") || negb (isOpen w connection) then []
  else match Js.findPlayerGroup playerId game with
       | Some playerGroup => [Sent connection (playerUpdate game playerGroup)]
       | None => []
       end.

(** The messages of [sendGameUpdate(gameId)].  It assigns nothing and it
    cannot throw: [getGame] of [MemStorage] does not, and every [send] is
    guarded by the socket being open. *)
Definition gameUpdates (w : World) (gameId : string) : list Action :=
  match MemStorage.getGame gameId (storage w) with
  | None => []
  | Some game =>
      match gameConnections w !! gameId with
      | None => []
      | Some connections =>
          match JsMap.get "host" connections with
          | Some hostConnection =>
              if isOpen w hostConnection
              then [Sent hostConnection (hostUpdate game)]
              else []
          | None => []
          end
          ++ playerUpdates w game connections
      end
  end.

(** [sendGameUpdate] is called without [await]: it runs up to its first
    [await], the read of the game, and resumes when the synchronous code of
    the caller is through.  It is the last statement of its callers, except
    in the two game-over branches, where the [game_over] loop follows it in
    the text and precedes it in time. *)
Definition sendGameUpdate (gameId : string) : M unit :=
  w ← world; emit (gameUpdates w gameId).

Definition sendAll (gameId : string) (msg : ServerMessage) : M unit :=
  w ← world; emit (broadcast w gameId msg).

(** [const game = await storage.getGame(gameId); if (!game) throw ...] *)
Definition getGameOrThrow (gameId : string) : M Game :=
  w ← world;
  match MemStorage.getGame gameId (storage w) with
  | Some game => mret game
  | None => throw "Game not found"
  end.

(** *** The handlers *)

Definition handleStartGame (gameId : string) : M unit :=
  game ← getGameOrThrow gameId;
  if bool_decide (status game ≠ waiting)
  then throw "Game is not in waiting state"
  else
    store (UpdateGameStatus gameId active)
      (MemStorage.updateGameStatus gameId active) ;;
    sendGameUpdate gameId.

Definition handleEndGame (gameId : string) : M unit :=
  game ← getGameOrThrow gameId;
  if bool_decide (status game ≠ active)
  then throw "Game is not active"
  else
    store (UpdateGameStatus gameId completed)
      (MemStorage.updateGameStatus gameId completed) ;;
    sendAll gameId (game_over "The game has ended") ;;
    sendGameUpdate gameId.

Definition handleNextQuestion (gameId : string) : M unit :=
  game ← getGameOrThrow gameId;
  if bool_decide (status game ≠ active)
  then throw "Game is not active"
  else
    nextQuestion ← store (GetNextQuestion gameId)
                     (MemStorage.getNextQuestion gameId);
    match nextQuestion with
    | None =>
        store (UpdateGameStatus gameId completed)
          (MemStorage.updateGameStatus gameId completed) ;;
        sendAll gameId (game_over "All questions have been answered") ;;
        sendGameUpdate gameId
    | Some q =>
        store (UpdateCurrentQuestion gameId q)
          (MemStorage.updateCurrentQuestion gameId q) ;;
        sendGameUpdate gameId
    end.

(** The block that [checkGroupConsensus] and [handleRevealAnswer] share word
    for word: read the correct cells, look for a line, record and announce
    the bingo.  It does not read [hasBingo]. *)
Definition checkBingo (gameId : string) (group : Group) (size : nat) : M unit :=
  w ← world;
  match MemStorage.getGroupCorrectAnswers gameId (group_id group) (storage w) with
  | Throw e => throw e
  | Ok correctAnswers =>
      if size <=? length correctAnswers then
        match Utils.checkBingoPattern (fst <$> correctAnswers) size with
        | Utils.OutOfBounds => throw "TypeError"
        | Utils.Within None => mret tt
        | Utils.Within (Some pattern) =>
            store (SetGroupBingo gameId (group_id group) pattern)
              (MemStorage.setGroupBingo gameId (group_id group) pattern) ;;
            sendAll gameId
              (bingo_achieved (group_id group) (group_name group)
                 (players group) pattern size)
        end
      else mret tt
  end.

(** Errors are logged and not passed on. *)
Definition checkGroupConsensus (gameId groupId : string) : M unit :=
  tryCatch
    (w ← world;
     match MemStorage.getGame gameId (storage w) with
     | None => mret tt
     | Some game =>
         match Js.findGroup groupId game with
         | None => mret tt
         | Some group =>
             let playerAnswers :=
               MemStorage.getGroupAnswers gameId groupId (storage w) in
             match Tally.groupConsensus (answer_cellId <$> playerAnswers) with
             | None => mret tt
             | Some mostCommonAnswer =>
                 store (SetGroupAnswer gameId groupId mostCommonAnswer)
                   (MemStorage.setGroupAnswer gameId groupId mostCommonAnswer) ;;
                 checkBingo gameId group (boardSize game)
             end
         end
     end)
    (λ _, mret tt).

Definition handleSelectAnswer (gameId playerId cellId : string) : M unit :=
  if bool_decide (gameId = "") || bool_decide (playerId = "")
     || bool_decide (cellId = "")
  then throw "Invalid input: gameId, playerId, and cellId are required"
  else
    game ← getGameOrThrow gameId;
    if bool_decide (status game ≠ active)
    then throw "Game is not active"
    else
      match Js.findPlayerGroup playerId game with
      | None => throw "Player not found in any group"
      | Some playerGroup =>
          w ← world;
          store (RecordPlayerAnswer gameId playerId (group_id playerGroup) cellId)
            (MemStorage.recordPlayerAnswer gameId playerId
               (group_id playerGroup) cellId (now w)) ;;
          checkGroupConsensus gameId (group_id playerGroup) ;;
          sendGameUpdate gameId
      end.

(** The reset of the vote maps in [handleHostSelection]: every group of the
    game gets an empty map, a fresh one or its own one cleared. *)
Definition resetAnswers (gameId : string) (game : Game) (w : World) : World :=
  let ofGame := default ∅ (gameAnswers w !! gameId) in
  let ofGame' :=
    foldl (λ m group, <[group_id group := []]> m) ofGame (groups game) in
  set_gameAnswers (<[gameId := ofGame']> (gameAnswers w)) w.

(** [gameAnswers.get(gameId).get(groupId).set(playerId, cellId)], after the
    two maps were created where they were missing. *)
Definition recordVote (gameId groupId playerId cellId : string) (w : World)
    : World :=
  let ofGame := default ∅ (gameAnswers w !! gameId) in
  let ofGroup := default [] (ofGame !! groupId) in
  set_gameAnswers
    (<[gameId := <[groupId := JsMap.set playerId cellId ofGroup]> ofGame]>
       (gameAnswers w)) w.

(** [gameAnswers.get(gameId)?.get(groupId)] *)
Definition votesOf (gameId groupId : string) (w : World)
    : option (JsMap.t string string) :=
  gameAnswers w !! gameId ≫= (.!! groupId).

(** The loop of [handleHostSelection] over the players' connections. *)
Definition hostSelections (w : World) (game : Game) (cellId pos : string)
    (limit : nat) (connections : JsMap.t string nat) : list Action :=
  e ← connections;
  let '(playerId, connection) := e in
  if isOpen w connection && bool_decide (playerId ≠ "host") then
    let playerCell :=
      playerGroup ← Js.findPlayerGroup playerId game;
      find (λ c, bool_decide (position c = pos)) (board playerGroup) in
    [Sent connection
       (host_selected cellId pos limit
          (match playerCell with Some c => content c | None => "" end)
          (currentQuestion game))]
  else [].

Definition handleHostSelection (gameId cellId pos : string) (limit : nat)
    : M unit :=
  tryCatch
    (game ← getGameOrThrow gameId;
     if bool_decide (status game ≠ active)
     then throw "Game is not active"
     else
       update (resetAnswers gameId game) ;;
       w ← world;
       match gameConnections w !! gameId with
       | None => mret tt
       | Some connections =>
           emit (hostSelections w game cellId pos limit connections) ;;
           update (λ w, set_timers (timers w ++ [(gameId, cellId, pos)]) w)
       end)
    (λ _, mret tt).

(** [voterMap]: the voters of every choice, in the order of the vote map. *)
Definition votersOf (groupAnswers : JsMap.t string string) (cellId : string)
    : list string :=
  fst <$> filter (λ e, e.2 = cellId) groupAnswers.

(** [answerOptions] of [handlePlayerAnswer]. *)
Definition answerOptions (game : Game) (pos : string)
    (groupAnswers : JsMap.t string string) : list AnswerOption :=
  let cell :=
    find (λ c, bool_decide (position c = pos)) (g ← groups game; board g) in
  (λ e, mkOption e.1 pos
          (match cell with Some c => content c | None => "" end)
          e.2 (votersOf groupAnswers e.1))
  <$> Tally.countAnswers (JsMap.values groupAnswers).

Definition handlePlayerAnswer (gameId playerId cellId pos : string) : M unit :=
  tryCatch
    (game ← getGameOrThrow gameId;
     if bool_decide (status game ≠ active)
     then throw "Game is not active"
     else
       match Js.findPlayerGroup playerId game with
       | None => throw "Player not found in any group"
       | Some playerGroup =>
           update (recordVote gameId (group_id playerGroup) playerId cellId) ;;
           w ← world;
           let groupAnswers :=
             default [] (votesOf gameId (group_id playerGroup) w) in
           let options := answerOptions game pos groupAnswers in
           match gameConnections w !! gameId with
           | None => mret tt
           | Some connections =>
               emit (p ← players playerGroup;
                     match JsMap.get (player_id p) connections with
                     | Some connection =>
                         if isOpen w connection
                         then [Sent connection
                                 (player_vote None playerId cellId options)]
                         else []
                     | None => []
                     end) ;;
               emit (match JsMap.get "host" connections with
                     | Some hostConnection =>
                         if isOpen w hostConnection
                         then [Sent hostConnection
                                 (player_vote (Some (group_id playerGroup))
                                    playerId cellId options)]
                         else []
                     | None => []
                     end)
           end
       end)
    (λ _, mret tt).

(** The body of the loop of [handleRevealAnswer] for one group. *)
Definition revealGroup (gameId : string) (game : Game) (group : Group) : M unit :=
  w ← world;
  match votesOf gameId (group_id group) w with
  | None => mret tt
  | Some groupAnswers =>
      if bool_decide (length groupAnswers = 0) then mret tt
      else
        match Tally.revealConsensus (JsMap.values groupAnswers) with
        | None => mret tt
        | Some mostCommonAnswer =>
            store (RecordPlayerAnswer gameId "group" (group_id group)
                     mostCommonAnswer)
              (MemStorage.recordPlayerAnswer gameId "group" (group_id group)
                 mostCommonAnswer (now w)) ;;
            store (SetGroupAnswer gameId (group_id group) mostCommonAnswer)
              (MemStorage.setGroupAnswer gameId (group_id group)
                 mostCommonAnswer) ;;
            checkBingo gameId group (boardSize game)
        end
  end.

(** [gameAnswers.get(gameId)?.clear()] *)
Definition clearAnswers (gameId : string) (w : World) : World :=
  match gameAnswers w !! gameId with
  | Some _ => set_gameAnswers (<[gameId := ∅]> (gameAnswers w)) w
  | None => w
  end.

(** The [try] block of [handleRevealAnswer]; the cell and the position of
    the message are only logged. *)
Definition revealAnswers (gameId : string) : M unit :=
  game ← getGameOrThrow gameId;
  if bool_decide (status game ≠ active)
  then throw "Game is not active"
  else
    forEach (groups game) (revealGroup gameId game) ;;
    update (clearAnswers gameId) ;;
    sendGameUpdate gameId.

Definition handleRevealAnswer (gameId cellId pos : string) : M unit :=
  tryCatch (revealAnswers gameId) (λ _, mret tt).

(** *** The socket events *)

(** The [switch] of the message handler. *)
Definition dispatch (gameId : string) (data : ClientMessage) : M unit :=
  match data with
  | start_game => handleStartGame gameId
  | end_game => handleEndGame gameId
  | next_question => handleNextQuestion gameId
  | select_answer playerId cellId => handleSelectAnswer gameId playerId cellId
  | host_selected_cell cellId pos limit =>
      handleHostSelection gameId cellId pos limit
  | reveal_answer cellId pos => handleRevealAnswer gameId cellId pos
  | answer_select playerId cellId pos =>
      handlePlayerAnswer gameId playerId cellId pos
  | unknown _ => mret tt
  | malformed => throw "SyntaxError"
  end.

(** [ws.on('message', ...)] of the socket [ws] that was opened for [gameId]:
    whatever the handler throws is answered with an [error] on [ws]. *)
Definition onMessage (ws : nat) (gameId : string) (data : ClientMessage) : M unit :=
  tryCatch (dispatch gameId data)
    (λ _, emit [Sent ws (error "Failed to process message")]).

(** [handleWebSocketConnection] for a path that names the game and, for a
    player, the player; the host registers under ["host"]. *)
Definition onConnection (ws : nat) (gameId : string) (playerId : option string)
    : M unit :=
  update (λ w,
    let connections := default [] (gameConnections w !! gameId) in
    set_gameConnections
      (<[gameId := JsMap.set (default "host" playerId) ws connections]>
         (gameConnections w)) w) ;;
  sendGameUpdate gameId.

(** [ws.on('close', ...)] *)
Definition onClose (gameId : string) (playerId : option string) : M unit :=
  update (λ w,
    match gameConnections w !! gameId with
    | None => w
    | Some connections =>
        let connections' := JsMap.delete (default "host" playerId) connections in
        set_gameConnections
          (if bool_decide (length connections' = 0)
           then delete gameId (gameConnections w)
           else <[gameId := connections']> (gameConnections w)) w
    end).

(** What can happen to the coordinator: a socket connects (it is open
    then), sends a message or closes; a timer fires; a socket changes its
    state; the clock advances. *)
Inductive Event : Type :=
| Connection (ws : nat) (gameId : string) (playerId : option string)
| Message (ws : nat) (gameId : string) (data : ClientMessage)
| Close (ws : nat) (gameId : string) (playerId : option string)
| Timeout (k : nat)
| SocketState (ws : nat) (s : ReadyState)
| Clock (t : nat).

Definition handler (e : Event) : M unit :=
  match e with
  | Connection ws gameId playerId =>
      update (λ w, set_readyState (<[ws := OPEN]> (readyState w)) w) ;;
      onConnection ws gameId playerId
  | Message ws gameId data => onMessage ws gameId data
  | Close ws gameId playerId =>
      update (λ w, set_readyState (<[ws := CLOSED]> (readyState w)) w) ;;
      onClose gameId playerId
  | Timeout k =>
      w ← world;
      match timers w !! k with
      | Some (gameId, cellId, pos) =>
          update (λ w, set_timers (delete k (timers w)) w) ;;
          handleRevealAnswer gameId cellId pos
      | None => mret tt
      end
  | SocketState ws s =>
      update (λ w, set_readyState (<[ws := s]> (readyState w)) w)
  | Clock t => update (set_now t)
  end.

(** One event, and a sequence of events, from a world.  An event is handled
    to its end before the next one starts: [run] is the server when no two
    handlers overlap.  A handler of the source gives way at each [await], so
    handlers of events that arrive together may interleave there; what is
    proved of [run] is proved of the serial schedules only, and what is
    proved of one handler from the world that it starts in holds of it
    alone. *)
Definition step (e : Event) (w : World) : World * list Action :=
  let '(_, w', trace) := handler e w in (w', trace).

Definition run (events : list Event) (w : World) : World * list Action :=
  foldl (λ '(w, trace) e, let '(w', t) := step e w in (w', trace ++ t))
    (w, []) events.

(** *** Observations *)

(** The messages of a trace that went to the socket [ws]. *)
Definition sentTo (ws : nat) (trace : list Action) : list ServerMessage :=
  omap (λ a, match a with
             | Sent ws' msg => if bool_decide (ws' = ws) then Some msg else None
             | Stored _ => None
             end) trace.


(** No vote is in flight for the game: every vote map of the game is
    missing or empty. *)
Definition noVotes (gameId : string) (w : World) : Prop :=
  ∀ groupId groupAnswers,
    votesOf gameId groupId w = Some groupAnswers → groupAnswers = [].

Definition isGameUpdate (a : Action) : bool :=
  match a with
  | Sent _ (game_update_host _) | Sent _ (game_update_player _) => true
  | _ => false
  end.

(** The game with the board of every group [g] replaced by [f g]. *)
Definition withBoards (f : Group → list BoardCell) (game : Game) : Game :=
  set_groups ((λ g, set_board (f g) g) <$> groups game) game.

(** The world with another game stored under [gameId]. *)
Definition withGame (gameId : string) (game : Game) (w : World) : World :=
  set_storage (MemStorage.putGame gameId game (storage w)) w.

(** A handler satisfies a property of runs: of the world before, the world
    after and the trace. *)
Definition satisfies {A} (P : World → World → list Action → Prop) (m : M A)
    : Prop :=
  ∀ w, P w (m w).1.2 (m w).2.

(** A handler that never throws. *)
Definition total {A} (m : M A) : Prop :=
  ∀ w, ∃ a, (m w).1.1 = Ok a.

(** A handler that, when it throws, has done nothing before. *)
Definition clean {A} (m : M A) : Prop :=
  ∀ w e, (m w).1.1 = Throw e → (m w).1.2 = w ∧ (m w).2 = [].

Definition isError (a : Action) : bool :=
  match a with
  | Sent _ (error _) => true
  | _ => false
  end.

(** No [error] is sent in the run. *)
Definition noError (_ _ : World) (trace : list Action) : Prop :=
  ∀ a, a ∈ trace → isError a = false.

(** No group of a stored game loses its bingo in the run. *)
Definition bingoKept (w w' : World) (_ : list Action) : Prop :=
  MemStorage.keepsBingo (storage w) (storage w').

(** The action records or announces a bingo of the group. *)
Definition bingoFor (groupId : string) (a : Action) : bool :=
  match a with
  | Stored (SetGroupBingo _ g _) => bool_decide (g = groupId)
  | Sent _ (bingo_achieved g _ _ _ _) => bool_decide (g = groupId)
  | _ => false
  end.

(** The action is a completed [setGroupAnswer] for the group. *)
Definition answerFor (groupId : string) (a : Action) : bool :=
  match a with
  | Stored (SetGroupAnswer _ g _) => bool_decide (g = groupId)
  | _ => false
  end.

(** In the trace every bingo of a group comes after a recorded consensus
    answer of that group. *)
Definition afterAnswer (trace : list Action) : Prop :=
  ∀ before a after groupId,
    trace = before ++ a :: after → bingoFor groupId a = true →
    ∃ a', a' ∈ before ∧ answerFor groupId a' = true.

Definition bingoAfterAnswer (_ _ : World) (trace : list Action) : Prop :=
  afterAnswer trace.

End Coordinator.

(** ** A game to run the handlers on

    One active game on a board of three: group A with four players and the
    top row already correct, group B with one player; two questions, the
    first one current.  The host and six players are connected, one of them
    (["px"]) a member of no group. *)

Module Scenario.

Import Coordinator.

Definition cell (pos text questionText : string) (isCorrect : bool) : BoardCell :=
  mkCell pos text questionText isCorrect.

Definition boardA : list BoardCell :=
  [ cell "A1" "Paris" "Capital of France?" true;
    cell "A2" "Rome" "Capital of Italy?" true;
    cell "A3" "Bern" "Capital of Switzerland?" true;
    cell "B1" "Oslo" "Capital of Norway?" false;
    cell "B2" "Wien" "Capital of Austria?" false;
    cell "B3" "Riga" "Capital of Latvia?" false;
    cell "C1" "Kyiv" "Capital of Ukraine?" false;
    cell "C2" "Baku" "Capital of Azerbaijan?" false;
    cell "C3" "Doha" "Capital of Qatar?" false ].

Definition boardB : list BoardCell :=
  (λ c, set_correct false c) <$> boardA.

Definition groupA (bingo : bool) : Group :=
  mkGroup "grpA" "Group 1"
    [mkPlayer "p1" "Ann"; mkPlayer "p2" "Bob"; mkPlayer "p3" "Cid";
     mkPlayer "p5" "Eve"]
    boardA bingo (if bingo then Some ["A1"; "A2"; "A3"] else None).

Definition groupB : Group :=
  mkGroup "grpB" "Group 2" [mkPlayer "p4" "Dan"] boardB false None.

Definition theQuestions (secondUsed : bool) : list Question :=
  [ mkQuestion "q1" "Capital of Norway?" "Oslo" true;
    mkQuestion "q2" "Capital of Austria?" "Wien" secondUsed ].

Definition game (bingo secondUsed : bool) : Game :=
  mkGame "g1" "Capitals" 7 3 "medium" 30 2 active "2025-01-01T00:00:00.000Z"
    (theQuestions secondUsed)
    (Some (mkCurrent "q1" "Capital of Norway?" 30))
    [groupA bingo; groupB].

Definition connections : JsMap.t string nat :=
  [("host", 1); ("p1", 2); ("p2", 3); ("p4", 4); ("px", 5); ("p3", 6);
   ("p5", 7)].

Definition sockets : gmap nat ReadyState :=
  list_to_map
    [(1, OPEN); (2, OPEN); (3, OPEN); (4, OPEN); (5, OPEN); (6, OPEN); (7, OPEN)].

Definition world (bingo secondUsed : bool) : World :=
  mkWorld (MemStorage.mk {["g1" := game bingo secondUsed]} ∅)
    {["g1" := connections]} ∅ sockets [] 1000.

(** The same game in the tables of the database, before any vote; texts
    are ordered as strings. *)
Definition before : string → string → bool := Stdlib.Strings.String.ltb.

Definition cellRows (groupId : string) (board : list BoardCell)
    : list DatabaseStorage.BoardCellRow :=
  (λ c, DatabaseStorage.mkCellRow (groupId ++ "/" ++ position c) groupId
          (position c) (content c) (answer c) (correct c)) <$> board.

Definition database : DatabaseStorage.t :=
  DatabaseStorage.mk
    [DatabaseStorage.mkGameRow "g1" active 30 None]
    [ DatabaseStorage.mkQuestionRow "q1" "g1" "Capital of Norway?" "Oslo" true;
      DatabaseStorage.mkQuestionRow "q2" "g1" "Capital of Austria?" "Wien" false ]
    [ DatabaseStorage.mkGroupRow "grpA" "g1" "Group 1" true
        (Some ["A1"; "A2"; "A3"]);
      DatabaseStorage.mkGroupRow "grpB" "g1" "Group 2" false None ]
    (cellRows "grpA" boardA ++ cellRows "grpB" boardB)
    [] 1.

End Scenario.

(** ** A round in flight *)

Module Round.

Import Coordinator.

(** No player of the game has the id ["group"], under which
    [handleRevealAnswer] records the answer of a group.  The ids of the
    players are the ones [randomUUID()] returned. *)
Definition noProxy (gameId : string) (w : World) : Prop :=
  ∀ game group,
    MemStorage.getGame gameId (storage w) = Some game →
    group ∈ groups game → Js.isMember "group" group = false.

(** The host selects the cell B1 and Ann ([p1]) of group A votes for it. *)
Definition voted (w : World) : World :=
  (run [Message 1 "g1" (host_selected_cell "cell-B1" "B1" 30);
        Message 2 "g1" (answer_select "p1" "cell-B1" "B1")] w).1.

(** The game of [Scenario] with one more player in every group, whose id is
    ["group"]. *)
Definition proxied : World :=
  withGame "g1"
    (set_groups
       ((λ g, set_players (players g ++ [mkPlayer "group" "Proxy"]) g)
        <$> groups (Scenario.game false false))
       (Scenario.game false false))
    (Scenario.world false false).

End Round.

(** ** The foreign keys of [playerAnswers]

    [DatabaseStorage] leaves the [players] table and the references between
    the tables out.  Here the table is added, and [recordPlayerAnswer]
    writes only what the schema of src/unnamed/part_014 accepts: the row it
    inserts names a game, a player and a group that exist, the row it
    updates a group that exists.  (The question of the row is the current
    one, which exists.)

    A [select] without [ORDER BY] leaves the order of its rows to the
    database, and an [update] may move a row: what is said of such a result
    here is said of every order of its rows. *)

Module Referential.

Record PlayerRow : Type := mkPlayerRow {
  players_id : string;
  players_groupId : string;
  players_name : string }.

Record t : Type := mk {
  tables : DatabaseStorage.t;
  players : list PlayerRow }.

(** Some row has the key. *)
Definition known {A} (key : A → string) (rows : list A) (id : string) : bool :=
  bool_decide (id ∈ key <$> rows).


Section Collation.

Variable before : string → string → bool.

Definition recordPlayerAnswer (gameId playerId groupId cellId : string)
    (time : nat) (db : t) : result (unit * t) :=
  match DatabaseStorage.recordPlayerAnswer before gameId playerId groupId
          cellId time (tables db) with
  | Throw e => Throw e
  | Ok (_, tables') =>
      let existing :=
        match DatabaseStorage.currentQuestion before gameId (tables db) with
        | Some current =>
            DatabaseStorage.answersOfPlayer gameId
              (DatabaseStorage.questions_id current) playerId (tables db)
        | None => []
        end in
      let accepted :=
        match existing with
        | _ :: _ =>
            known DatabaseStorage.groups_id
              (DatabaseStorage.groups (tables db)) groupId
        | [] =>
            known DatabaseStorage.games_id
              (DatabaseStorage.games (tables db)) gameId
            && known players_id (players db) playerId
            && known DatabaseStorage.groups_id
                 (DatabaseStorage.groups (tables db)) groupId
        end in
      if accepted then Ok (tt, mk tables' (players db))
      else Throw "violates foreign key constraint"
  end.

(** A sequence of votes of one group, each with the time of its call; a call
    that throws leaves the database as it is. *)
Definition recordAll (gameId groupId : string)
    (votes : list (string * string * nat)) (db : t) : t :=
  foldl (λ db v,
           match recordPlayerAnswer gameId v.1.1 groupId v.1.2 v.2 db with
           | Ok (_, db') => db'
           | Throw _ => db
           end) db votes.

End Collation.


End Referential.

(** ** The handlers over a storage that can fail

    The handlers reach the storage through the interface [IStorage] of
    src/server/routes.ts.  Here the four handlers whose errors the message
    handler reports ([start_game], [end_game], [next_question],
    [select_answer]) run over any implementation of the methods they call:
    a state [S] and, for every method, a function from the state to what the
    method returns (and the state after it, for a method that writes), or to
    what it throws.  A method
    may throw whenever it is called, as a statement of [DatabaseStorage] does
    when the database is away.  A method that throws leaves the state as it
    is: the methods of [MemStorage] throw before they assign, those of
    [DatabaseStorage] write with their last statement.

    The sockets and the clock are those of a world [w], which these handlers
    do not change. *)

Module Failing.

Import Coordinator.

Record IStorage (S : Type) : Type := {
  getGame : string → S → result (option Game);
  updateGameStatus : string → Status → S → result (unit * S);
  getNextQuestion : string → S → result (option CurrentQuestion * S);
  updateCurrentQuestion : string → CurrentQuestion → S → result (unit * S);
  recordPlayerAnswer :
    string → string → string → string → nat → S → result (unit * S);
  getGroupAnswers : string → string → S → result (list PlayerAnswer);
  setGroupAnswer : string → string → string → S → result (unit * S);
  getGroupCorrectAnswers : string → string → S → result (list (string * string));
  setGroupBingo : string → string → list string → S → result (unit * S) }.

Arguments getGame {S}.
Arguments updateGameStatus {S}.
Arguments getNextQuestion {S}.
Arguments updateCurrentQuestion {S}.
Arguments recordPlayerAnswer {S}.
Arguments getGroupAnswers {S}.
Arguments setGroupAnswer {S}.
Arguments getGroupCorrectAnswers {S}.
Arguments setGroupBingo {S}.

(** The state, exceptions and the trace. *)
Definition F (S A : Type) : Type := S → result A * S * list Action.

#[export] Instance F_ret {S} : MRet (F S) := λ A a s, (Ok a, s, []).

#[export] Instance F_bind {S} : MBind (F S) := λ A B k m s,
  match m s with
  | (Ok a, s', trace) =>
      match k a s' with
      | (r, s'', trace') => (r, s'', trace ++ trace')
      end
  | (Throw e, s', trace) => (Throw e, s', trace)
  end.

Definition throw {S A} (message : string) : F S A := λ s, (Throw message, s, []).

Definition tryCatch {S A} (body : F S A) (handler : string → F S A) : F S A :=
  λ s,
    match body s with
    | (Ok a, s', trace) => (Ok a, s', trace)
    | (Throw e, s', trace) =>
        match handler e s' with
        | (r, s'', trace') => (r, s'', trace ++ trace')
        end
    end.

Definition emit {S} (trace : list Action) : F S unit := λ s, (Ok tt, s, trace).

(** A call of a method that reads. *)
Definition read {S A} (method : S → result A) : F S A := λ s,
  match method s with
  | Ok a => (Ok a, s, [])
  | Throw e => (Throw e, s, [])
  end.

(** A call of a method that assigns: the call is recorded when it returns. *)
Definition call {S A} (c : StorageCall) (method : S → result (A * S)) : F S A :=
  λ s,
    match method s with
    | Ok (a, s') => (Ok a, s', [Stored c])
    | Throw e => (Throw e, s, [])
    end.

Section Handlers.

Context {S : Type}.
Variable I : IStorage S.
Variable w : World.

(** [sendGameUpdate]: its own [try] and [catch], which only logs.  The
    messages are those for the game that [getGame] returned. *)
Definition sendGameUpdate (gameId : string) : F S unit :=
  tryCatch
    (game ← read (getGame I gameId);
     match game with
     | None => mret tt
     | Some game => emit (gameUpdates (withGame gameId game w) gameId)
     end)
    (λ _, mret tt).

Definition sendAll (gameId : string) (msg : ServerMessage) : F S unit :=
  emit (broadcast w gameId msg).

Definition getGameOrThrow (gameId : string) : F S Game :=
  game ← read (getGame I gameId);
  match game with
  | Some game => mret game
  | None => throw "Game not found"
  end.

Definition handleStartGame (gameId : string) : F S unit :=
  game ← getGameOrThrow gameId;
  if bool_decide (status game ≠ waiting)
  then throw "Game is not in waiting state"
  else
    call (UpdateGameStatus gameId active) (updateGameStatus I gameId active) ;;
    sendGameUpdate gameId.

Definition handleEndGame (gameId : string) : F S unit :=
  game ← getGameOrThrow gameId;
  if bool_decide (status game ≠ active)
  then throw "Game is not active"
  else
    call (UpdateGameStatus gameId completed)
      (updateGameStatus I gameId completed) ;;
    sendAll gameId (game_over "The game has ended") ;;
    sendGameUpdate gameId.

Definition handleNextQuestion (gameId : string) : F S unit :=
  game ← getGameOrThrow gameId;
  if bool_decide (status game ≠ active)
  then throw "Game is not active"
  else
    nextQuestion ← call (GetNextQuestion gameId) (getNextQuestion I gameId);
    match nextQuestion with
    | None =>
        call (UpdateGameStatus gameId completed)
          (updateGameStatus I gameId completed) ;;
        sendAll gameId (game_over "All questions have been answered") ;;
        sendGameUpdate gameId
    | Some q =>
        call (UpdateCurrentQuestion gameId q)
          (updateCurrentQuestion I gameId q) ;;
        sendGameUpdate gameId
    end.

Definition checkBingo (gameId : string) (group : Group) (size : nat) : F S unit :=
  correctAnswers ← read (getGroupCorrectAnswers I gameId (group_id group));
  if size <=? length correctAnswers then
    match Utils.checkBingoPattern (fst <$> correctAnswers) size with
    | Utils.OutOfBounds => throw "TypeError"
    | Utils.Within None => mret tt
    | Utils.Within (Some pattern) =>
        call (SetGroupBingo gameId (group_id group) pattern)
          (setGroupBingo I gameId (group_id group) pattern) ;;
        sendAll gameId
          (bingo_achieved (group_id group) (group_name group)
             (players group) pattern size)
    end
  else mret tt.

(** Errors are logged and not passed on. *)
Definition checkGroupConsensus (gameId groupId : string) : F S unit :=
  tryCatch
    (game ← read (getGame I gameId);
     match game with
     | None => mret tt
     | Some game =>
         match Js.findGroup groupId game with
         | None => mret tt
         | Some group =>
             playerAnswers ← read (getGroupAnswers I gameId groupId);
             match Tally.groupConsensus (answer_cellId <$> playerAnswers) with
             | None => mret tt
             | Some mostCommonAnswer =>
                 call (SetGroupAnswer gameId groupId mostCommonAnswer)
                   (setGroupAnswer I gameId groupId mostCommonAnswer) ;;
                 checkBingo gameId group (boardSize game)
             end
         end
     end)
    (λ _, mret tt).

Definition handleSelectAnswer (gameId playerId cellId : string) : F S unit :=
  if bool_decide (gameId = "") || bool_decide (playerId = "")
     || bool_decide (cellId = "")
  then throw "Invalid input: gameId, playerId, and cellId are required"
  else
    game ← getGameOrThrow gameId;
    if bool_decide (status game ≠ active)
    then throw "Game is not active"
    else
      match Js.findPlayerGroup playerId game with
      | None => throw "Player not found in any group"
      | Some playerGroup =>
          call (RecordPlayerAnswer gameId playerId (group_id playerGroup) cellId)
            (recordPlayerAnswer I gameId playerId (group_id playerGroup)
               cellId (now w)) ;;
          checkGroupConsensus gameId (group_id playerGroup) ;;
          sendGameUpdate gameId
      end.

(** The [catch] of the message handler of the socket [ws]. *)
Definition onMessage (ws : nat) (handler : F S unit) : F S unit :=
  tryCatch handler (λ _, emit [Sent ws (error "Failed to process message")]).


End Handlers.

(** *** Two implementations *)

(** [MemStorage]. *)
Definition memStorage : IStorage MemStorage.t := {|
  getGame := λ gameId st, Ok (MemStorage.getGame gameId st);
  updateGameStatus := MemStorage.updateGameStatus;
  getNextQuestion := MemStorage.getNextQuestion;
  updateCurrentQuestion := MemStorage.updateCurrentQuestion;
  recordPlayerAnswer := MemStorage.recordPlayerAnswer;
  getGroupAnswers := λ gameId groupId st,
    Ok (MemStorage.getGroupAnswers gameId groupId st);
  setGroupAnswer := MemStorage.setGroupAnswer;
  getGroupCorrectAnswers := MemStorage.getGroupCorrectAnswers;
  setGroupBingo := MemStorage.setGroupBingo |}.




(** What a handler over [MemStorage] gives, as a result of the coordinator
    in the world [w]. *)
Definition inWorld {A} (w : World)
    (run : result A * MemStorage.t * list Action)
    : result A * World * list Action :=
  (run.1.1, set_storage run.1.2 w, run.2).

End Failing.

From Stdlib Require DecimalNat.

(** ** The random helpers of the client utilities (src/client/src/index.css)

    [Math.random()] is not computed: a function that draws takes the drawn
    numbers as an argument.  For [shuffleArray], [j i] is the value of
    [Math.floor(Math.random() * (i + 1))] in the round of the loop with index
    [i]; for [generateId], [k i] is the value of
    [Math.floor(Math.random() * chars.length)] in round [i]. *)

Module Random.

(** [[arr[i], arr[j]] = [arr[j], arr[i]]] for two indices within the array;
    outside of it the array is left as it is, which is not what JavaScript
    does there: the draws of [shuffleArray] are never outside. *)
Definition swap {A} (i j : nat) (arr : list A) : list A :=
  match arr !! i, arr !! j with
  | Some x, Some y => <[j := x]> (<[i := y]> arr)
  | _, _ => arr
  end.

(** The loop of [shuffleArray], from index [i] down to 1. *)
Fixpoint shuffleFrom {A} (j : nat → nat) (i : nat) (newArray : list A) : list A :=
  match i with
  | 0 => newArray
  | S i' => shuffleFrom j i' (swap i (j i) newArray)
  end.

(** [shuffleArray(array)]: the copy is shuffled, the argument is not
    touched. *)
Definition shuffleArray {A} (j : nat → nat) (array : list A) : list A :=
  shuffleFrom j (length array - 1) array.

(** [chars.charAt(k)]: the empty string past the end. *)
Definition charAt (k : nat) (chars : string) : string :=
  match String.get k chars with
  | Some c => String c EmptyString
  | None => EmptyString
  end.

Definition chars : string :=
  "ABCDEFGHIJKLMNOPQRSTUVWXYZabcdefghijklmnopqrstuvwxyz0123456789".

(** The loop of [generateId], from round [i] on, for [n] more rounds. *)
Fixpoint generateFrom (k : nat → nat) (i n : nat) (result : string) : string :=
  match n with
  | 0 => result
  | S n' => generateFrom k (S i) n' (result +:+ charAt (k i) chars)
  end.

(** [generateId(length)] *)
Definition generateId (k : nat → nat) (length : nat) : string :=
  generateFrom k 0 length EmptyString.

(** A letter or a digit of ASCII. *)
Definition isAlphaNumeric (c : ascii) : bool :=
  let n := nat_of_ascii c in
  ((65 <=? n) && (n <=? 90)) || ((97 <=? n) && (n <=? 122))
  || ((48 <=? n) && (n <=? 57)).

End Random.

(** ** More of [MemStorage] (src/server/routes.ts)

    [createGame] draws its ids with [randomUUID()] and shuffles the
    questions for every group: [uuid k] is the value of the call number [k]
    of [randomUUID()] within [createGame] (the game first, then the
    questions in order, then the groups in order), [draw i] are the draws of
    [shuffleArray] for the group of index [i], and [createdAt] is the text
    of [new Date().toISOString()]. *)

Module MemStorageMore.

Import Utils Random.

(** The argument of [createGame]. *)
Record GameData : Type := mkData {
  data_name : string;
  data_creatorId : nat;
  data_boardSize : nat;
  data_cellSize : string;
  data_answerTime : nat;
  data_groupCount : nat;
  data_questions : list (string * string) }.

(** [data.questions.map(q => ({ id: randomUUID(), ..., used: false }))] *)
Definition newQuestions (uuid : nat → string) (qs : list (string * string))
    : list Question :=
  imap (λ k q, mkQuestion (uuid (1 + k)) q.1 q.2 false) qs.

(** [positions.map((position, index) => ...)] from [index] on:
    [shuffledQuestions[index % shuffledQuestions.length]] is [undefined] for
    an empty array of questions, and reading its [answer] throws. *)
Fixpoint newCells (index : nat) (positions : list string)
    (shuffledQuestions : list Question) : result (list BoardCell) :=
  match positions with
  | [] => Ok []
  | position :: rest =>
      match shuffledQuestions !! (index `mod` length shuffledQuestions) with
      | None => Throw "TypeError: Cannot read properties of undefined"
      | Some q =>
          match newCells (S index) rest shuffledQuestions with
          | Ok cells =>
              Ok (mkCell position (question_answer q) (question q) false :: cells)
          | Throw e => Throw e
          end
      end
  end.

(** The loop over the groups, from the group of index [i] on, for [count]
    more groups; [first] is the number of the [randomUUID()] call of the
    group of index 0. *)
Fixpoint newGroups (uuid : nat → string) (draw : nat → nat → nat)
    (boardSize : nat) (questions : list Question) (first i count : nat)
    : result (list Group) :=
  match count with
  | 0 => Ok []
  | S count' =>
      let positions := createPositionGrid boardSize in
      let shuffledQuestions := shuffleArray (draw i) questions in
      match newCells 0 positions shuffledQuestions with
      | Throw e => Throw e
      | Ok board =>
          match newGroups uuid draw boardSize questions first (S i) count' with
          | Throw e => Throw e
          | Ok groups =>
              Ok (mkGroup (uuid (first + i)) ("Group " +:+ numToString (i + 1))
                    [] board false None :: groups)
          end
      end
  end.

Definition createGame (data : GameData) (uuid : nat → string)
    (draw : nat → nat → nat) (createdAt : string) (st : MemStorage.t)
    : result (Game * MemStorage.t) :=
  let id := uuid 0 in
  let questions := newQuestions uuid (data_questions data) in
  match newGroups uuid draw (data_boardSize data) questions
          (1 + length questions) 0 (data_groupCount data) with
  | Throw e => Throw e
  | Ok groups =>
      let game :=
        mkGame id (data_name data) (data_creatorId data) (data_boardSize data)
          (data_cellSize data) (data_answerTime data) (data_groupCount data)
          waiting createdAt questions None groups in
      Ok (game, MemStorage.putGame id game st)
  end.

(** *** Observations *)

(** The body of the loop of [addPlayerToGame] that looks for the group with
    the fewest players. *)
Definition smaller (best group : Group) : Group :=
  if length (players group) <? length (players best) then group else best.

(** The sizes of the groups differ by one at most. *)
Definition balanced (groups : list Group) : Prop :=
  ∀ g g', g ∈ groups → g' ∈ groups →
          length (players g) ≤ length (players g') + 1.

(** [getNextQuestion] called up to [n] times in a row, until it returns
    [null] or throws: the questions it returned, and the storage after. *)
Fixpoint serve (n : nat) (gameId : string) (st : MemStorage.t)
    : list CurrentQuestion * MemStorage.t :=
  match n with
  | 0 => ([], st)
  | S n' =>
      match MemStorage.getNextQuestion gameId st with
      | Ok (Some q, st') =>
          let '(served, st'') := serve n' gameId st' in (q :: served, st'')
      | _ => ([], st)
      end
  end.

(** The question as [getNextQuestion] hands it out. *)
Definition asCurrent (game : Game) (q : Question) : CurrentQuestion :=
  mkCurrent (question_id q) (question q) (answerTime game).

End MemStorageMore.

(** ** A game to create and to join *)

Module Lobby.

Import MemStorageMore.

Definition data : GameData :=
  mkData "Capitals" 7 3 "medium" 30 2
    [ ("Capital of France?", "Paris"); ("Capital of Italy?", "Rome");
      ("Capital of Switzerland?", "Bern"); ("Capital of Norway?", "Oslo");
      ("Capital of Austria?", "Wien"); ("Capital of Latvia?", "Riga");
      ("Capital of Ukraine?", "Kyiv"); ("Capital of Azerbaijan?", "Baku");
      ("Capital of Qatar?", "Doha"); ("Capital of Peru?", "Lima") ].

Definition uuid (k : nat) : string := "id-" +:+ Utils.numToString k.

Definition draw (i k : nat) : nat := k / (i + 2).

Definition empty : MemStorage.t := MemStorage.mk ∅ ∅.

(** The game of [Scenario] before it was started. *)
Definition waitingRoom : MemStorage.t :=
  MemStorage.putGame "g1" (set_status waiting (Scenario.game false false)) empty.

End Lobby.

(** ** What the coordinator keeps *)

Module Invariants.

Import Coordinator.

(** A handler has a property of runs when it is run from the world [w]. *)
Definition holds {A} (P : World → World → list Action → Prop) (m : M A)
    (w : World) : Prop :=
  P w (m w).1.2 (m w).2.

(** The socket is registered for the game and open. *)
Definition registeredOpen (w : World) (gameId : string) (ws : nat) : Prop :=
  ∃ connections playerId,
    gameConnections w !! gameId = Some connections
    ∧ (playerId, ws) ∈ connections ∧ isOpen w ws = true.

(** The run leaves the registry and the sockets as they are, and sends only
    to open sockets that are registered for the game. *)
Definition routed (gameId : string) (w w' : World) (trace : list Action) : Prop :=
  gameConnections w' = gameConnections w
  ∧ readyState w' = readyState w
  ∧ ∀ ws msg, Sent ws msg ∈ trace → registeredOpen w gameId ws.

(** The run leaves the other games as they are: what is stored of them and
    their votes in flight. *)
Definition confined (gameId : string) (w w' : World) (_ : list Action) : Prop :=
  ∀ gameId', gameId' ≠ gameId →
    MemStorage.getGame gameId' (storage w') = MemStorage.getGame gameId' (storage w)
    ∧ gameAnswers w' !! gameId' = gameAnswers w !! gameId'.

(** The order of the life cycle. *)
Definition rank (s : Status) : nat :=
  match s with waiting => 0 | active => 1 | completed => 2 end.

(** A cell keeps everything but its mark. *)
Definition cellKept (c c' : BoardCell) : Prop :=
  position c = position c' ∧ content c = content c' ∧ answer c = answer c'.

(** A group keeps its id, its name, its players and its cells. *)
Definition membersKept (g g' : Group) : Prop :=
  group_id g = group_id g' ∧ group_name g = group_name g'
  ∧ players g = players g' ∧ Forall2 cellKept (board g) (board g').

(** A question keeps its id and its texts, and stays used. *)
Definition questionKept (q q' : Question) : Prop :=
  question_id q = question_id q' ∧ question q = question q'
  ∧ question_answer q = question_answer q'
  ∧ (used q = true → used q' = true).

(** A game keeps its id and its settings; its status moves forward only; its
    questions and groups are kept; a current question stays set. *)
Definition gameKept (g g' : Game) : Prop :=
  game_id g = game_id g' ∧ game_name g = game_name g'
  ∧ creatorId g = creatorId g' ∧ boardSize g = boardSize g'
  ∧ cellSize g = cellSize g' ∧ answerTime g = answerTime g'
  ∧ groupCount g = groupCount g' ∧ createdAt g = createdAt g'
  ∧ rank (status g) ≤ rank (status g')
  ∧ (is_Some (currentQuestion g) → is_Some (currentQuestion g'))
  ∧ Forall2 questionKept (questions g) (questions g')
  ∧ Forall2 membersKept (groups g) (groups g').

Definition gamesKept (st st' : MemStorage.t) : Prop :=
  ∀ gameId game,
    MemStorage.getGame gameId st = Some game →
    ∃ game', MemStorage.getGame gameId st' = Some game' ∧ gameKept game game'.

Definition kept (w w' : World) (_ : list Action) : Prop :=
  gamesKept (storage w) (storage w').

End Invariants.

(** ** The REST controllers of src/server/controllers/game.ts

    A controller gets [req.user?.id], the game id of the path and the fields
    of the body that it reads (a text, or nothing when the field is absent)
    and returns its response; what it sends over the sockets is in the
    trace.  The storage is [MemStorage]. *)

Module Rest.

Import Coordinator.

(** What [res.json] is given. *)
Inductive Body : Type :=
| JsonMessage (message : string)
| JsonGame (game : Game)
| JsonPlayerGame (game : PlayerView)
| JsonCurrentQuestion (currentQuestion : CurrentQuestion)
| JsonJoined (playerId groupId groupName : string).

Record Response : Type := mkResponse {
  statusCode : nat;
  json : Body }.

(** The [catch] of every controller. *)
Definition internalError (_ : string) : M Response :=
  mret (mkResponse 500 (JsonMessage "Internal server error")).

(** [if (!userId)]: no user, or the id 0. *)
Definition userOf (user : option nat) : option nat :=
  match user with
  | Some (S n) => Some (S n)
  | _ => None
  end.

(** [if (!field)]: no field, or the empty text. *)
Definition fieldOf (field : option string) : option string :=
  match field with
  | Some s => if bool_decide (s = "") then None else Some s
  | None => None
  end.

Definition getGameForHost (user : option nat) (gameId : string) : M Response :=
  tryCatch
    (match userOf user with
     | None => mret (mkResponse 401 (JsonMessage "Not authenticated"))
     | Some userId =>
         w ← world;
         match MemStorage.getGame gameId (storage w) with
         | None => mret (mkResponse 404 (JsonMessage "Game not found"))
         | Some game =>
             if bool_decide (creatorId game ≠ userId)
             then mret (mkResponse 403
                          (JsonMessage "Not authorized to host this game"))
             else mret (mkResponse 200 (JsonGame game))
         end
     end)
    internalError.

Definition getGameForPlayer (gameId playerId : string) : M Response :=
  tryCatch
    (w ← world;
     match MemStorage.getGame gameId (storage w) with
     | None => mret (mkResponse 404 (JsonMessage "Game not found"))
     | Some game =>
         match Js.findPlayerGroup playerId game with
         | None =>
             mret (mkResponse 404 (JsonMessage "Player not found in this game"))
         | Some playerGroup =>
             mret (mkResponse 200
                     (JsonPlayerGame
                        (mkPlayerView (game_id game) (game_name game)
                           (status game) (boardSize game) (cellSize game)
                           (currentQuestion game) playerGroup)))
         end
     end)
    internalError.

Definition startGame (user : option nat) (gameId : string) : M Response :=
  tryCatch
    (match userOf user with
     | None => mret (mkResponse 401 (JsonMessage "Not authenticated"))
     | Some userId =>
         w ← world;
         match MemStorage.getGame gameId (storage w) with
         | None => mret (mkResponse 404 (JsonMessage "Game not found"))
         | Some game =>
             if bool_decide (creatorId game ≠ userId)
             then mret (mkResponse 403
                          (JsonMessage "Not authorized to start this game"))
             else if bool_decide (status game ≠ waiting)
             then mret (mkResponse 400
                          (JsonMessage "Game has already started or ended"))
             else
               store (UpdateGameStatus gameId active)
                 (MemStorage.updateGameStatus gameId active) ;;
               sendGameUpdate gameId ;;
               mret (mkResponse 200 (JsonMessage "Game started successfully"))
         end
     end)
    internalError.

(** [sendGameUpdate] is called without [await] before the [game_over] loop:
    the loop runs first, as in [handleEndGame]. *)
Definition endGame (user : option nat) (gameId : string) : M Response :=
  tryCatch
    (match userOf user with
     | None => mret (mkResponse 401 (JsonMessage "Not authenticated"))
     | Some userId =>
         w ← world;
         match MemStorage.getGame gameId (storage w) with
         | None => mret (mkResponse 404 (JsonMessage "Game not found"))
         | Some game =>
             if bool_decide (creatorId game ≠ userId)
             then mret (mkResponse 403
                          (JsonMessage "Not authorized to end this game"))
             else if bool_decide (status game ≠ active)
             then mret (mkResponse 400 (JsonMessage "Game is not active"))
             else
               store (UpdateGameStatus gameId completed)
                 (MemStorage.updateGameStatus gameId completed) ;;
               sendAll gameId (game_over "The game has been ended by the host") ;;
               sendGameUpdate gameId ;;
               mret (mkResponse 200 (JsonMessage "Game ended successfully"))
         end
     end)
    internalError.

Definition nextQuestion (user : option nat) (gameId : string) : M Response :=
  tryCatch
    (match userOf user with
     | None => mret (mkResponse 401 (JsonMessage "Not authenticated"))
     | Some userId =>
         w ← world;
         match MemStorage.getGame gameId (storage w) with
         | None => mret (mkResponse 404 (JsonMessage "Game not found"))
         | Some game =>
             if bool_decide (creatorId game ≠ userId)
             then mret (mkResponse 403
                          (JsonMessage "Not authorized to control this game"))
             else if bool_decide (status game ≠ active)
             then mret (mkResponse 400 (JsonMessage "Game is not active"))
             else
               nextQuestion ← store (GetNextQuestion gameId)
                                (MemStorage.getNextQuestion gameId);
               match nextQuestion with
               | None =>
                   store (UpdateGameStatus gameId completed)
                     (MemStorage.updateGameStatus gameId completed) ;;
                   sendGameUpdate gameId ;;
                   mret (mkResponse 200
                           (JsonMessage "All questions completed, game ended"))
               | Some q =>
                   store (UpdateCurrentQuestion gameId q)
                     (MemStorage.updateCurrentQuestion gameId q) ;;
                   sendGameUpdate gameId ;;
                   mret (mkResponse 200 (JsonCurrentQuestion q))
               end
         end
     end)
    internalError.

(** The loop over the groups stops at the first group with the player and
    keeps its id; [if (!playerGroupId)] also takes an empty id for none. *)
Definition submitAnswer (gameId : string) (playerId cellId : option string)
    : M Response :=
  tryCatch
    (match fieldOf playerId, fieldOf cellId with
     | Some playerId, Some cellId =>
         w ← world;
         match MemStorage.getGame gameId (storage w) with
         | None => mret (mkResponse 404 (JsonMessage "Game not found"))
         | Some game =>
             if bool_decide (status game ≠ active)
             then mret (mkResponse 400 (JsonMessage "Game is not active"))
             else
               match fieldOf (group_id <$> Js.findPlayerGroup playerId game) with
               | None =>
                   mret (mkResponse 404
                           (JsonMessage "Player not found in this game"))
               | Some playerGroupId =>
                   store (RecordPlayerAnswer gameId playerId playerGroupId cellId)
                     (MemStorage.recordPlayerAnswer gameId playerId
                        playerGroupId cellId (now w)) ;;
                   checkGroupConsensus gameId playerGroupId ;;
                   sendGameUpdate gameId ;;
                   mret (mkResponse 200
                           (JsonMessage "Answer submitted successfully"))
               end
         end
     | _, _ => mret (mkResponse 400
                       (JsonMessage "Player ID and cell ID are required"))
     end)
    internalError.

(** [String.prototype.trim] on code units below 256: the white space and
    line terminators there are the codes 9 to 13, 32 and 160. *)
Definition isWhiteSpace (c : ascii) : bool :=
  let n := nat_of_ascii c in
  (9 <=? n) && (n <=? 13) || (n =? 32) || (n =? 160).

Fixpoint trimStart (s : string) : string :=
  match s with
  | EmptyString => EmptyString
  | String c rest => if isWhiteSpace c then trimStart rest else s
  end.

Fixpoint trimEnd (s : string) : string :=
  match s with
  | EmptyString => EmptyString
  | String c rest =>
      match trimEnd rest with
      | EmptyString => if isWhiteSpace c then EmptyString else String c EmptyString
      | kept => String c kept
      end
  end.

Definition trim (s : string) : string := trimEnd (trimStart s).

(** What [joinGame] sends: its own [player_joined], which no handler of the
    sockets sends, and the messages of [sendGameUpdate]. *)
Inductive Push : Type :=
| player_joined (ws : nat) (playerId playerName groupId groupName : string)
| pushed (a : Action).

(** The loop of [joinGame] over [connections.entries()]. *)
Definition joinedMessages (w : World) (gameId playerId playerName groupId
    groupName : string) : list Push :=
  match gameConnections w !! gameId with
  | None => []
  | Some connections =>
      (λ e, player_joined e.2 playerId playerName groupId groupName)
      <$> filter (λ e, isOpen w e.2 = true) connections
  end.

(** [displayName] is the field of the body when it is a text; [playerId] is
    the id that [randomUUID()] returns in [addPlayerToGame].  The controller
    awaits [sendGameUpdate].  Whatever is thrown is answered with 500; only
    [addPlayerToGame] can throw. *)
Definition joinGame (gameId : string) (displayName : option string)
    (playerId : string) (w : World) : Response * World * list Push :=
  match fieldOf displayName with
  | None => (mkResponse 400 (JsonMessage "Display name is required"), w, [])
  | Some displayName =>
      if bool_decide (trim displayName = "")
      then (mkResponse 400 (JsonMessage "Display name is required"), w, [])
      else
        match MemStorage.getGame gameId (storage w) with
        | None => (mkResponse 404 (JsonMessage "Game not found"), w, [])
        | Some game =>
            if bool_decide (status game ≠ waiting)
            then (mkResponse 400
                    (JsonMessage "Game has already started or ended"), w, [])
            else
              match MemStorage.addPlayerToGame gameId (trim displayName)
                      playerId (storage w) with
              | Throw _ =>
                  (mkResponse 500 (JsonMessage "Internal server error"), w, [])
              | Ok (playerId, groupId, groupName, st) =>
                  let w' := set_storage st w in
                  (mkResponse 200 (JsonJoined playerId groupId groupName), w',
                   joinedMessages w' gameId playerId (trim displayName)
                     groupId groupName
                   ++ (pushed <$> gameUpdates w' gameId))
              end
        end
  end.

(** *** Observations *)

(** The id is the id of no player of the game. *)
Definition freshPlayer (playerId gameId : string) (w : World) : Prop :=
  ∀ game group,
    MemStorage.getGame gameId (storage w) = Some game →
    group ∈ groups game → Js.isMember playerId group = false.

(** The user of the request is the creator of the game. *)
Definition isCreator (user : option nat) (gameId : string) (w : World) : Prop :=
  ∃ game,
    MemStorage.getGame gameId (storage w) = Some game
    ∧ userOf user = Some (creatorId game).

(** The controller that does what a message of the host does. *)
Definition controllerOf (data : ClientMessage)
    : option (option nat → string → M Response) :=
  match data with
  | start_game => Some startGame
  | end_game => Some endGame
  | next_question => Some nextQuestion
  | _ => None
  end.

Definition isGameOver (a : Action) : bool :=
  match a with
  | Sent _ (game_over _) => true
  | _ => false
  end.

(** The trace without its [game_over] messages. *)
Definition quiet (trace : list Action) : list Action :=
  List.filter (λ a, negb (isGameOver a)) trace.

(** The game of [Scenario] in its waiting room, with the sockets of
    [Scenario]. *)
Definition lobby : World :=
  set_storage Lobby.waitingRoom (Scenario.world false false).

End Rest.

(** ** What the tables of [DatabaseStorage] keep *)

Module Tables.



(** The used questions of a game. *)
Definition usedQuestions (gameId : string) (db : DatabaseStorage.t)
    : list DatabaseStorage.QuestionRow :=
  List.filter
    (λ q, bool_decide (DatabaseStorage.questions_gameId q = gameId)
          && DatabaseStorage.questions_used q)
    (DatabaseStorage.questions db).

End Tables.

(** * Properties *)

(** ** Board geometry *)

Module UtilsProofs.

Import JsNum Utils Lines.

Example grid3 :
  createPositionGrid 3 = ["A1"; "A2"; "A3"; "B1"; "B2"; "B3"; "C1"; "C2"; "C3"].
Proof. reflexivity. Qed.

Example row_before_column :
  checkBingoPattern ["A1"; "B1"; "C1"; "A2"; "A3"] 3
  = Within (Some ["A1"; "A2"; "A3"]).
Proof. reflexivity. Qed.

Example anti_diagonal :
  checkBingoPattern ["A3"; "B2"; "C1"; "Z9"; ""; "A0"; "B-1"] 3
  = Within (Some ["A3"; "B2"; "C1"]).
Proof. reflexivity. Qed.

Example parse_examples :
  parseInt " 12px" = Some 12%Z ∧ parseInt "0x1F" = Some 31%Z
  ∧ parseInt "-7" = Some (-7)%Z ∧ parseInt "x" = None ∧ parseInt "" = None.
Proof. repeat split. Qed.

Lemma lookup_tabulate {A} (f : nat → A) n i :
  i < n → tabulate n f !! i = Some (f i).
Proof.
  intros Hi. unfold tabulate.
  rewrite list_lookup_fmap, lookup_seq_lt by done. done.
Qed.

Lemma lookup_tabulate_ge {A} (f : nat → A) n i :
  n ≤ i → tabulate n f !! i = None.
Proof.
  intros Hi. unfold tabulate.
  rewrite list_lookup_fmap, lookup_seq_ge by done. done.
Qed.

Lemma length_tabulate {A} (f : nat → A) n : length (tabulate n f) = n.
Proof. unfold tabulate. by rewrite length_fmap, length_seq. Qed.

Lemma tabulate_ext {A} (f g : nat → A) n :
  (∀ i, i < n → f i = g i) → tabulate n f = tabulate n g.
Proof.
  intros Hfg. apply list_eq. intros i.
  destruct (decide (i < n)) as [Hi|Hi].
  - rewrite !lookup_tabulate by done. f_equal. auto.
  - rewrite !lookup_tabulate_ge by lia. done.
Qed.

Lemma boardOf_ext n (m m' : nat → nat → bool) :
  (∀ i j, i < n → j < n → m i j = m' i j) → boardOf n m = boardOf n m'.
Proof.
  intros Hm. apply tabulate_ext. intros i Hi.
  apply tabulate_ext. intros j Hj. auto.
Qed.

Lemma emptyBoard_boardOf n : emptyBoard n = boardOf n (λ _ _, false).
Proof.
  unfold emptyBoard, boardOf. apply list_eq. intros i.
  destruct (decide (i < n)) as [Hi|Hi].
  - rewrite lookup_tabulate, lookup_replicate_2 by done. f_equal.
    apply list_eq. intros j. destruct (decide (j < n)) as [Hj|Hj].
    + by rewrite lookup_tabulate, lookup_replicate_2.
    + rewrite lookup_tabulate_ge by lia. apply lookup_replicate_None. lia.
  - rewrite lookup_tabulate_ge by lia. apply lookup_replicate_None. lia.
Qed.

Lemma bind_Within {A B} (a : A) (k : A → access B) : (Within a ≫= k) = k a.
Proof. done. Qed.

Lemma readAt_tabulate {A} (f : nat → A) n i :
  i < n → readAt (tabulate n f) i = Within (f i).
Proof. intros Hi. unfold readAt. by rewrite lookup_tabulate. Qed.

(** The guarded write stays within the board and sets exactly one cell. *)
Lemma setCell_boardOf n m (i j : nat) :
  i < n → j < n →
  setCell (boardOf n m) (Some (Z.of_nat i)) (Some (Z.of_nat j))
  = Within (boardOf n (mark m i j)).
Proof.
  intros Hi Hj. unfold setCell, boardOf.
  replace (0 <=? Z.of_nat i)%Z with true by (symmetry; apply Z.leb_le; lia).
  replace (0 <=? Z.of_nat j)%Z with true by (symmetry; apply Z.leb_le; lia).
  rewrite !Nat2Z.id. cbn [andb].
  rewrite readAt_tabulate, bind_Within by done.
  rewrite length_tabulate.
  replace (j <? n) with true by (symmetry; apply Nat.ltb_lt; lia).
  f_equal. apply list_eq. intros i'.
  destruct (decide (i' < n)) as [Hi'|Hi'].
  2:{ rewrite list_lookup_insert_ne by lia.
      by rewrite !lookup_tabulate_ge by lia. }
  rewrite (lookup_tabulate (λ i0, tabulate n (mark m i j i0))) by done.
  destruct (decide (i' = i)) as [->|Hne].
  - rewrite list_lookup_insert_eq by (rewrite length_tabulate; lia).
    f_equal. apply list_eq. intros j'.
    destruct (decide (j' < n)) as [Hj'|Hj'].
    2:{ rewrite list_lookup_insert_ne by lia.
        by rewrite !lookup_tabulate_ge by lia. }
    rewrite (lookup_tabulate (mark m i j i)) by done.
    destruct (decide (j' = j)) as [->|Hnej].
    + rewrite list_lookup_insert_eq by (rewrite length_tabulate; lia).
      unfold mark. rewrite !bool_decide_eq_true_2 by done.
      by rewrite orb_true_r.
    + rewrite list_lookup_insert_ne by done.
      rewrite lookup_tabulate by done. unfold mark.
      rewrite (bool_decide_eq_false_2 (j' = j)) by done.
      by rewrite andb_false_r, orb_false_r.
  - rewrite list_lookup_insert_ne by done.
    rewrite lookup_tabulate by done. f_equal.
    apply tabulate_ext. intros j' Hj'. unfold mark.
    rewrite (bool_decide_eq_false_2 (i' = i)) by done.
    by rewrite orb_false_r.
Qed.

(** A label that passes the bounds check decodes to a cell of the board. *)
Lemma onBoard_decode n pos :
  onBoard n pos = true →
  ∃ i j, i < n ∧ j < n ∧ decode pos = cellOf i j.
Proof.
  unfold onBoard, decode, cellOf. intros H.
  apply andb_prop in H as [H Hc2]. apply andb_prop in H as [H Hc1].
  apply andb_prop in H as [Hr1 Hr2].
  destruct (rowOf pos) as [r|]; [|done].
  destruct (colOf pos) as [c|]; [|done].
  cbn in *. apply Z.leb_le in Hr1, Hc1. apply Z.ltb_lt in Hr2, Hc2.
  exists (Z.to_nat r), (Z.to_nat c).
  rewrite !Z2Nat.id by done. split_and!; [lia..|done].
Qed.

Lemma cellOf_inj i j i' j' : cellOf i j = cellOf i' j' → i = i' ∧ j = j'.
Proof. unfold cellOf. intros [=]. lia. Qed.

Lemma cellMarked_cons n pos ps i j :
  cellMarked n (pos :: ps) i j
  = (onBoard n pos && bool_decide (decode pos = cellOf i j)) || cellMarked n ps i j.
Proof. done. Qed.

(** The marking loop never leaves the board, and it sets the cells that the
    labels passing the bounds check decode to. *)
Lemma markPositions_boardOf ps n m :
  markPositions ps n (boardOf n m)
  = Within (boardOf n (λ i j, m i j || cellMarked n ps i j)).
Proof.
  revert m. induction ps as [|pos ps IH]; intros m; cbn [markPositions].
  - f_equal. apply boardOf_ext. intros. cbn. by rewrite orb_false_r.
  - destruct (onBoard n pos) eqn:Hon.
    + destruct (onBoard_decode _ _ Hon) as (i & j & Hi & Hj & Hdec).
      unfold decode, cellOf in Hdec. injection Hdec as Hr Hc.
      rewrite Hr, Hc, setCell_boardOf, bind_Within by done. rewrite IH.
      f_equal. apply boardOf_ext. intros i' j' Hi' Hj'.
      rewrite cellMarked_cons, Hon. cbn [andb]. unfold mark, decode, cellOf.
      rewrite Hr, Hc, <- orb_assoc. f_equal. f_equal.
      destruct (decide (i' = i)) as [->|]; destruct (decide (j' = j)) as [->|].
      * by rewrite !bool_decide_eq_true_2.
      * rewrite (bool_decide_eq_false_2 (j' = j)) by done.
        rewrite andb_false_r. symmetry. apply bool_decide_eq_false_2.
        intros [=]. lia.
      * rewrite (bool_decide_eq_false_2 (i' = i)) by done.
        symmetry. apply bool_decide_eq_false_2. intros [=]. lia.
      * rewrite (bool_decide_eq_false_2 (i' = i)) by done.
        symmetry. apply bool_decide_eq_false_2. intros [=]. lia.
    + rewrite IH. f_equal. apply boardOf_ext. intros i' j' _ _.
      by rewrite cellMarked_cons, Hon.
Qed.

Lemma markPositions_emptyBoard ps n :
  markPositions ps n (emptyBoard n) = Within (boardOf n (cellMarked n ps)).
Proof. rewrite emptyBoard_boardOf. apply markPositions_boardOf. Qed.

Lemma readAt_boardOf n m i :
  i < n → readAt (boardOf n m) i = Within (tabulate n (m i)).
Proof. intros Hi. unfold boardOf. by rewrite readAt_tabulate. Qed.

Lemma forallb_tabulate n (f : nat → bool) :
  forallb id (tabulate n f) = forallb f (seq 0 n).
Proof. unfold tabulate. induction (seq 0 n); cbn; [done|]. by f_equal. Qed.

Lemma checkRows_boardOf n m rows :
  (∀ i, i ∈ rows → i < n) →
  checkRows (boardOf n m) n rows
  = Within (rowLabels n <$> find (λ i, forallb (m i) (seq 0 n)) rows).
Proof.
  induction rows as [|i rows IH]; intros Hrows; cbn [checkRows find]; [done|].
  rewrite readAt_boardOf, bind_Within by (apply Hrows; left).
  rewrite forallb_tabulate.
  destruct (forallb (m i) (seq 0 n)); [done|].
  apply IH. intros i' Hi'. apply Hrows. by right.
Qed.

Lemma every_column n (m : nat → nat → bool) j (rows : list nat) :
  j < n →
  every (λ row : list bool, readAt row j) ((λ i, tabulate n (m i)) <$> rows)
  = Within (forallb (λ i, m i j) rows).
Proof.
  intros Hj. induction rows as [|i rows IH]; cbn [every fmap list_fmap forallb]; [done|].
  rewrite readAt_tabulate, bind_Within by done.
  destruct (m i j); [|done]. apply IH.
Qed.

Lemma every_column_boardOf n (m : nat → nat → bool) j :
  j < n →
  every (λ row : list bool, readAt row j) (boardOf n m)
  = Within (forallb (λ i, m i j) (seq 0 n)).
Proof. intros Hj. exact (every_column n m j (seq 0 n) Hj). Qed.

Lemma checkCols_boardOf n m cols :
  (∀ j, j ∈ cols → j < n) →
  checkCols (boardOf n m) n cols
  = Within (colLabels n <$> find (λ j, forallb (λ i, m i j) (seq 0 n)) cols).
Proof.
  induction cols as [|j cols IH]; intros Hcols; cbn [checkCols find]; [done|].
  rewrite every_column_boardOf, bind_Within by (apply Hcols; left).
  destruct (forallb (λ i, m i j) (seq 0 n)); [done|].
  apply IH. intros j' Hj'. apply Hcols. by right.
Qed.

Lemma readCell_boardOf n m i j :
  i < n → j < n → readCell (boardOf n m) i j = Within (m i j).
Proof.
  intros Hi Hj. unfold readCell.
  by rewrite readAt_boardOf, bind_Within, readAt_tabulate.
Qed.

Lemma every_cells n m (g : nat → nat) rows :
  (∀ i, i ∈ rows → i < n ∧ g i < n) →
  every (λ i, readCell (boardOf n m) i (g i)) rows
  = Within (forallb (λ i, m i (g i)) rows).
Proof.
  induction rows as [|i rows IH]; intros Hrows; cbn [every forallb]; [done|].
  destruct (Hrows i) as [Hi Hg]; [left|].
  rewrite readCell_boardOf, bind_Within by done.
  destruct (m i (g i)); [|done].
  apply IH. intros i' Hi'. apply Hrows. by right.
Qed.

Lemma elem_of_seq0 n i : i ∈ seq 0 n → i < n.
Proof. rewrite elem_of_seq. lia. Qed.

(** [checkBingoPattern] never leaves the board, and it computes the win
    detection of the specification. *)
Lemma checkBingoPattern_detect ps n :
  checkBingoPattern ps n = Within (detectWinPattern ps n).
Proof.
  unfold checkBingoPattern, detectWinPattern, orElse.
  rewrite markPositions_emptyBoard, bind_Within.
  rewrite checkRows_boardOf, bind_Within by apply elem_of_seq0.
  fold (rowFull n ps).
  change (λ i, forallb (cellMarked n ps i) (seq 0 n)) with (rowFull n ps).
  destruct (find (rowFull n ps) (seq 0 n)); [done|]. cbn [fmap option_fmap option_map].
  rewrite checkCols_boardOf, bind_Within by apply elem_of_seq0.
  change (λ j, forallb (λ i, cellMarked n ps i j) (seq 0 n)) with (colFull n ps).
  destruct (find (colFull n ps) (seq 0 n)); [done|]. cbn [fmap option_fmap option_map].
  unfold checkDiag, checkAnti.
  rewrite (every_cells n _ (λ i, i)), bind_Within, bind_Within
    by (intros i Hi%elem_of_seq0; lia).
  fold (diagFull n ps). destruct (diagFull n ps); [done|].
  rewrite (every_cells n _ (λ i, n - 1 - i)), bind_Within
    by (intros i Hi%elem_of_seq0; lia).
  fold (antiFull n ps). by destruct (antiFull n ps).
Qed.

Lemma find_seq_first (f : nat → bool) a n i :
  a ≤ i < a + n → f i = true → (∀ i', a ≤ i' < i → f i' = false) →
  find f (seq a n) = Some i.
Proof.
  revert a. induction n as [|n IH]; intros a Hi Hf Hbefore; [lia|].
  cbn [seq find]. destruct (decide (a = i)) as [->|Hne].
  - by rewrite Hf.
  - rewrite Hbefore by lia. apply IH; [lia|done|]. intros. apply Hbefore. lia.
Qed.

Lemma find_seq_none (f : nat → bool) a n :
  (∀ i, a ≤ i < a + n → f i = false) → find f (seq a n) = None.
Proof.
  revert a. induction n as [|n IH]; intros a Hf; [done|].
  cbn [seq find]. rewrite Hf by lia. apply IH. intros. apply Hf. lia.
Qed.

Lemma cellMarked_spec n ps i j :
  cellMarked n ps i j = true
  ↔ ∃ pos, pos ∈ ps ∧ onBoard n pos = true
           ∧ rowOf pos = Some (Z.of_nat i) ∧ colOf pos = Some (Z.of_nat j).
Proof.
  unfold cellMarked. rewrite existsb_exists. split.
  - intros (pos & Hin & H). apply andb_prop in H as [Hon Hdec].
    apply bool_decide_eq_true_1 in Hdec. injection Hdec as Hr Hc.
    exists pos. by rewrite list_elem_of_In.
  - intros (pos & Hin & Hon & Hr & Hc). exists pos.
    rewrite <- list_elem_of_In. split; [done|]. rewrite Hon. cbn.
    apply bool_decide_eq_true_2. unfold decode, cellOf. by rewrite Hr, Hc.
Qed.

Lemma cellMarked_unique n ps i j :
  cellMarked n ps i j = true →
  ∃ pos, pos ∈ uniqueOnBoard n ps ∧ decode pos = cellOf i j.
Proof.
  intros (pos & Hin & Hon & Hr & Hc)%cellMarked_spec. exists pos. split.
  - unfold uniqueOnBoard. rewrite elem_of_remove_dups, list_elem_of_filter. done.
  - unfold decode, cellOf. by rewrite Hr, Hc.
Qed.

(** A complete line needs as many distinct labels as the board is wide. *)
Lemma full_line_length n ps (c : nat → nat * nat) :
  (∀ k k', k < n → k' < n → c k = c k' → k = k') →
  (∀ k, k < n → cellMarked n ps (c k).1 (c k).2 = true) →
  n ≤ length (uniqueOnBoard n ps).
Proof.
  intros Hinj Hfull.
  pose (cells := (λ k, cellOf (c k).1 (c k).2) <$> seq 0 n).
  assert (NoDup cells) as Hnodup.
  { apply NoDup_fmap_2_strong; [|apply NoDup_seq].
    intros k k' Hk%elem_of_seq0 Hk'%elem_of_seq0 Heq.
    apply cellOf_inj in Heq as [H1 H2]. apply Hinj; [done..|].
    destruct (c k), (c k'); cbn in *; congruence. }
  assert (∀ x, x ∈ cells → x ∈ decode <$> uniqueOnBoard n ps) as Hsub.
  { intros x (k & -> & Hk%elem_of_seq0)%list_elem_of_fmap.
    destruct (cellMarked_unique _ _ _ _ (Hfull k Hk)) as (pos & Hpos & Hdec).
    apply list_elem_of_fmap. eauto. }
  pose proof (submseteq_length _ _ (NoDup_submseteq _ _ Hnodup Hsub)) as Hlen.
  unfold cells in Hlen. rewrite !length_fmap, length_seq in Hlen. done.
Qed.

Lemma forallb_seq0 (f : nat → bool) n :
  forallb f (seq 0 n) = true ↔ ∀ k, k < n → f k = true.
Proof.
  rewrite forallb_forall. split.
  - intros H k Hk. apply H, list_elem_of_In, elem_of_seq. lia.
  - intros H k Hk%list_elem_of_In%elem_of_seq0. auto.
Qed.

Lemma detectWinPattern_length ps n pattern :
  detectWinPattern ps n = Some pattern → n ≤ length (uniqueOnBoard n ps).
Proof.
  unfold detectWinPattern. intros Hdet.
  destruct (find (rowFull n ps) (seq 0 n)) as [i|] eqn:Hrow.
  { apply find_some in Hrow as [_ Hfull]. unfold rowFull in Hfull.
    rewrite forallb_seq0 in Hfull.
    apply (full_line_length n ps (λ k, (i, k))); [intros; congruence|done]. }
  destruct (find (colFull n ps) (seq 0 n)) as [j|] eqn:Hcol.
  { apply find_some in Hcol as [_ Hfull]. unfold colFull in Hfull.
    rewrite forallb_seq0 in Hfull.
    apply (full_line_length n ps (λ k, (k, j))); [intros; congruence|done]. }
  destruct (diagFull n ps) eqn:Hdiag.
  { unfold diagFull in Hdiag. rewrite forallb_seq0 in Hdiag.
    apply (full_line_length n ps (λ k, (k, k))); [intros; congruence|done]. }
  destruct (antiFull n ps) eqn:Hanti; [|done].
  unfold antiFull in Hanti. rewrite forallb_seq0 in Hanti.
  apply (full_line_length n ps (λ k, (k, n - 1 - k))); [intros; congruence|done].
Qed.

(** C5.  Win detection checks the rows from the top, then the columns from
    the left, then the diagonal from the top left, then the diagonal from the
    top right, and returns the first complete line in that order, as the
    names of its cells from one end to the other: the cells of the first
    complete row from the left if there is one, else the cells of the first
    complete column from the top, else those of the main diagonal, else those
    of the other diagonal from the top right, else no pattern.  With fewer
    than [boardSize] distinct labels on the board it returns no pattern.
    (Board sizes up to 191, where the row letters stay below 256.) *)
Theorem checkBingoPattern_first_line (markedPositions : list string) (boardSize : nat) :
  boardSize ≤ 191 →
  (∀ i, i < boardSize →
        rowFull boardSize markedPositions i = true →
        (∀ i', i' < i → rowFull boardSize markedPositions i' = false) →
        checkBingoPattern markedPositions boardSize
        = Within (Some ((λ j, position i j) <$> seq 0 boardSize)))
  ∧ (∀ j, (∀ i, i < boardSize → rowFull boardSize markedPositions i = false) →
          j < boardSize →
          colFull boardSize markedPositions j = true →
          (∀ j', j' < j → colFull boardSize markedPositions j' = false) →
          checkBingoPattern markedPositions boardSize
          = Within (Some ((λ i, position i j) <$> seq 0 boardSize)))
  ∧ ((∀ i, i < boardSize → rowFull boardSize markedPositions i = false) →
     (∀ j, j < boardSize → colFull boardSize markedPositions j = false) →
     diagFull boardSize markedPositions = true →
     checkBingoPattern markedPositions boardSize
     = Within (Some ((λ k, position k k) <$> seq 0 boardSize)))
  ∧ ((∀ i, i < boardSize → rowFull boardSize markedPositions i = false) →
     (∀ j, j < boardSize → colFull boardSize markedPositions j = false) →
     diagFull boardSize markedPositions = false →
     antiFull boardSize markedPositions = true →
     checkBingoPattern markedPositions boardSize
     = Within (Some ((λ k, position k (boardSize - 1 - k)) <$> seq 0 boardSize)))
  ∧ ((∀ i, i < boardSize → rowFull boardSize markedPositions i = false) →
     (∀ j, j < boardSize → colFull boardSize markedPositions j = false) →
     diagFull boardSize markedPositions = false →
     antiFull boardSize markedPositions = false →
     checkBingoPattern markedPositions boardSize = Within None)
  ∧ (length (uniqueOnBoard boardSize markedPositions) < boardSize →
     checkBingoPattern markedPositions boardSize = Within None).
Proof.
  intros _.
  rewrite checkBingoPattern_detect. unfold detectWinPattern.
  set (rows := rowFull boardSize markedPositions).
  set (cols := colFull boardSize markedPositions).
  split_and!.
  - intros i Hi Hfull Hfirst.
    rewrite (find_seq_first rows 0 boardSize i); [done|lia|done|].
    intros. apply Hfirst. lia.
  - intros j Hrows Hj Hfull Hfirst.
    rewrite (find_seq_none rows) by (intros; apply Hrows; lia).
    rewrite (find_seq_first cols 0 boardSize j); [done|lia|done|].
    intros. apply Hfirst. lia.
  - intros Hrows Hcols Hdiag.
    rewrite (find_seq_none rows) by (intros; apply Hrows; lia).
    rewrite (find_seq_none cols) by (intros; apply Hcols; lia).
    by rewrite Hdiag.
  - intros Hrows Hcols Hdiag Hanti.
    rewrite (find_seq_none rows) by (intros; apply Hrows; lia).
    rewrite (find_seq_none cols) by (intros; apply Hcols; lia).
    rewrite Hdiag, Hanti. do 2 f_equal.
    apply tabulate_ext. intros k Hk. unfold position.
    by replace (boardSize - 1 - k + 1) with (boardSize - k) by lia.
  - intros Hrows Hcols Hdiag Hanti.
    rewrite (find_seq_none rows) by (intros; apply Hrows; lia).
    rewrite (find_seq_none cols) by (intros; apply Hcols; lia).
    by rewrite Hdiag, Hanti.
  - intros Hfew. subst rows cols.
    fold (detectWinPattern markedPositions boardSize).
    destruct (detectWinPattern markedPositions boardSize) as [pattern|] eqn:Hdet;
      [|done].
    apply detectWinPattern_length in Hdet. lia.
Qed.

(** On a board of three: the top row wins against the first column and the
    diagonal, all three complete at once; the middle column wins against the
    diagonal; each diagonal alone is found; two labels give no pattern. *)
Lemma checkBingoPattern_first_line_witness :
  checkBingoPattern ["A1"; "B1"; "C1"; "A2"; "A3"; "B2"; "C3"] 3
  = Within (Some ["A1"; "A2"; "A3"])
  ∧ checkBingoPattern ["C3"; "A2"; "B2"; "A1"; "C2"] 3
    = Within (Some ["A2"; "B2"; "C2"])
  ∧ checkBingoPattern ["C3"; "B2"; "A1"; "B3"] 3
    = Within (Some ["A1"; "B2"; "C3"])
  ∧ checkBingoPattern ["C1"; "B2"; "A3"; "A1"] 3
    = Within (Some ["A3"; "B2"; "C1"])
  ∧ checkBingoPattern ["A1"; "B2"; "A3"; "C2"; "B1"] 3 = Within None
  ∧ checkBingoPattern ["A1"; "A1"; "B2"; "Z7"] 3 = Within None.
Proof.
  assert (∀ f : nat → bool, f 0 = false → f 1 = false → f 2 = false →
            ∀ k, k < 3 → f k = false) as Hnone.
  { intros f H0 H1 H2 [|[|[|k]]] Hk; (done || lia). }
  split_and!.
  - destruct (checkBingoPattern_first_line
                ["A1"; "B1"; "C1"; "A2"; "A3"; "B2"; "C3"] 3) as (Hrow & _);
      [lia|].
    apply (Hrow 0); [lia|reflexivity|lia].
  - destruct (checkBingoPattern_first_line ["C3"; "A2"; "B2"; "A1"; "C2"] 3)
      as (_ & Hcol & _); [lia|].
    apply (Hcol 1); [by apply Hnone|lia|reflexivity|].
    intros [|j'] Hj'; [reflexivity|lia].
  - destruct (checkBingoPattern_first_line ["C3"; "B2"; "A1"; "B3"] 3)
      as (_ & _ & Hdiag & _); [lia|].
    apply Hdiag; [by apply Hnone|by apply Hnone|reflexivity].
  - destruct (checkBingoPattern_first_line ["C1"; "B2"; "A3"; "A1"] 3)
      as (_ & _ & _ & Hanti & _); [lia|].
    apply Hanti; [by apply Hnone|by apply Hnone|reflexivity|reflexivity].
  - destruct (checkBingoPattern_first_line ["A1"; "B2"; "A3"; "C2"; "B1"] 3)
      as (_ & _ & _ & _ & Hno & _); [lia|].
    apply Hno; [by apply Hnone|by apply Hnone|reflexivity|reflexivity].
  - destruct (checkBingoPattern_first_line ["A1"; "A1"; "B2"; "Z7"] 3)
      as (_ & _ & _ & _ & _ & Hfew); [lia|].
    apply Hfew. vm_compute. lia.
Defined.

Lemma forallb_ext_seq (f g : nat → bool) (l : list nat) :
  (∀ k, f k = g k) → forallb f l = forallb g l.
Proof. intros Hfg. induction l; cbn; [done|]. by rewrite Hfg, IHl. Qed.

Lemma find_ext_list (f g : nat → bool) (l : list nat) :
  (∀ k, f k = g k) → find f l = find g l.
Proof. intros Hfg. induction l; cbn; [done|]. by rewrite Hfg, IHl. Qed.

(** Win detection depends on the labels only through the marked cells. *)
Lemma detectWinPattern_ext ps ps' n :
  (∀ i j, cellMarked n ps i j = cellMarked n ps' i j) →
  detectWinPattern ps n = detectWinPattern ps' n.
Proof.
  intros Hcells. unfold detectWinPattern.
  rewrite (find_ext_list (rowFull n ps) (rowFull n ps'))
    by (intros i; apply forallb_ext_seq; intros j; apply Hcells).
  rewrite (find_ext_list (colFull n ps) (colFull n ps'))
    by (intros j; apply forallb_ext_seq; intros i; apply Hcells).
  unfold diagFull, antiFull.
  rewrite (forallb_ext_seq (λ i, cellMarked n ps i i) (λ i, cellMarked n ps' i i))
    by (intros; apply Hcells).
  rewrite (forallb_ext_seq (λ i, cellMarked n ps i (n - 1 - i))
             (λ i, cellMarked n ps' i (n - 1 - i))) by (intros; apply Hcells).
  done.
Qed.

Lemma cellMarked_app n ps ps' i j :
  cellMarked n (ps ++ ps') i j = cellMarked n ps i j || cellMarked n ps' i j.
Proof. unfold cellMarked. apply existsb_app. Qed.

Lemma cellMarked_filter n ps i j :
  cellMarked n (filter (λ pos, onBoard n pos = true) ps) i j = cellMarked n ps i j.
Proof.
  induction ps as [|pos ps IH]; [done|].
  rewrite filter_cons. destruct (decide (onBoard n pos = true)) as [Hon|Hoff].
  - by rewrite !cellMarked_cons, IH.
  - rewrite cellMarked_cons, IH. apply not_true_is_false in Hoff.
    by rewrite Hoff.
Qed.

(** C10.  [checkBingoPattern] is total and never leaves the board: on every
    list of labels and every board size it returns a pattern or none, without
    an access outside the board.  A label whose row letter or column number
    lies outside the board is ignored: the result is the one for the labels
    on the board alone, and dropping such a label anywhere in the list
    changes nothing. *)
Theorem checkBingoPattern_total_tolerant (markedPositions : list string) (boardSize : nat) :
  (∃ result, checkBingoPattern markedPositions boardSize = Within result)
  ∧ checkBingoPattern markedPositions boardSize
    = checkBingoPattern
        (filter (λ pos, onBoard boardSize pos = true) markedPositions) boardSize
  ∧ (∀ before pos after,
       markedPositions = before ++ pos :: after →
       onBoard boardSize pos = false →
       checkBingoPattern markedPositions boardSize
       = checkBingoPattern (before ++ after) boardSize).
Proof.
  split_and!.
  - eexists. apply checkBingoPattern_detect.
  - rewrite !checkBingoPattern_detect. f_equal.
    apply detectWinPattern_ext. intros i j. by rewrite cellMarked_filter.
  - intros before pos after -> Hoff.
    rewrite !checkBingoPattern_detect. f_equal.
    apply detectWinPattern_ext. intros i j.
    by rewrite !cellMarked_app, cellMarked_cons, Hoff.
Qed.

(** Labels with a row letter past the board, a column number past the board,
    column zero, no column and no text at all, around a complete column. *)
Lemma checkBingoPattern_total_tolerant_witness :
  checkBingoPattern ["D1"; "A2"; "A4"; "B2"; "B0"; "C"; ""; "C2"] 3
  = checkBingoPattern (["D1"; "A2"; "A4"; "B2"; "B0"] ++ [""; "C2"]) 3.
Proof.
  destruct (checkBingoPattern_total_tolerant
              ["D1"; "A2"; "A4"; "B2"; "B0"; "C"; ""; "C2"] 3) as (_ & _ & Hdrop).
  apply (Hdrop ["D1"; "A2"; "A4"; "B2"; "B0"] "C" [""; "C2"]); reflexivity.
Defined.

End UtilsProofs.

(** ** Insertion-ordered maps *)

Module JsMapProofs.

Section JsMapProofs.
Context {K V : Type} `{EqDecision K}.
Implicit Types (k : K) (v : V) (m : JsMap.t K V).

Lemma get_cons k k' v m :
  JsMap.get k ((k', v) :: m) = if bool_decide (k' = k) then Some v else JsMap.get k m.
Proof. unfold JsMap.get. cbn. by destruct (bool_decide (k' = k)). Qed.

Lemma keys_cons k v m : JsMap.keys ((k, v) :: m) = k :: JsMap.keys m.
Proof. done. Qed.

Lemma get_None k m : JsMap.get k m = None ↔ k ∉ JsMap.keys m.
Proof.
  induction m as [|[k' v] m IH].
  - split; [intros _; apply not_elem_of_nil|done].
  - rewrite get_cons, keys_cons, not_elem_of_cons. case_bool_decide as Hk.
    + split; [done|]. intros [Hne _]. by destruct Hne.
    + rewrite IH. split; [by intros ?; split; [congruence|]|by intros [_ ?]].
Qed.

Lemma get_Some_elem k v m : JsMap.get k m = Some v → (k, v) ∈ m.
Proof.
  induction m as [|[k' v'] m IH]; [done|].
  rewrite get_cons. case_bool_decide as Hk.
  - intros [= ->]. subst. left.
  - intros ?. right. auto.
Qed.

Lemma has_true k m : JsMap.has k m = true ↔ k ∈ JsMap.keys m.
Proof.
  unfold JsMap.has. rewrite bool_decide_eq_true.
  destruct (JsMap.get k m) as [v|] eqn:Hget.
  - split; [intros _|by eauto].
    apply get_Some_elem in Hget.
    apply list_elem_of_fmap. by exists (k, v).
  - split; [by intros [? ?]|]. intros Hin. by apply get_None in Hget.
Qed.

Lemma has_false k m : JsMap.has k m = false ↔ k ∉ JsMap.keys m.
Proof. rewrite <- has_true. by destruct (JsMap.has k m). Qed.


Lemma get_app_r k m m' :
  k ∉ JsMap.keys m → JsMap.get k (m ++ m') = JsMap.get k m'.
Proof.
  induction m as [|[k' v'] m IH]; [done|].
  rewrite keys_cons, not_elem_of_cons. intros [Hne Hnin].
  rewrite <- app_comm_cons, get_cons, bool_decide_eq_false_2 by done. auto.
Qed.

Lemma get_app_l k m m' :
  k ∈ JsMap.keys m → JsMap.get k (m ++ m') = JsMap.get k m.
Proof.
  induction m as [|[k' v'] m IH].
  - by intros ?%elem_of_nil.
  - rewrite <- app_comm_cons, !get_cons, keys_cons. case_bool_decide; [done|].
    rewrite elem_of_cons. intros [?|?]; [congruence|auto].
Qed.

Lemma get_set_eq k v m : JsMap.get k (JsMap.set k v m) = Some v.
Proof.
  unfold JsMap.set. destruct (JsMap.has k m) eqn:Hhas.
  - apply has_true in Hhas.
    induction m as [|[k' v'] m IH]; [by apply elem_of_nil in Hhas|].
    rewrite fmap_cons. cbn [fst]. rewrite keys_cons in Hhas.
    case_bool_decide as Hk.
    + by rewrite get_cons, bool_decide_eq_true_2.
    + rewrite get_cons, bool_decide_eq_false_2 by done.
      apply IH. apply elem_of_cons in Hhas as [?|?]; [congruence|done].
  - apply has_false in Hhas. rewrite get_app_r by done.
    by rewrite get_cons, bool_decide_eq_true_2.
Qed.

Lemma get_set_ne k k' v m : k' ≠ k → JsMap.get k' (JsMap.set k v m) = JsMap.get k' m.
Proof.
  intros Hne. unfold JsMap.set. destruct (JsMap.has k m) eqn:Hhas.
  - clear Hhas. induction m as [|[k0 v0] m IH]; [done|].
    rewrite fmap_cons. cbn [fst].
    case_bool_decide as Hk.
    + subst. rewrite !get_cons, !bool_decide_eq_false_2 by done. apply IH.
    + rewrite !get_cons. case_bool_decide; [done|apply IH].
  - destruct (decide (k' ∈ JsMap.keys m)) as [Hin|Hnin].
    + by apply get_app_l.
    + rewrite get_app_r, get_cons, bool_decide_eq_false_2 by done.
      symmetry. by apply get_None.
Qed.


End JsMapProofs.

End JsMapProofs.

(** ** Vote tallies *)

Module TallyProofs.

Import Tally JsMapProofs.

Example two_against_one :
  groupConsensus ["cell-B2"; "cell-B2"; "cell-B3"] = Some "cell-B2"
  ∧ JsMap.get "cell-B2" (countAnswers ["cell-B2"; "cell-B2"; "cell-B3"]) = Some 2.
Proof. split; reflexivity. Qed.

Lemma votesFor_snoc l x c :
  votesFor (l ++ [x]) c = votesFor l c + (if bool_decide (x = c) then 1 else 0).
Proof.
  unfold votesFor. rewrite count_occ_app. cbn.
  destruct (string_dec x c); case_bool_decide; done.
Qed.

Lemma votesFor_pos l c : c ∈ l ↔ 0 < votesFor l c.
Proof. rewrite list_elem_of_In. unfold votesFor. apply count_occ_In. Qed.

Lemma votesFor_zero l c : c ∉ l ↔ votesFor l c = 0.
Proof. rewrite votesFor_pos. lia. Qed.

Lemma firstOcc_snoc l x :
  firstOcc (l ++ [x])
  = if bool_decide (x ∈ firstOcc l) then firstOcc l else firstOcc l ++ [x].
Proof. unfold firstOcc. by rewrite foldl_app. Qed.

Lemma elem_of_firstOcc l x : x ∈ firstOcc l ↔ x ∈ l.
Proof.
  induction l as [|y l IH] using rev_ind; [done|].
  rewrite firstOcc_snoc, elem_of_app, list_elem_of_singleton.
  case_bool_decide as Hy.
  - rewrite IH. split; [auto|]. intros [?| ->]; [done|by apply IH].
  - by rewrite elem_of_app, list_elem_of_singleton, IH.
Qed.

(** The choices appear in [firstOcc] in the order of their first votes. *)
Lemma firstOcc_order l e1 c e2 :
  firstOcc l = e1 ++ c :: e2 →
  ∃ before after, l = before ++ (c :: after) ∧ (c ∉ before)
                  ∧ ∀ x, x ∈ before → x ∈ e1.
Proof.
  revert e1 c e2. induction l as [|y l IH] using rev_ind; intros e1 c e2 Hocc.
  { by destruct e1. }
  rewrite firstOcc_snoc in Hocc. case_bool_decide as Hy.
  - destruct (IH _ _ _ Hocc) as (before & after & -> & Hc & Hsub).
    exists before, (after ++ [y]). by rewrite <- app_assoc.
  - destruct e2 as [|z e2 _] using rev_ind.
    + apply app_inj_tail in Hocc as [<- <-].
      exists l, []. split_and!; [done| |].
      * by rewrite <- elem_of_firstOcc.
      * intros x. by rewrite elem_of_firstOcc.
    + replace (e1 ++ c :: e2 ++ [z]) with ((e1 ++ c :: e2) ++ [z]) in Hocc
        by (by rewrite <- app_assoc).
      apply app_inj_tail in Hocc as [Hocc <-].
      destruct (IH _ _ _ Hocc) as (before & after & -> & Hc & Hsub).
      exists before, (after ++ [y]). by rewrite <- app_assoc.
Qed.

Lemma get_tabled (g : string → nat) (F : list string) x :
  JsMap.get x ((λ c, (c, g c)) <$> F)
  = if bool_decide (x ∈ F) then Some (g x) else None.
Proof.
  induction F as [|c F IH]; [done|].
  rewrite fmap_cons, get_cons, IH.
  destruct (decide (c = x)) as [->|Hne].
  - rewrite bool_decide_eq_true_2 by done.
    by rewrite (bool_decide_eq_true_2 (x ∈ x :: F)) by left.
  - rewrite bool_decide_eq_false_2 by done.
    rewrite (bool_decide_ext (x ∈ c :: F) (x ∈ F)); [done|].
    rewrite elem_of_cons. split; [intros [?|?]; [congruence|done]|auto].
Qed.

(** The counting loop yields one entry per choice, in the order of the first
    votes, with the number of votes for the choice. *)
Lemma countAnswers_firstOcc l :
  countAnswers l = (λ c, (c, votesFor l c)) <$> firstOcc l.
Proof.
  induction l as [|x l IH] using rev_ind; [done|].
  unfold countAnswers in *. rewrite foldl_app. cbn [foldl]. rewrite IH.
  unfold bump. rewrite get_tabled, firstOcc_snoc. unfold JsMap.set, JsMap.has.
  rewrite get_tabled.
  destruct (decide (x ∈ firstOcc l)) as [Hx|Hx].
  - rewrite !(bool_decide_eq_true_2 (x ∈ firstOcc l)) by done.
    rewrite bool_decide_eq_true_2 by eauto. cbn [default].
    rewrite <- list_fmap_compose. apply list_fmap_ext.
    intros i c _. cbn. rewrite votesFor_snoc.
    case_bool_decide; subst.
    + by rewrite bool_decide_eq_true_2.
    + rewrite bool_decide_eq_false_2 by done. f_equal. lia.
  - rewrite !(bool_decide_eq_false_2 (x ∈ firstOcc l)) by done.
    rewrite bool_decide_eq_false_2 by (by intros [? ?]). cbn [default].
    rewrite fmap_app. f_equal.
    + apply list_fmap_ext. intros i c Hc%list_elem_of_lookup_2. cbn.
      rewrite votesFor_snoc, bool_decide_eq_false_2; [f_equal; lia|].
      intros ->. done.
    + cbn. rewrite votesFor_snoc, bool_decide_eq_true_2 by done.
      rewrite elem_of_firstOcc in Hx. apply votesFor_zero in Hx. by rewrite Hx.
Qed.

(** The selection loop returns the first entry with the highest count. *)
Lemma mostCommon_from (m : JsMap.t string nat) b h :
  (foldl selectStep (b, h) m = (b, h) ∧ ∀ x k, (x, k) ∈ m → k ≤ h)
  ∨ ∃ e1 e2 c n,
      foldl selectStep (b, h) m = (c, n) ∧ m = e1 ++ (c, n) :: e2 ∧ h < n
      ∧ (∀ x k, (x, k) ∈ e1 → k < n)
      ∧ (∀ x k, (x, k) ∈ e2 → k ≤ n).
Proof.
  revert b h. induction m as [|[x k] m IH]; intros b h.
  { left. split; [done|]. by intros ?? ?%elem_of_nil. }
  cbn [foldl selectStep]. destruct (h <? k) eqn:Hhk.
  - apply Nat.ltb_lt in Hhk.
    destruct (IH x k) as [[Hr Hle]|(e1 & e2 & c & n & Hr & Hm & Hlt & Hbefore & Hafter)].
    + right. exists [], m, x, k. split_and!; [done|done|done| |done].
      by intros ?? ?%elem_of_nil.
    + right. exists ((x, k) :: e1), e2, c, n.
      split_and!; [done|by rewrite Hm|lia| |done].
      intros x' k' [[= -> ->]| Hin]%elem_of_cons; [lia|eauto].
  - apply Nat.ltb_ge in Hhk.
    destruct (IH b h) as [[Hr Hle]|(e1 & e2 & c & n & Hr & Hm & Hlt & Hbefore & Hafter)].
    + left. split; [done|].
      intros x' k' [[= -> ->]| Hin]%elem_of_cons; [lia|eauto].
    + right. exists ((x, k) :: e1), e2, c, n.
      split_and!; [done|by rewrite Hm|lia| |done].
      intros x' k' [[= -> ->]| Hin]%elem_of_cons; [lia|eauto].
Qed.

(** The per-vote path of [checkGroupConsensus]: on a non-empty vote with
    well-formed cell ids the consensus is the choice with the highest count,
    ties going to the choice whose first vote came first; on the empty vote
    there is no consensus. *)
Lemma groupConsensus_first_vote (cellIds : list string) :
  cellIds ≠ [] → "" ∉ cellIds →
  ∃ c, groupConsensus cellIds = Some c ∧ FirstVoteWinner cellIds c.
Proof.
  intros Hne Hempty. unfold groupConsensus.
  pose proof (mostCommon_from (countAnswers cellIds) "" 0) as Hmost.
  fold (mostCommon (countAnswers cellIds)) in Hmost.
  rewrite countAnswers_firstOcc in Hmost |- *.
  destruct Hmost as [[_ Hle]|(e1 & e2 & c & n & -> & Hm & Hlt & Hbefore & Hafter)].
  { destruct cellIds as [|x l]; [done|].
    assert (x ∈ x :: l) as Hx by left.
    pose proof Hx as Hpos%votesFor_pos.
    assert (votesFor (x :: l) x ≤ 0); [|lia].
    apply (Hle x), list_elem_of_fmap. exists x. by rewrite elem_of_firstOcc. }
  cbn [fst snd] in *.
  apply fmap_app_inv in Hm as (F1 & F2' & -> & Hcons & HF).
  symmetry in Hcons.
  apply fmap_cons_inv in Hcons as (c' & F2 & [= <- ->] & -> & ->).
  destruct (firstOcc_order _ _ _ _ HF) as (before & after & Hl & Hc & Hsub).
  assert (c ∈ cellIds) as Hin.
  { rewrite Hl, elem_of_app, elem_of_cons. auto. }
  exists c. split.
  { unfold truthy. rewrite bool_decide_eq_false_2; [done|]. by intros ->. }
  exists before, after. split_and!; [done|done| |].
  - intros x. destruct (decide (x ∈ cellIds)) as [Hx|Hx].
    + rewrite <- elem_of_firstOcc, HF, elem_of_app, elem_of_cons in Hx.
      destruct Hx as [Hx|[ -> |Hx]]; [|done|].
      * apply Nat.lt_le_incl, (Hbefore x).
        apply list_elem_of_fmap. by exists x.
      * apply (Hafter x). apply list_elem_of_fmap. by exists x.
    + apply votesFor_zero in Hx. lia.
  - intros x Hx. apply (Hbefore x), list_elem_of_fmap. exists x. auto.
Qed.

Lemma groupConsensus_nil : groupConsensus [] = None.
Proof. reflexivity. Qed.

(** C1.  The reveal-time tally of [handleRevealAnswer] does not break ties by
    the first supporting vote.  The four players of group A send their
    answers A1, B2, B2, A1 in this order: the counts tie at two and the first
    vote is for A1, which is the winner by the first supporting vote.  The
    per-vote path resolves to A1; the reveal path, on the vote map that
    [handlePlayerAnswer] has built from these messages, resolves to B2, the
    choice that reached two votes first. *)
Theorem reveal_tie_break_diverges :
  votesFor ["cell-A1"; "cell-B2"; "cell-B2"; "cell-A1"] "cell-A1" = 2
  ∧ votesFor ["cell-A1"; "cell-B2"; "cell-B2"; "cell-A1"] "cell-B2" = 2
  ∧ FirstVoteWinner ["cell-A1"; "cell-B2"; "cell-B2"; "cell-A1"] "cell-A1"
  ∧ groupConsensus ["cell-A1"; "cell-B2"; "cell-B2"; "cell-A1"] = Some "cell-A1"
  ∧ Coordinator.votesOf "g1" "grpA"
      (Coordinator.run
         [Coordinator.Message 2 "g1" (Coordinator.answer_select "p1" "cell-A1" "A1");
          Coordinator.Message 3 "g1" (Coordinator.answer_select "p2" "cell-B2" "B2");
          Coordinator.Message 6 "g1" (Coordinator.answer_select "p3" "cell-B2" "B2");
          Coordinator.Message 7 "g1" (Coordinator.answer_select "p5" "cell-A1" "A1")]
         (Scenario.world false false)).1
    = Some [("p1", "cell-A1"); ("p2", "cell-B2"); ("p3", "cell-B2");
            ("p5", "cell-A1")]
  ∧ revealConsensus
      (JsMap.values
         [("p1", "cell-A1"); ("p2", "cell-B2"); ("p3", "cell-B2");
          ("p5", "cell-A1")])
    = Some "cell-B2".
Proof.
  split_and!; try reflexivity.
  exists [], ["cell-B2"; "cell-B2"; "cell-A1"]. split_and!.
  - done.
  - apply not_elem_of_nil.
  - intros x.
    change (votesFor ["cell-A1"; "cell-B2"; "cell-B2"; "cell-A1"] "cell-A1") with 2.
    destruct (decide (x = "cell-A1")) as [->|HA]; [done|].
    destruct (decide (x = "cell-B2")) as [->|HB]; [done|].
    assert (x ∉ ["cell-A1"; "cell-B2"; "cell-B2"; "cell-A1"]) as Hx.
    { rewrite !not_elem_of_cons. split_and!; try done. apply not_elem_of_nil. }
    apply votesFor_zero in Hx. lia.
  - by intros x ?%elem_of_nil.
Qed.

End TallyProofs.

(** ** The coordinator *)

Module CoordinatorProofs.

Import Coordinator.

(** *** Running the monad *)

Lemma run_bind {A B} (m : M A) (k : A → M B) w :
  (m ≫= k) w
  = match m w with
    | (Ok a, w', trace) =>
        match k a w' with (r, w'', trace') => (r, w'', trace ++ trace') end
    | (Throw e, w', trace) => (Throw e, w', trace)
    end.
Proof. done. Qed.

Lemma run_tryCatch {A} (body : M A) (handler : string → M A) w :
  tryCatch body handler w
  = match body w with
    | (Ok a, w', trace) => (Ok a, w', trace)
    | (Throw e, w', trace) =>
        match handler e w' with (r, w'', trace') => (r, w'', trace ++ trace') end
    end.
Proof. done. Qed.

Lemma run_store {A} call (method : MemStorage.t → result (A * MemStorage.t)) w :
  store call method w
  = match method (storage w) with
    | Ok (a, st) => (Ok a, set_storage st w, [Stored call])
    | Throw e => (Throw e, w, [])
    end.
Proof. done. Qed.

Lemma set_storage_same w : set_storage (storage w) w = w.
Proof. by destruct w. Qed.

Lemma run_getGameOrThrow gameId w :
  getGameOrThrow gameId w
  = match MemStorage.getGame gameId (storage w) with
    | Some game => (Ok game, w, [])
    | None => (Throw "Game not found", w, [])
    end.
Proof.
  unfold getGameOrThrow. rewrite run_bind. cbn.
  by destruct (MemStorage.getGame gameId (storage w)).
Qed.

(** C8.  A [select_answer] for a player who is in no group of the game is
    answered with one [error] to the socket it came from, and with nothing
    else: no other socket gets a message, no storage method is completed,
    and the world (the stored games and answers, the in-memory votes) is
    as before. *)
Theorem select_answer_outsider (w : World) (ws : nat)
    (gameId playerId cellId : string) :
  (∀ game, MemStorage.getGame gameId (storage w) = Some game →
           Js.findPlayerGroup playerId game = None) →
  onMessage ws gameId (select_answer playerId cellId) w
  = (Ok tt, w, [Sent ws (error "Failed to process message")]).
Proof.
  intros Houtside.
  unfold onMessage, tryCatch, dispatch, handleSelectAnswer.
  destruct (bool_decide (gameId = "") || bool_decide (playerId = "")
            || bool_decide (cellId = "")); [done|].
  rewrite run_bind, run_getGameOrThrow.
  destruct (MemStorage.getGame gameId (storage w)) as [game|] eqn:Hgame; [|done].
  destruct (bool_decide (status game ≠ active)); [done|].
  by rewrite (Houtside game eq_refl).
Qed.

Lemma select_answer_outsider_witness :
  onMessage 5 "g1" (select_answer "px" "cell-B1") (Scenario.world false false)
  = (Ok tt, Scenario.world false false,
     [Sent 5 (error "Failed to process message")]).
Proof.
  apply select_answer_outsider.
  intros game [= <-]. reflexivity.
Defined.

(** *** The game view *)

Lemma sentTo_app ws t1 t2 : sentTo ws (t1 ++ t2) = sentTo ws t1 ++ sentTo ws t2.
Proof. unfold sentTo. apply omap_app. Qed.

Lemma isMember_set_board playerId cells g :
  Js.isMember playerId (set_board cells g) = Js.isMember playerId g.
Proof. done. Qed.

Lemma set_board_same g : set_board (board g) g = g.
Proof. by destruct g. Qed.

Lemma find_fmap_group (p : Group → bool) (h : Group → Group) (gs : list Group) :
  (∀ g, p (h g) = p g) → find p (h <$> gs) = h <$> find p gs.
Proof.
  intros Hp. induction gs as [|g gs IH]; [done|].
  cbn. rewrite Hp. by destruct (p g).
Qed.

Lemma findPlayerGroup_withBoards f playerId game :
  Js.findPlayerGroup playerId (withBoards f game)
  = (λ g, set_board (f g) g) <$> Js.findPlayerGroup playerId game.
Proof. unfold Js.findPlayerGroup. cbn. by apply find_fmap_group. Qed.

Lemma findPlayerGroup_member playerId game g :
  Js.findPlayerGroup playerId game = Some g →
  g ∈ groups game ∧ Js.isMember playerId g = true.
Proof.
  unfold Js.findPlayerGroup. intros [Hin Hp]%find_some.
  by rewrite list_elem_of_In.
Qed.

(** A player's part of [sendGameUpdate] reads the boards of the player's own
    group only. *)
Lemma playerUpdates_withBoards w w' f game ws (connections l : JsMap.t string nat) :
  readyState w' = readyState w →
  (∀ e, e ∈ l → e ∈ connections) →
  (∀ playerId g, (playerId, ws) ∈ connections → g ∈ groups game →
                 Js.isMember playerId g = true → f g = board g) →
  sentTo ws (playerUpdates w' (withBoards f game) l)
  = sentTo ws (playerUpdates w game l).
Proof.
  intros Hready Hsub Hown. induction l as [|[playerId connection] l IH]; [done|].
  unfold playerUpdates in *. cbn [mbind list_bind]. rewrite !sentTo_app.
  rewrite IH by (intros e He; apply Hsub; by right). f_equal.
  unfold isOpen. rewrite Hready.
  destruct (bool_decide (playerId = "host")
            || negb (bool_decide (readyState w !! connection = Some OPEN)));
    [done|].
  rewrite findPlayerGroup_withBoards.
  destruct (Js.findPlayerGroup playerId game) as [g|] eqn:Hgroup; [|done].
  cbn. case_bool_decide as Hws; [|done]. subst connection.
  apply findPlayerGroup_member in Hgroup as [Hin Hmember].
  rewrite (Hown playerId g), set_board_same; [done| |done..].
  apply Hsub. left.
Qed.

Lemma elem_of_playerUpdates w game connections ws msg :
  Sent ws msg ∈ playerUpdates w game connections →
  ∃ playerId playerGroup,
    (playerId, ws) ∈ connections ∧ playerId ≠ "host"
    ∧ Js.findPlayerGroup playerId game = Some playerGroup
    ∧ msg = playerUpdate game playerGroup.
Proof.
  unfold playerUpdates. intros ([playerId connection] & Hsent & Hin)%list_elem_of_bind.
  case_bool_decide as Hhost; [by apply elem_of_nil in Hsent|].
  destruct (negb (isOpen w connection)); [by apply elem_of_nil in Hsent|].
  cbn in Hsent.
  destruct (Js.findPlayerGroup playerId game) as [g|] eqn:Hgroup;
    [|by apply elem_of_nil in Hsent].
  apply list_elem_of_singleton in Hsent as [= -> ->]. eauto 10.
Qed.

(** C9.  The game views that [sendGameUpdate] sends are scoped by role.  A
    message goes either to the host's socket, and is the host view with all
    groups and the current question, or to the socket of a player of some
    group, and is the player view: the scalar fields of the game, the current
    question and that player's own group, with no other group in it.
    Replacing the boards of the other groups in the stored game leaves what
    is sent to the player's socket as it was. *)
Theorem game_update_scoped (w : World) (gameId : string) (game : Game)
    (connections : JsMap.t string nat) :
  MemStorage.getGame gameId (storage w) = Some game →
  gameConnections w !! gameId = Some connections →
  (∀ ws msg, Sent ws msg ∈ gameUpdates w gameId →
     (JsMap.get "host" connections = Some ws
      ∧ msg = game_update_host
                (mkHostView (game_id game) (game_name game) (status game)
                   (boardSize game) (cellSize game) (answerTime game)
                   (groupCount game) (currentQuestion game) (groups game)))
     ∨ ∃ playerId playerGroup,
         (playerId, ws) ∈ connections ∧ playerId ≠ "host"
         ∧ Js.findPlayerGroup playerId game = Some playerGroup
         ∧ msg = game_update_player
                   (mkPlayerView (game_id game) (game_name game) (status game)
                      (boardSize game) (cellSize game) (currentQuestion game)
                      playerGroup))
  ∧ (∀ f ws,
       JsMap.get "host" connections ≠ Some ws →
       (∀ playerId g, (playerId, ws) ∈ connections → g ∈ groups game →
                      Js.isMember playerId g = true → f g = board g) →
       sentTo ws (gameUpdates (withGame gameId (withBoards f game) w) gameId)
       = sentTo ws (gameUpdates w gameId)).
Proof.
  intros Hgame Hconn. split.
  - intros ws msg. unfold gameUpdates. rewrite Hgame, Hconn, elem_of_app.
    intros [Hhost|Hplayer].
    + left. destruct (JsMap.get "host" connections) as [hostConnection|];
        [|by apply elem_of_nil in Hhost].
      destruct (isOpen w hostConnection); [|by apply elem_of_nil in Hhost].
      by apply list_elem_of_singleton in Hhost as [= -> ->].
    + right. by apply elem_of_playerUpdates in Hplayer.
  - intros f ws Hnothost Hown. unfold gameUpdates.
    assert (MemStorage.getGame gameId (storage (withGame gameId (withBoards f game) w))
            = Some (withBoards f game)) as ->.
    { unfold MemStorage.getGame. cbn. apply lookup_insert_eq. }
    change (gameConnections (withGame gameId (withBoards f game) w))
      with (gameConnections w).
    rewrite Hgame, Hconn, !sentTo_app. f_equal.
    + destruct (JsMap.get "host" connections) as [hostConnection|]; [|done].
      unfold isOpen. cbn [withGame set_storage readyState].
      destruct (bool_decide (readyState w !! hostConnection = Some OPEN)); [|done].
      cbn. rewrite !bool_decide_eq_false_2; [done|congruence..].
    + by apply (playerUpdates_withBoards w _ f game ws connections).
Qed.

(** The boards of group B change; what player [p1] of group A is sent does
    not. *)
Lemma game_update_scoped_witness :
  sentTo 2
    (gameUpdates
       (withGame "g1"
          (withBoards (λ g, if bool_decide (group_id g = "grpB")
                            then [] else board g)
             (Scenario.game false false))
          (Scenario.world false false)) "g1")
  = sentTo 2 (gameUpdates (Scenario.world false false) "g1").
Proof.
  destruct (game_update_scoped (Scenario.world false false) "g1"
              (Scenario.game false false) Scenario.connections
              eq_refl eq_refl) as [_ Hsame].
  apply Hsame.
  - discriminate.
  - intros playerId g Hconn Hg Hmember. case_bool_decide as HB; [|done].
    exfalso.
    assert (playerId = "p1") as ->.
    { unfold Scenario.connections in Hconn.
      repeat (apply elem_of_cons in Hconn as [[=]|Hconn]; subst; try done).
      by apply elem_of_nil in Hconn. }
    unfold Scenario.game in Hg. cbn in Hg.
    repeat (apply elem_of_cons in Hg as [->|Hg]; try done).
    by apply elem_of_nil in Hg.
Defined.

(** *** Advancing the question *)

Lemma withGame_withGame gameId g1 g2 w :
  withGame gameId g2 (withGame gameId g1 w) = withGame gameId g2 w.
Proof.
  unfold withGame, MemStorage.putGame. cbn.
  by rewrite insert_insert_eq.
Qed.


Lemma getGame_withGame gameId g w :
  MemStorage.getGame gameId (storage (withGame gameId g w)) = Some g.
Proof. unfold MemStorage.getGame. cbn. apply lookup_insert_eq. Qed.

Lemma handleNextQuestion_exhausted w gameId game :
  MemStorage.getGame gameId (storage w) = Some game →
  status game = active →
  find (λ q, negb (used q)) (questions game) = None →
  let w' := withGame gameId (set_status completed game) w in
  handleNextQuestion gameId w
  = (Ok tt, w',
     [Stored (GetNextQuestion gameId); Stored (UpdateGameStatus gameId completed)]
     ++ broadcast w' gameId (game_over "All questions have been answered")
     ++ gameUpdates w' gameId).
Proof.
  intros Hgame Hactive Hfind.
  unfold handleNextQuestion.
  rewrite run_bind, run_getGameOrThrow, Hgame.
  rewrite bool_decide_eq_false_2 by (rewrite Hactive; auto).
  rewrite run_bind, run_store. unfold MemStorage.getNextQuestion.
  rewrite Hgame, Hfind, set_storage_same.
  rewrite run_bind, run_store. unfold MemStorage.updateGameStatus. rewrite Hgame.
  done.
Qed.

Lemma handleNextQuestion_fetched w gameId game q :
  MemStorage.getGame gameId (storage w) = Some game →
  status game = active →
  find (λ q, negb (used q)) (questions game) = Some q →
  let current := mkCurrent (question_id q) (question q) (answerTime game) in
  let questions' :=
    Js.updateFirst (λ q, negb (used q)) set_used (questions game) in
  let w' :=
    withGame gameId
      (set_currentQuestion (Some current) (set_questions questions' game)) w in
  handleNextQuestion gameId w
  = (Ok tt, w',
     [Stored (GetNextQuestion gameId);
      Stored (UpdateCurrentQuestion gameId current)]
     ++ gameUpdates w' gameId).
Proof.
  intros Hgame Hactive Hfind.
  unfold handleNextQuestion.
  rewrite run_bind, run_getGameOrThrow, Hgame.
  rewrite bool_decide_eq_false_2 by (rewrite Hactive; auto).
  rewrite run_bind, run_store. unfold MemStorage.getNextQuestion.
  rewrite Hgame, Hfind.
  fold (withGame gameId
          (set_questions
             (Js.updateFirst (λ q, negb (used q)) set_used (questions game)) game) w).
  rewrite run_bind, run_store. unfold MemStorage.updateCurrentQuestion.
  rewrite getGame_withGame.
  fold (withGame gameId
          (set_currentQuestion
             (Some (mkCurrent (question_id q) (question q) (answerTime game)))
             (set_questions
                (Js.updateFirst (λ q, negb (used q)) set_used (questions game)) game))
          (withGame gameId
             (set_questions
                (Js.updateFirst (λ q, negb (used q)) set_used (questions game)) game) w)).
  rewrite withGame_withGame. done.
Qed.






(** *** Revealing twice *)

Lemma gameUpdates_isGameUpdate w gameId a :
  a ∈ gameUpdates w gameId → isGameUpdate a = true.
Proof.
  unfold gameUpdates.
  destruct (MemStorage.getGame gameId (storage w)) as [game|];
    [|by intros ?%elem_of_nil].
  destruct (gameConnections w !! gameId) as [connections|];
    [|by intros ?%elem_of_nil].
  rewrite elem_of_app. intros [Hhost|Hplayer].
  - destruct (JsMap.get "host" connections) as [hostConnection|];
      [|by apply elem_of_nil in Hhost].
    destruct (isOpen w hostConnection); [|by apply elem_of_nil in Hhost].
    by apply list_elem_of_singleton in Hhost as ->.
  - unfold playerUpdates in Hplayer.
    apply list_elem_of_bind in Hplayer as ([playerId connection] & Ha & _).
    destruct (bool_decide (playerId = "host") || negb (isOpen w connection));
      [by apply elem_of_nil in Ha|].
    destruct (Js.findPlayerGroup playerId game);
      [|by apply elem_of_nil in Ha].
    by apply list_elem_of_singleton in Ha as ->.
Qed.

(** With no vote in flight the loop over the groups does nothing. *)
Lemma revealGroups_noVotes gameId game gs w :
  noVotes gameId w →
  forEach gs (revealGroup gameId game) w = (Ok tt, w, []).
Proof.
  intros Hnone. induction gs as [|g gs IH]; [done|].
  cbn [forEach]. rewrite run_bind.
  assert (revealGroup gameId game g w = (Ok tt, w, [])) as ->.
  { unfold revealGroup. rewrite run_bind. cbn.
    destruct (votesOf gameId (group_id g) w) as [groupAnswers|] eqn:Hvotes; [|done].
    by rewrite (Hnone _ _ Hvotes). }
  by rewrite IH.
Qed.

Lemma noVotes_clearAnswers gameId w : noVotes gameId (clearAnswers gameId w).
Proof.
  intros groupId groupAnswers. unfold clearAnswers, votesOf.
  destruct (gameAnswers w !! gameId) as [ofGame|] eqn:Hgame.
  - cbn. rewrite lookup_insert_eq. cbn. by rewrite lookup_empty.
  - by rewrite Hgame.
Qed.

(** Recording for the player ["group"] fails where no player has that id. *)
Lemma recordPlayerAnswer_noProxy gameId groupId cellId time w :
  Round.noProxy gameId w →
  ∃ e, MemStorage.recordPlayerAnswer gameId "group" groupId cellId time (storage w)
       = Throw e.
Proof.
  intros Hnone. unfold MemStorage.recordPlayerAnswer.
  destruct (MemStorage.getGame gameId (storage w)) as [game|] eqn:Hgame;
    [|by eexists].
  destruct (Js.findGroup groupId game) as [group|] eqn:Hgroup; [|by eexists].
  rewrite (Hnone game group); [by eexists|done|].
  apply find_some in Hgroup as [Hin _]. by apply list_elem_of_In.
Qed.

(** Where no player has the id ["group"], the loop of the reveal stops at the
    first group with a vote to record, with nothing done. *)
Lemma revealGroups_noProxy gameId game gs w :
  Round.noProxy gameId w →
  forEach gs (revealGroup gameId game) w = (Ok tt, w, [])
  ∨ ∃ e, forEach gs (revealGroup gameId game) w = (Throw e, w, []).
Proof.
  intros Hnone. induction gs as [|g gs IH]; [by left|].
  cbn [forEach]. rewrite run_bind.
  assert (revealGroup gameId game g w = (Ok tt, w, [])
          ∨ ∃ e, revealGroup gameId game g w = (Throw e, w, [])) as [->| [e ->]].
  { unfold revealGroup. rewrite run_bind. cbn [world].
    destruct (votesOf gameId (group_id g) w) as [groupAnswers|]; [|by left].
    case_bool_decide; [by left|].
    destruct (Tally.revealConsensus (JsMap.values groupAnswers)) as [c|];
      [|by left].
    right.
    destruct (recordPlayerAnswer_noProxy gameId (group_id g) c (now w) w Hnone)
      as [e He].
    exists e. rewrite run_bind, run_store, He. done. }
  - destruct IH as [->|[e ->]]; [by left|right; by exists e].
  - right. by exists e.
Qed.

Lemma handleRevealAnswer_noProxy gameId cellId pos w :
  Round.noProxy gameId w →
  ∃ w' trace,
    handleRevealAnswer gameId cellId pos w = (Ok tt, w', trace)
    ∧ storage w' = storage w
    ∧ ∀ a, a ∈ trace → isGameUpdate a = true.
Proof.
  intros Hnone. unfold handleRevealAnswer, revealAnswers.
  rewrite run_tryCatch, run_bind, run_getGameOrThrow.
  destruct (MemStorage.getGame gameId (storage w)) as [game|] eqn:Hgame.
  2:{ exists w, []. split_and!; try done. by intros a ?%elem_of_nil. }
  case_bool_decide.
  { exists w, []. split_and!; try done. by intros a ?%elem_of_nil. }
  rewrite run_bind.
  destruct (revealGroups_noProxy gameId game (groups game) w Hnone)
    as [->|[e ->]].
  - exists (clearAnswers gameId w), (gameUpdates (clearAnswers gameId w) gameId).
    split_and!; [done| |apply gameUpdates_isGameUpdate].
    unfold clearAnswers. by destruct (gameAnswers w !! gameId).
  - exists w, []. split_and!; try done. by intros a ?%elem_of_nil.
Qed.

(** C3.  A reveal that runs through clears the in-memory votes of the game;
    a reveal that finds them cleared is a no-op on the game: it completes no
    storage method, so no group answer is set and no bingo recorded, the
    storage is as before, no [bingo_achieved] is sent (only the game view
    is sent again), and the votes are still cleared.  A reveal that finds a
    vote records the answer of the group for the player ["group"]; in a game
    in which no player has that id this recording fails, the reveal stops
    there with nothing stored and the votes as they are, and so does the
    second reveal: neither completes a storage method nor sends a
    [bingo_achieved]. *)
Theorem second_reveal_noop (gameId : string) :
  (∀ w w1 trace1,
     revealAnswers gameId w = (Ok tt, w1, trace1) → noVotes gameId w1)
  ∧ (∀ w1 cellId pos,
       noVotes gameId w1 →
       ∃ w2 trace2,
         handleRevealAnswer gameId cellId pos w1 = (Ok tt, w2, trace2)
         ∧ storage w2 = storage w1
         ∧ noVotes gameId w2
         ∧ (∀ a, a ∈ trace2 → isGameUpdate a = true)
         ∧ (∀ call, Stored call ∉ trace2)
         ∧ (∀ ws groupId groupName members pattern size,
              Sent ws (bingo_achieved groupId groupName members pattern size)
              ∉ trace2))
  ∧ (∀ w cellId pos cellId' pos',
       Round.noProxy gameId w →
       ∃ w1 trace1 w2 trace2,
         handleRevealAnswer gameId cellId pos w = (Ok tt, w1, trace1)
         ∧ handleRevealAnswer gameId cellId' pos' w1 = (Ok tt, w2, trace2)
         ∧ storage w1 = storage w
         ∧ storage w2 = storage w
         ∧ (∀ call, Stored call ∉ trace1 ++ trace2)
         ∧ (∀ ws groupId groupName members pattern size,
              Sent ws (bingo_achieved groupId groupName members pattern size)
              ∉ trace1 ++ trace2)).
Proof.
  split_and!.
  - intros w w1 trace1. unfold revealAnswers.
    rewrite run_bind, run_getGameOrThrow.
    destruct (MemStorage.getGame gameId (storage w)) as [game|]; [|done].
    case_bool_decide; [done|].
    rewrite run_bind.
    destruct (forEach (groups game) (revealGroup gameId game) w)
      as [[[[]|e] w'] t]; [|done].
    cbn. intros [= <- _]. apply noVotes_clearAnswers.
  - intros w1 cellId pos Hnone.
    assert (∃ w2 trace2,
              handleRevealAnswer gameId cellId pos w1 = (Ok tt, w2, trace2)
              ∧ storage w2 = storage w1 ∧ noVotes gameId w2
              ∧ ∀ a, a ∈ trace2 → isGameUpdate a = true)
      as (w2 & trace2 & Hrun & Hst & Hnone2 & Hupd).
    { unfold handleRevealAnswer, revealAnswers.
      rewrite run_tryCatch, run_bind, run_getGameOrThrow.
      destruct (MemStorage.getGame gameId (storage w1)) as [game|] eqn:Hgame.
      2:{ exists w1, []. split_and!; try done. by intros a ?%elem_of_nil. }
      case_bool_decide.
      { exists w1, []. split_and!; try done. by intros a ?%elem_of_nil. }
      rewrite run_bind, revealGroups_noVotes by done.
      exists (clearAnswers gameId w1), (gameUpdates (clearAnswers gameId w1) gameId).
      split_and!; [done| |apply noVotes_clearAnswers|].
      - unfold clearAnswers. by destruct (gameAnswers w1 !! gameId).
      - apply gameUpdates_isGameUpdate. }
    exists w2, trace2. split_and!; try done.
    + intros call Hin. by apply Hupd in Hin.
    + intros ws ????? Hin. by apply Hupd in Hin.
  - intros w cellId pos cellId' pos' Hnone.
    destruct (handleRevealAnswer_noProxy gameId cellId pos w Hnone)
      as (w1 & trace1 & Hrun1 & Hst1 & Hupd1).
    assert (Round.noProxy gameId w1) as Hnone1.
    { unfold Round.noProxy. by rewrite Hst1. }
    destruct (handleRevealAnswer_noProxy gameId cellId' pos' w1 Hnone1)
      as (w2 & trace2 & Hrun2 & Hst2 & Hupd2).
    exists w1, trace1, w2, trace2. split_and!; [done|done|done|congruence| |].
    + intros call [Hin|Hin]%elem_of_app; [by apply Hupd1 in Hin|by apply Hupd2 in Hin].
    + intros ws ????? [Hin|Hin]%elem_of_app;
        [by apply Hupd1 in Hin|by apply Hupd2 in Hin].
Qed.

(** The host selects B1 and Ann votes for it.  In the game of [Scenario] the
    reveal finds her vote and stops at the recording, and so does the second
    reveal: nothing is stored, no bingo is sent, her vote stays.  With a
    player called ["group"] in the groups the first reveal records the answer
    of group A, marks B1, finds the top row complete and sends the bingo, and
    clears the votes; the second reveal stores nothing and sends no bingo. *)
Lemma second_reveal_noop_witness :
  (votesOf "g1" "grpA" (Round.voted (Scenario.world false false))
   = Some [("p1", "cell-B1")]
   ∧ ∃ w1 trace1 w2 trace2,
       handleRevealAnswer "g1" "cell-B1" "B1"
         (Round.voted (Scenario.world false false)) = (Ok tt, w1, trace1)
       ∧ handleRevealAnswer "g1" "cell-B1" "B1" w1 = (Ok tt, w2, trace2)
       ∧ storage w2 = storage (Scenario.world false false)
       ∧ (∀ call, Stored call ∉ trace1 ++ trace2)
       ∧ (∀ ws groupId groupName members pattern size,
            Sent ws (bingo_achieved groupId groupName members pattern size)
            ∉ trace1 ++ trace2))
  ∧ (votesOf "g1" "grpA" (Round.voted Round.proxied) = Some [("p1", "cell-B1")]
     ∧ Stored (SetGroupAnswer "g1" "grpA" "cell-B1")
       ∈ (handleRevealAnswer "g1" "cell-B1" "B1" (Round.voted Round.proxied)).2
     ∧ existsb (bingoFor "grpA")
         (handleRevealAnswer "g1" "cell-B1" "B1" (Round.voted Round.proxied)).2
       = true
     ∧ ∃ w2 trace2,
         handleRevealAnswer "g1" "cell-B1" "B1"
           (handleRevealAnswer "g1" "cell-B1" "B1"
              (Round.voted Round.proxied)).1.2
         = (Ok tt, w2, trace2)
         ∧ storage w2
           = storage (handleRevealAnswer "g1" "cell-B1" "B1"
                        (Round.voted Round.proxied)).1.2
         ∧ (∀ call, Stored call ∉ trace2)
         ∧ (∀ ws groupId groupName members pattern size,
              Sent ws (bingo_achieved groupId groupName members pattern size)
              ∉ trace2)).
Proof.
  destruct (second_reveal_noop "g1") as (Hclears & Hnoop & Hstops).
  split.
  - split; [reflexivity|].
    destruct (Hstops (Round.voted (Scenario.world false false))
                "cell-B1" "B1" "cell-B1" "B1")
      as (w1 & trace1 & w2 & trace2 & Hrun1 & Hrun2 & Hst1 & Hst2 & Hstored & Hbingo).
    { intros game group Hgame Hin. vm_compute in Hgame. simplify_eq.
      cbn in Hin. rewrite !elem_of_cons in Hin.
      destruct Hin as [->|[->|Hin]]; [reflexivity..|by apply elem_of_nil in Hin]. }
    exists w1, trace1, w2, trace2.
    split; [exact Hrun1|]. split; [exact Hrun2|]. split; [exact Hst2|].
    split; [exact Hstored|exact Hbingo].
  - split; [reflexivity|]. split; [vm_compute; set_solver|].
    split; [vm_compute; reflexivity|].
    set (w1 := (handleRevealAnswer "g1" "cell-B1" "B1"
                  (Round.voted Round.proxied)).1.2).
    assert (noVotes "g1" w1) as Hnone.
    { apply (Hclears (Round.voted Round.proxied) w1
               (handleRevealAnswer "g1" "cell-B1" "B1"
                  (Round.voted Round.proxied)).2).
      vm_compute. reflexivity. }
    destruct (Hnoop w1 "cell-B1" "B1" Hnone)
      as (w2 & trace2 & Hrun & Hst & _ & _ & Hstored & Hbingo).
    exists w2, trace2.
    split; [exact Hrun|]. split; [exact Hst|]. split; [exact Hstored|exact Hbingo].
Defined.

End CoordinatorProofs.

(** ** Votes and re-votes *)

Module VoteProofs.

Import Tally JsMapProofs TallyProofs.







Lemma votesFor_cons x l c :
  votesFor (x :: l) c = (if bool_decide (x = c) then 1 else 0) + votesFor l c.
Proof.
  unfold votesFor. cbn. destruct (string_dec x c); case_bool_decide; done.
Qed.



Lemma get_countAnswers l c :
  JsMap.get c (countAnswers l)
  = if bool_decide (c ∈ l) then Some (votesFor l c) else None.
Proof.
  rewrite countAnswers_firstOcc, get_tabled.
  apply (f_equal (λ b : bool, if b then Some (votesFor l c) else None)).
  apply bool_decide_ext, elem_of_firstOcc.
Qed.




(** *** The stored answers *)








(** *** The in-memory votes *)

Lemma votesOf_recordVote gameId groupId p c w :
  Coordinator.votesOf gameId groupId (Coordinator.recordVote gameId groupId p c w)
  = Some (JsMap.set p c (default [] (Coordinator.votesOf gameId groupId w))).
Proof.
  unfold Coordinator.votesOf, Coordinator.recordVote. cbn.
  rewrite lookup_insert_eq. cbn. rewrite lookup_insert_eq.
  by destruct (Coordinator.gameAnswers w !! gameId).
Qed.


End VoteProofs.

(** ** The SQL storage *)

Module DatabaseProofs.

Import Tally JsMapProofs TallyProofs VoteProofs.

Section DatabaseProofs.

Variable before : string → string → bool.

(** *** The groups table *)

Lemma groupRows_refl rows : Forall2 DatabaseStorage.groupRowKept rows rows.
Proof. induction rows; constructor; done. Qed.

Lemma groupRows_trans rows1 rows2 rows3 :
  Forall2 DatabaseStorage.groupRowKept rows1 rows2 →
  Forall2 DatabaseStorage.groupRowKept rows2 rows3 →
  Forall2 DatabaseStorage.groupRowKept rows1 rows3.
Proof.
  intros H12. revert rows3.
  induction H12 as [|g1 g2 rows1 rows2 [Hid Hb] _ IH];
    intros rows3 H23; inversion H23 as [|? g3 ? rows3' [Hid' Hb'] H23']; subst;
    constructor; [|by apply IH].
  split; [congruence|auto].
Qed.

(** No writing method takes a bingo back from a row of the groups table:
    only [setGroupBingo] assigns [hasBingo], and it assigns [true]. *)
Lemma perform_groupRows c db :
  Forall2 DatabaseStorage.groupRowKept
    (DatabaseStorage.groups db)
    (DatabaseStorage.groups (DatabaseStorage.perform before c db)).
Proof.
  destruct c; cbn.
  - apply groupRows_refl.
  - unfold DatabaseStorage.getNextQuestion.
    repeat case_match; simplify_eq; apply groupRows_refl.
  - apply groupRows_refl.
  - unfold DatabaseStorage.recordPlayerAnswer.
    repeat case_match; simplify_eq; apply groupRows_refl.
  - unfold DatabaseStorage.setGroupAnswer.
    repeat case_match; simplify_eq; apply groupRows_refl.
  - unfold DatabaseStorage.updateWhere.
    induction (DatabaseStorage.groups db) as [|g rows IH]; constructor; [|done].
    case_bool_decide; done.
Qed.

Lemma performAll_groupRows calls db :
  Forall2 DatabaseStorage.groupRowKept
    (DatabaseStorage.groups db)
    (DatabaseStorage.groups
       (foldl (λ db c, DatabaseStorage.perform before c db) db calls)).
Proof.
  revert db. induction calls as [|c calls IH]; intros db; [apply groupRows_refl|].
  cbn [foldl]. eapply groupRows_trans; [apply perform_groupRows|apply IH].
Qed.

(** *** The answers table *)










End DatabaseProofs.

End DatabaseProofs.

(** ** Properties that compose along a handler *)

Module Compositional.

Import Coordinator CoordinatorProofs.

Section Compositional.

(** A property of runs that holds of the empty run and of the sequence of
    two runs that have it. *)
Variable P : World → World → list Action → Prop.
Hypothesis P_refl : ∀ w, P w w [].
Hypothesis P_trans :
  ∀ w1 w2 w3 t1 t2, P w1 w2 t1 → P w2 w3 t2 → P w1 w3 (t1 ++ t2).

Lemma sat_ret {A} (a : A) : satisfies P (mret a).
Proof. intros w. apply P_refl. Qed.

Lemma sat_throw {A} e : satisfies P (throw e : M A).
Proof. intros w. apply P_refl. Qed.

Lemma sat_world : satisfies P world.
Proof. intros w. apply P_refl. Qed.

Lemma sat_bind {A B} (m : M A) (k : A → M B) :
  satisfies P m → (∀ a, satisfies P (k a)) → satisfies P (m ≫= k).
Proof.
  intros Hm Hk w. rewrite run_bind. specialize (Hm w).
  destruct (m w) as [[[a|e] w1] t1]; [|done].
  specialize (Hk a w1). destruct (k a w1) as [[r w2] t2]. cbn in *.
  by apply (P_trans _ w1).
Qed.

Lemma sat_tryCatch {A} (body : M A) (handler : string → M A) :
  satisfies P body → (∀ e, satisfies P (handler e)) →
  satisfies P (tryCatch body handler).
Proof.
  intros Hbody Hhandler w. rewrite run_tryCatch. specialize (Hbody w).
  destruct (body w) as [[[a|e] w1] t1]; [done|].
  specialize (Hhandler e w1). destruct (handler e w1) as [[r w2] t2]. cbn in *.
  by apply (P_trans _ w1).
Qed.

Lemma sat_forEach {A} (xs : list A) (body : A → M unit) :
  (∀ x, satisfies P (body x)) → satisfies P (forEach xs body).
Proof.
  intros Hbody. induction xs as [|x xs IH]; [exact (sat_ret tt)|].
  cbn [forEach]. apply sat_bind; [apply Hbody|]. by intros _.
Qed.

Lemma sat_update (f : World → World) :
  (∀ w, P w (f w) []) → satisfies P (update f).
Proof. intros Hf w. apply Hf. Qed.

Lemma sat_emit (t : list Action) : (∀ w, P w w t) → satisfies P (emit t).
Proof. intros Ht w. apply Ht. Qed.

Lemma sat_store {A} call (method : MemStorage.t → result (A * MemStorage.t)) :
  (∀ w a st, method (storage w) = Ok (a, st) →
             P w (set_storage st w) [Stored call]) →
  satisfies P (store call method).
Proof.
  intros Hmethod w. rewrite run_store.
  destruct (method (storage w)) as [[a st]|e] eqn:Hrun; [|apply P_refl].
  by apply (Hmethod w a st).
Qed.

Lemma sat_getGameOrThrow gameId : satisfies P (getGameOrThrow gameId).
Proof.
  intros w. rewrite run_getGameOrThrow.
  destruct (MemStorage.getGame gameId (storage w)); apply P_refl.
Qed.

End Compositional.

(** One step of the structural proof that a handler has a property. *)
Ltac sat_step Prefl Ptrans :=
  first
    [ apply (sat_ret _ Prefl)
    | apply (sat_throw _ Prefl)
    | apply (sat_world _ Prefl)
    | apply (sat_getGameOrThrow _ Prefl)
    | apply (sat_bind _ Ptrans); [|intros ?]
    | apply (sat_tryCatch _ Ptrans); [|intros ?]
    | apply (sat_forEach _ Prefl Ptrans); intros ?
    | apply sat_update; intros ?
    | apply sat_emit; intros ?
    | apply (sat_store _ Prefl); intros ? ? ? ?
    | match goal with
      | |- satisfies _ (match ?x with _ => _ end) => destruct x eqn:?
      end ].

(** *** No error is sent by a handler *)

Lemma noError_refl w : noError w w [].
Proof. by intros a ?%elem_of_nil. Qed.

Lemma noError_trans w1 w2 w3 t1 t2 :
  noError w1 w2 t1 → noError w2 w3 t2 → noError w1 w3 (t1 ++ t2).
Proof. intros H1 H2 a [?|?]%elem_of_app; auto. Qed.

Lemma noError_broadcast w w' gameId msg :
  isError (Sent 0 msg) = false → noError w w (broadcast w' gameId msg).
Proof.
  intros Hmsg a. unfold broadcast.
  destruct (gameConnections w' !! gameId); [|by intros ?%elem_of_nil].
  by intros (e & -> & _)%list_elem_of_fmap.
Qed.

Lemma noError_gameUpdates w w' gameId : noError w w (gameUpdates w' gameId).
Proof.
  intros a Ha%gameUpdates_isGameUpdate. by destruct a as [ws []|].
Qed.

Lemma noError_bind {A} w (l : list A) (f : A → list Action) :
  (∀ x a, a ∈ f x → isError a = false) → noError w w (l ≫= f).
Proof. intros Hf a (x & Ha & _)%list_elem_of_bind. eauto. Qed.

Ltac noError_leaf :=
  first
    [ apply noError_refl
    | apply noError_gameUpdates
    | apply noError_broadcast; reflexivity
    | by intros ? [->|?%elem_of_nil]%elem_of_cons
    | apply noError_bind; intros ? ?;
      repeat (case_match; try by intros ?%elem_of_nil);
      by intros ->%list_elem_of_singleton
    | repeat case_match;
      first [ apply noError_refl
            | by intros ? [->|?%elem_of_nil]%elem_of_cons ] ].

Lemma noError_sendGameUpdate gameId : satisfies noError (sendGameUpdate gameId).
Proof.
  unfold sendGameUpdate. repeat sat_step noError_refl noError_trans.
  apply noError_gameUpdates.
Qed.

Lemma noError_sendAll gameId msg :
  isError (Sent 0 msg) = false → satisfies noError (sendAll gameId msg).
Proof.
  intros Hmsg. unfold sendAll. repeat sat_step noError_refl noError_trans.
  by apply noError_broadcast.
Qed.

Lemma noError_checkBingo gameId group size :
  satisfies noError (checkBingo gameId group size).
Proof.
  unfold checkBingo. repeat sat_step noError_refl noError_trans;
    first [noError_leaf | by apply noError_sendAll].
Qed.

(** The handlers send no [error] themselves; only the message handler does,
    after a throw. *)
Lemma noError_dispatch gameId data : satisfies noError (dispatch gameId data).
Proof.
  destruct data;
    unfold dispatch, handleStartGame, handleEndGame, handleNextQuestion,
      handleSelectAnswer, checkGroupConsensus, handleHostSelection,
      handlePlayerAnswer, handleRevealAnswer, revealAnswers, revealGroup;
    repeat sat_step noError_refl noError_trans;
    first [ noError_leaf
          | apply noError_sendGameUpdate
          | by apply noError_sendAll
          | apply noError_checkBingo ].
Qed.

End Compositional.

(** ** Errors of the handlers *)

Module ErrorProofs.

Import Coordinator CoordinatorProofs Compositional.

Lemma total_ret {A} (a : A) : total (mret a).
Proof. intros w. by exists a. Qed.

Lemma total_emit t : total (emit t).
Proof. intros w. by exists tt. Qed.

Lemma total_update f : total (update f).
Proof. intros w. by exists tt. Qed.

Lemma total_bind {A B} (m : M A) (k : A → M B) :
  total m → (∀ a, total (k a)) → total (m ≫= k).
Proof.
  intros Hm Hk w. rewrite run_bind. destruct (Hm w) as [a Ha].
  destruct (m w) as [[r w1] t1]. cbn in Ha. subst r.
  destruct (Hk a w1) as [b Hb]. destruct (k a w1) as [[r w2] t2]. by exists b.
Qed.

(** A [catch] that only logs makes the handler total, whatever it runs. *)
Lemma total_swallow (body : M unit) : total (tryCatch body (λ _, mret tt)).
Proof.
  intros w. rewrite run_tryCatch. destruct (body w) as [[[[]|e] w1] t1];
    by exists tt.
Qed.

Lemma total_sendGameUpdate gameId : total (sendGameUpdate gameId).
Proof. intros w. by exists tt. Qed.

Lemma total_sendAll gameId msg : total (sendAll gameId msg).
Proof. intros w. by exists tt. Qed.

Lemma clean_total {A} (m : M A) : total m → clean m.
Proof. intros Hm w e He. destruct (Hm w) as [a Ha]. congruence. Qed.

Lemma clean_throw {A} e : clean (throw e : M A).
Proof. by intros w e' _. Qed.

Lemma clean_store {A} call (method : MemStorage.t → result (A * MemStorage.t)) :
  clean (store call method).
Proof.
  intros w e. rewrite run_store. by destruct (method (storage w)) as [[a st]|].
Qed.

(** A throw of the first part, or none at all. *)
Lemma clean_bind_total {A B} (m : M A) (k : A → M B) :
  clean m → (∀ a, total (k a)) → clean (m ≫= k).
Proof.
  intros Hm Hk w e. rewrite run_bind. specialize (Hm w).
  destruct (m w) as [[[a|e'] w1] t1]; cbn in *.
  - destruct (Hk a w1) as [b Hb]. destruct (k a w1) as [[r w2] t2].
    cbn in *. congruence.
  - intros [= <-]. by apply (Hm e').
Qed.

(** After a part that only reads. *)
Lemma clean_bind_game gameId {B} (k : Game → M B) :
  (∀ game, clean (k game)) → clean (getGameOrThrow gameId ≫= k).
Proof.
  intros Hk w e. rewrite run_bind, run_getGameOrThrow.
  destruct (MemStorage.getGame gameId (storage w)) as [game|]; [|done].
  specialize (Hk game w e). destruct (k game w) as [[r w1] t1]. cbn in *.
  intros Hr. by destruct (Hk Hr) as [-> ->].
Qed.

Lemma clean_handleStartGame gameId : clean (handleStartGame gameId).
Proof.
  apply clean_bind_game. intros game. case_bool_decide; [apply clean_throw|].
  apply clean_bind_total; [apply clean_store|]. intros _.
  apply total_sendGameUpdate.
Qed.

Lemma clean_handleEndGame gameId : clean (handleEndGame gameId).
Proof.
  apply clean_bind_game. intros game. case_bool_decide; [apply clean_throw|].
  apply clean_bind_total; [apply clean_store|]. intros _.
  apply total_bind; [apply total_sendAll|]. intros _. apply total_sendGameUpdate.
Qed.

(** The two storage calls of [handleNextQuestion] are on the game that the
    handler has just read, so the second does not fail after the first. *)
Lemma clean_handleNextQuestion gameId : clean (handleNextQuestion gameId).
Proof.
  intros w e He.
  destruct (MemStorage.getGame gameId (storage w)) as [game|] eqn:Hgame.
  2:{ revert He. unfold handleNextQuestion.
      rewrite run_bind, run_getGameOrThrow, Hgame. done. }
  destruct (decide (status game = active)) as [Hactive|Hother].
  2:{ revert He. unfold handleNextQuestion.
      rewrite run_bind, run_getGameOrThrow, Hgame.
      by rewrite bool_decide_eq_true_2. }
  destruct (find (λ q, negb (used q)) (questions game)) as [q|] eqn:Hfind.
  - by rewrite (handleNextQuestion_fetched w gameId game q) in He.
  - by rewrite (handleNextQuestion_exhausted w gameId game) in He.
Qed.

Lemma clean_handleSelectAnswer gameId playerId cellId :
  clean (handleSelectAnswer gameId playerId cellId).
Proof.
  unfold handleSelectAnswer.
  destruct (bool_decide (gameId = "") || bool_decide (playerId = "")
            || bool_decide (cellId = "")); [apply clean_throw|].
  apply clean_bind_game. intros game. case_bool_decide; [apply clean_throw|].
  destruct (Js.findPlayerGroup playerId game) as [playerGroup|];
    [|apply clean_throw].
  intros w e. rewrite run_bind. cbn [world].
  match goal with
  | |- context [(?m ≫= ?k) w] => assert (clean (m ≫= k)) as Hrest
  end.
  { apply clean_bind_total; [apply clean_store|].
    intros _. apply total_bind; [apply total_swallow|].
    intros _. apply total_sendGameUpdate. }
  specialize (Hrest w e).
  destruct ((store _ _ ≫= _) w) as [[r w1] t1]. exact Hrest.
Qed.

Lemma clean_dispatch gameId data : clean (dispatch gameId data).
Proof.
  destruct data; cbn [dispatch].
  - apply clean_handleStartGame.
  - apply clean_handleEndGame.
  - apply clean_handleNextQuestion.
  - apply clean_handleSelectAnswer.
  - apply clean_total, total_swallow.
  - apply clean_total, total_swallow.
  - apply clean_total, total_swallow.
  - apply clean_total, total_ret.
  - apply clean_throw.
Qed.

(** On [MemStorage], whose methods fail only with the errors that they
    throw themselves.  The handling of a message either completes, and then
    no [error] is sent, or it throws, and then nothing of the event has
    taken effect: the world (the stored games with their status, the stored
    answers, the in-memory votes) is as before, no storage method was
    completed, and the one message is the [error] to the socket the message
    came from.  The consensus step of [select_answer] and the handlers of
    [host_selected], [answer_select] and [reveal_answer] catch what is thrown
    in them and complete. *)
Theorem message_error_is_clean :
  (∀ ws gameId data w,
     (∃ w' trace,
        dispatch gameId data w = (Ok tt, w', trace)
        ∧ onMessage ws gameId data w = (Ok tt, w', trace)
        ∧ ∀ a, a ∈ trace → isError a = false)
     ∨ (∃ e,
          dispatch gameId data w = (Throw e, w, [])
          ∧ onMessage ws gameId data w
            = (Ok tt, w, [Sent ws (error "Failed to process message")])))
  ∧ (∀ gameId groupId, total (checkGroupConsensus gameId groupId))
  ∧ (∀ gameId playerId cellId pos limit,
       total (handleHostSelection gameId cellId pos limit)
       ∧ total (handlePlayerAnswer gameId playerId cellId pos)
       ∧ total (handleRevealAnswer gameId cellId pos)).
Proof.
  split_and!.
  - intros ws gameId data w.
    pose proof (clean_dispatch gameId data w) as Hclean.
    pose proof (noError_dispatch gameId data w) as Hquiet.
    unfold onMessage. rewrite run_tryCatch.
    destruct (dispatch gameId data w) as [[[[]|e] w'] trace]; cbn in *.
    + left. by exists w', trace.
    + right. destruct (Hclean e eq_refl) as [-> ->]. by exists e.
  - intros. apply total_swallow.
  - intros. split_and!; apply total_swallow.
Qed.


End ErrorProofs.

(** ** Bingo *)

Module BingoProofs.

Import Coordinator CoordinatorProofs Compositional.

(** *** A bingo is never taken back *)

Lemma groupKept_refl g : MemStorage.groupKept g g.
Proof. done. Qed.

Lemma groupsKept_refl gs : Forall2 MemStorage.groupKept gs gs.
Proof. induction gs; constructor; [apply groupKept_refl|done]. Qed.

Lemma groupsKept_trans gs1 gs2 gs3 :
  Forall2 MemStorage.groupKept gs1 gs2 → Forall2 MemStorage.groupKept gs2 gs3 →
  Forall2 MemStorage.groupKept gs1 gs3.
Proof.
  intros H12. revert gs3. induction H12 as [|g1 g2 gs1 gs2 [Hid Hb] _ IH];
    intros gs3 H23; inversion H23 as [|? g3 ? gs3' [Hid' Hb'] H23']; subst;
    constructor; [|by apply IH].
  split; [congruence|auto].
Qed.

Lemma groupsKept_updateFirst p f gs :
  (∀ g, MemStorage.groupKept g (f g)) →
  Forall2 MemStorage.groupKept gs (Js.updateFirst p f gs).
Proof.
  intros Hf. induction gs as [|g gs IH]; cbn; [constructor|].
  destruct (p g); constructor; auto using groupKept_refl, groupsKept_refl.
Qed.

Lemma keepsBingo_refl st : MemStorage.keepsBingo st st.
Proof. intros gameId game Hgame. exists game. auto using groupsKept_refl. Qed.

Lemma keepsBingo_games st st' :
  MemStorage.games st' = MemStorage.games st → MemStorage.keepsBingo st st'.
Proof.
  intros Hgames gameId game Hgame. exists game. split; [|apply groupsKept_refl].
  unfold MemStorage.getGame in *. by rewrite Hgames.
Qed.

Lemma keepsBingo_trans st1 st2 st3 :
  MemStorage.keepsBingo st1 st2 → MemStorage.keepsBingo st2 st3 →
  MemStorage.keepsBingo st1 st3.
Proof.
  intros H12 H23 gameId game1 Hgame1.
  destruct (H12 _ _ Hgame1) as (game2 & Hgame2 & Hkept12).
  destruct (H23 _ _ Hgame2) as (game3 & Hgame3 & Hkept23).
  exists game3. eauto using groupsKept_trans.
Qed.

Lemma keepsBingo_putGame st gameId game game' :
  MemStorage.getGame gameId st = Some game →
  Forall2 MemStorage.groupKept (groups game) (groups game') →
  MemStorage.keepsBingo st (MemStorage.putGame gameId game' st).
Proof.
  intros Hgame Hkept id g Hg. unfold MemStorage.getGame, MemStorage.putGame in *.
  cbn. destruct (decide (gameId = id)) as [->|Hne].
  - rewrite lookup_insert_eq. exists game'. split; [done|]. congruence.
  - rewrite lookup_insert_ne by done. exists g. auto using groupsKept_refl.
Qed.

Lemma keepsBingo_updateGameStatus gameId s st a st' :
  MemStorage.updateGameStatus gameId s st = Ok (a, st') →
  MemStorage.keepsBingo st st'.
Proof.
  unfold MemStorage.updateGameStatus.
  destruct (MemStorage.getGame gameId st) as [game|] eqn:Hgame; [|done].
  intros [= _ <-]. apply (keepsBingo_putGame _ _ game); [done|].
  apply groupsKept_refl.
Qed.

Lemma keepsBingo_getNextQuestion gameId st a st' :
  MemStorage.getNextQuestion gameId st = Ok (a, st') →
  MemStorage.keepsBingo st st'.
Proof.
  unfold MemStorage.getNextQuestion.
  destruct (MemStorage.getGame gameId st) as [game|] eqn:Hgame; [|done].
  destruct (find _ (questions game)); intros [= _ <-].
  - apply (keepsBingo_putGame _ _ game); [done|]. apply groupsKept_refl.
  - apply keepsBingo_refl.
Qed.

Lemma keepsBingo_updateCurrentQuestion gameId q st a st' :
  MemStorage.updateCurrentQuestion gameId q st = Ok (a, st') →
  MemStorage.keepsBingo st st'.
Proof.
  unfold MemStorage.updateCurrentQuestion.
  destruct (MemStorage.getGame gameId st) as [game|] eqn:Hgame; [|done].
  intros [= _ <-]. apply (keepsBingo_putGame _ _ game); [done|].
  apply groupsKept_refl.
Qed.

Lemma keepsBingo_recordPlayerAnswer gameId playerId groupId cellId time st a st' :
  MemStorage.recordPlayerAnswer gameId playerId groupId cellId time st = Ok (a, st') →
  MemStorage.keepsBingo st st'.
Proof.
  unfold MemStorage.recordPlayerAnswer. intros Hrun.
  repeat case_match; try done. injection Hrun as _ <-.
  by apply keepsBingo_games.
Qed.

Lemma keepsBingo_setGroupAnswer gameId groupId cellId st a st' :
  MemStorage.setGroupAnswer gameId groupId cellId st = Ok (a, st') →
  MemStorage.keepsBingo st st'.
Proof.
  unfold MemStorage.setGroupAnswer. intros Hrun.
  destruct (MemStorage.getGame gameId st) as [game|] eqn:Hgame; [|done].
  repeat case_match; try done. injection Hrun as _ <-.
  apply (keepsBingo_putGame _ _ game); [done|].
  by apply groupsKept_updateFirst.
Qed.

Lemma keepsBingo_setGroupBingo gameId groupId pattern st a st' :
  MemStorage.setGroupBingo gameId groupId pattern st = Ok (a, st') →
  MemStorage.keepsBingo st st'.
Proof.
  unfold MemStorage.setGroupBingo. intros Hrun.
  destruct (MemStorage.getGame gameId st) as [game|] eqn:Hgame; [|done].
  repeat case_match; try done. injection Hrun as _ <-.
  apply (keepsBingo_putGame _ _ game); [done|].
  by apply groupsKept_updateFirst.
Qed.

Lemma keepsBingo_addPlayerToGame gameId playerName playerId st a st' :
  MemStorage.addPlayerToGame gameId playerName playerId st = Ok (a, st') →
  MemStorage.keepsBingo st st'.
Proof.
  unfold MemStorage.addPlayerToGame.
  destruct (MemStorage.getGame gameId st) as [game|] eqn:Hgame; [|done].
  case_bool_decide; [done|].
  destruct (groups game) as [|first rest] eqn:Hgroups; [done|].
  rewrite <- Hgroups. intros [= _ <-].
  apply (keepsBingo_putGame _ _ game); [done|].
  by apply groupsKept_updateFirst.
Qed.

Lemma bingoKept_refl w : bingoKept w w [].
Proof. apply keepsBingo_refl. Qed.

Lemma bingoKept_trans w1 w2 w3 t1 t2 :
  bingoKept w1 w2 t1 → bingoKept w2 w3 t2 → bingoKept w1 w3 (t1 ++ t2).
Proof. apply keepsBingo_trans. Qed.

Ltac bingoKept_leaf :=
  unfold bingoKept;
  first
    [ apply keepsBingo_refl
    | by eapply keepsBingo_updateGameStatus
    | by eapply keepsBingo_getNextQuestion
    | by eapply keepsBingo_updateCurrentQuestion
    | by eapply keepsBingo_recordPlayerAnswer
    | by eapply keepsBingo_setGroupAnswer
    | by eapply keepsBingo_setGroupBingo
    | unfold clearAnswers, resetAnswers, recordVote;
      repeat case_match; apply keepsBingo_refl ].

Lemma bingoKept_handler e : satisfies bingoKept (handler e).
Proof.
  destruct e as [ws gameId playerId|ws gameId data|ws gameId playerId|k|ws s|t];
    [|destruct data|..];
    unfold handler, onConnection, onClose, onMessage, dispatch, handleStartGame,
      handleEndGame, handleNextQuestion, handleSelectAnswer, checkGroupConsensus,
      handleHostSelection, handlePlayerAnswer, handleRevealAnswer, revealAnswers,
      revealGroup, checkBingo, sendGameUpdate, sendAll;
    repeat sat_step bingoKept_refl bingoKept_trans;
    bingoKept_leaf.
Qed.

Lemma run_snoc events e w :
  run (events ++ [e]) w
  = ((step e (run events w).1).1, (run events w).2 ++ (step e (run events w).1).2).
Proof.
  unfold run. rewrite foldl_app. cbn [foldl].
  destruct (foldl _ (w, []) events) as [w1 t1]. cbn.
  by destruct (step e w1).
Qed.

Lemma step_handler e w : step e w = ((handler e w).1.2, (handler e w).2).
Proof. unfold step. by destruct (handler e w) as [[r w'] t]. Qed.

Lemma run_keepsBingo events w :
  MemStorage.keepsBingo (storage w) (storage (run events w).1).
Proof.
  induction events as [|e events IH] using rev_ind; [apply keepsBingo_refl|].
  rewrite run_snoc, step_handler. cbn [fst].
  eapply keepsBingo_trans; [exact IH|]. apply bingoKept_handler.
Qed.

(** *** A bingo follows a recorded answer *)

Lemma afterAnswer_nil : afterAnswer [].
Proof. intros before a after g Heq. by destruct before. Qed.

Lemma afterAnswer_app t1 t2 :
  afterAnswer t1 → afterAnswer t2 → afterAnswer (t1 ++ t2).
Proof.
  intros H1 H2 before a after g Heq Hbingo.
  apply app_eq_inv in Heq as [(mid & -> & Heq)|(mid & -> & ->)].
  - destruct mid as [|a0 mid].
    + cbn in Heq. symmetry in Heq.
      destruct (H2 [] a after g) as (a' & Ha' & _); [done..|].
      by apply elem_of_nil in Ha'.
    + injection Heq as <- ->. by apply (H1 before a mid g).
  - destruct (H2 mid a after g) as (a' & Ha' & Hanswer); [done..|].
    exists a'. split; [|done]. apply elem_of_app. auto.
Qed.

Lemma afterAnswer_quiet t :
  (∀ a g, a ∈ t → bingoFor g a = false) → afterAnswer t.
Proof.
  intros Hquiet before a after g -> Hbingo.
  rewrite Hquiet in Hbingo; [done|]. apply elem_of_app. right. left.
Qed.

Lemma bingoAfterAnswer_refl w : bingoAfterAnswer w w [].
Proof. apply afterAnswer_nil. Qed.

Lemma bingoAfterAnswer_trans w1 w2 w3 t1 t2 :
  bingoAfterAnswer w1 w2 t1 → bingoAfterAnswer w2 w3 t2 →
  bingoAfterAnswer w1 w3 (t1 ++ t2).
Proof. apply afterAnswer_app. Qed.

Lemma quiet_broadcast w gameId msg a g :
  (∀ ws, bingoFor g (Sent ws msg) = false) →
  a ∈ broadcast w gameId msg → bingoFor g a = false.
Proof.
  intros Hmsg. unfold broadcast.
  destruct (gameConnections w !! gameId); [|by intros ?%elem_of_nil].
  intros (e & -> & _)%list_elem_of_fmap. apply Hmsg.
Qed.

Lemma quiet_gameUpdates w gameId a g :
  a ∈ gameUpdates w gameId → bingoFor g a = false.
Proof. intros Ha%gameUpdates_isGameUpdate. by destruct a as [ws []|[]]. Qed.

(** What [checkBingo] records and announces is a bingo of its group. *)
Lemma checkBingo_trace gameId group size w a g :
  a ∈ (checkBingo gameId group size w).2 → bingoFor g a = true →
  g = group_id group.
Proof.
  unfold checkBingo. rewrite run_bind. cbn [world].
  destruct (MemStorage.getGroupCorrectAnswers gameId (group_id group) (storage w))
    as [correct|]; [|by intros ?%elem_of_nil].
  destruct (size <=? length correct); [|by intros ?%elem_of_nil].
  destruct (Utils.checkBingoPattern (fst <$> correct) size) as [[pattern|]|];
    [|by intros ?%elem_of_nil..].
  rewrite run_bind, run_store.
  destruct (MemStorage.setGroupBingo gameId (group_id group) pattern (storage w))
    as [[[] st]|]; [|by intros ?%elem_of_nil].
  cbn. intros [->|Hsent]%elem_of_cons.
  - cbn. by intros ->%bool_decide_eq_true_1.
  - unfold broadcast in Hsent. cbn in Hsent.
    destruct (gameConnections w !! gameId); [|by apply elem_of_nil in Hsent].
    apply list_elem_of_fmap in Hsent as (e & -> & _).
    cbn. by intros ->%bool_decide_eq_true_1.
Qed.

(** The bingo block follows the recorded answer of its group. *)
Lemma answer_then_bingo gameId group cellId size
    (method : MemStorage.t → result (unit * MemStorage.t)) :
  satisfies bingoAfterAnswer
    (store (SetGroupAnswer gameId (group_id group) cellId) method ;;
     checkBingo gameId group size).
Proof.
  intros w. rewrite run_bind, run_store.
  destruct (method (storage w)) as [[[] st]|]; [|apply afterAnswer_nil].
  pose proof (checkBingo_trace gameId group size (set_storage st w)) as Hbingo.
  destruct (checkBingo gameId group size (set_storage st w)) as [[r w'] t].
  cbn in *. intros before a after g Heq Ha.
  destruct before as [|a0 before].
  - injection Heq as <- _. done.
  - injection Heq as <- Heq. eexists. split; [left|].
    cbn. apply bool_decide_eq_true_2. symmetry. apply (Hbingo a); [|done].
    rewrite Heq. apply elem_of_app. right. left.
Qed.

Lemma findGroup_id groupId game group :
  Js.findGroup groupId game = Some group → group_id group = groupId.
Proof.
  unfold Js.findGroup. intros [_ Hid]%find_some.
  by apply bool_decide_eq_true_1 in Hid.
Qed.

Ltac afterAnswer_leaf :=
  unfold bingoAfterAnswer;
  first
    [ apply afterAnswer_nil
    | apply afterAnswer_quiet; intros ? ?;
      first
        [ apply quiet_gameUpdates
        | apply quiet_broadcast; reflexivity
        | by intros [->|?%elem_of_nil]%elem_of_cons
        | intros (? & ? & _)%list_elem_of_bind; revert select (_ ∈ _);
          repeat (case_match; try by intros ?%elem_of_nil);
          by intros ->%list_elem_of_singleton
        | repeat case_match;
          first [ by intros ?%elem_of_nil
                | by intros [->|?%elem_of_nil]%elem_of_cons ] ] ].

Lemma afterAnswer_dispatch gameId data :
  satisfies bingoAfterAnswer (dispatch gameId data).
Proof.
  destruct data;
    unfold dispatch, handleStartGame, handleEndGame, handleNextQuestion,
      handleSelectAnswer, checkGroupConsensus, handleHostSelection,
      handlePlayerAnswer, handleRevealAnswer, revealAnswers, revealGroup,
      sendGameUpdate, sendAll;
    repeat first
      [ apply answer_then_bingo
      | match goal with
        | H : Js.findGroup ?groupId _ = Some ?group
          |- satisfies _ (store (SetGroupAnswer _ ?groupId _) _ ≫= _) =>
            rewrite <- (findGroup_id _ _ _ H); apply answer_then_bingo
        end
      | sat_step bingoAfterAnswer_refl bingoAfterAnswer_trans ];
    afterAnswer_leaf.
Qed.

Lemma afterAnswer_handleRevealAnswer gameId cellId pos :
  satisfies bingoAfterAnswer (handleRevealAnswer gameId cellId pos).
Proof. exact (afterAnswer_dispatch gameId (reveal_answer cellId pos)). Qed.

Lemma afterAnswer_handler e : satisfies bingoAfterAnswer (handler e).
Proof.
  destruct e as [ws gameId playerId|ws gameId data|ws gameId playerId|k|ws s|t].
  - unfold handler, onConnection, sendGameUpdate.
    repeat sat_step bingoAfterAnswer_refl bingoAfterAnswer_trans;
      afterAnswer_leaf.
  - unfold handler, onMessage.
    apply (sat_tryCatch _ bingoAfterAnswer_trans);
      [apply afterAnswer_dispatch|intros ?].
    repeat sat_step bingoAfterAnswer_refl bingoAfterAnswer_trans;
      afterAnswer_leaf.
  - unfold handler, onClose.
    repeat sat_step bingoAfterAnswer_refl bingoAfterAnswer_trans;
      afterAnswer_leaf.
  - unfold handler.
    repeat first
      [ apply afterAnswer_handleRevealAnswer
      | sat_step bingoAfterAnswer_refl bingoAfterAnswer_trans ];
      afterAnswer_leaf.
  - unfold handler.
    repeat sat_step bingoAfterAnswer_refl bingoAfterAnswer_trans;
      afterAnswer_leaf.
  - unfold handler.
    repeat sat_step bingoAfterAnswer_refl bingoAfterAnswer_trans;
      afterAnswer_leaf.
Qed.

(** C2, as the code has it.  Through any sequence of events a stored group
    stays where it is, keeps its id and, once it has a bingo, keeps it; in
    every step a bingo of a group is recorded ([setGroupBingo]) and
    announced ([bingo_achieved]) only after the consensus answer of that
    group has been recorded ([setGroupAnswer]) in the same step; and in the
    database, through any sequence of the calls that the handlers make, the
    rows of the groups table keep their ids and a bingo once set. *)
Theorem bingo_permanent_after_answer :
  (∀ events w gameId game k g,
     MemStorage.getGame gameId (storage w) = Some game →
     groups game !! k = Some g → hasBingo g = true →
     ∃ game' g',
       MemStorage.getGame gameId (storage (run events w).1) = Some game'
       ∧ groups game' !! k = Some g'
       ∧ group_id g' = group_id g ∧ hasBingo g' = true)
  ∧ (∀ e w before a after groupId,
       (step e w).2 = before ++ a :: after →
       bingoFor groupId a = true →
       ∃ a', a' ∈ before ∧ answerFor groupId a' = true)
  ∧ (∀ order calls db,
       Forall2 DatabaseStorage.groupRowKept (DatabaseStorage.groups db)
         (DatabaseStorage.groups
            (foldl (λ db c, DatabaseStorage.perform order c db) db calls))).
Proof.
  split_and!.
  - intros events w gameId game k g Hgame Hg Hbingo.
    destruct (run_keepsBingo events w gameId game Hgame) as (game' & Hgame' & Hkept).
    destruct (Forall2_lookup_l _ _ _ _ _ Hkept Hg) as (g' & Hg' & Hid & Hb).
    exists game', g'. auto.
  - intros e w. rewrite step_handler. apply afterAnswer_handler.
  - intros order calls db. apply DatabaseProofs.performAll_groupRows.
Qed.

(** Group A, which has its bingo, is still there with it after a vote, a
    reveal by the timer and the end of the game. *)
Lemma bingo_permanent_after_answer_witness :
  ∃ game' g',
    MemStorage.getGame "g1"
      (storage
         (run [Message 2 "g1" (select_answer "p1" "cell-B1");
               Message 1 "g1" (host_selected_cell "cell-B2" "B2" 30);
               Message 3 "g1" (answer_select "p2" "cell-B2" "B2");
               Timeout 0;
               Message 1 "g1" end_game]
            (Scenario.world true false)).1) = Some game'
    ∧ groups game' !! 0 = Some g'
    ∧ group_id g' = "grpA" ∧ hasBingo g' = true.
Proof.
  destruct bingo_permanent_after_answer as (Hkept & _ & _).
  apply (Hkept _ (Scenario.world true false) "g1" (Scenario.game true false)
           0 (Scenario.groupA true)); reflexivity.
Defined.

(** C2 fails as stated.  Group A has its bingo already.  Player [p1] votes;
    the consensus is recorded, the bingo check runs again, and the bingo is
    recorded and announced to all seven sockets again. *)
Lemma bingo_detected_again :
  hasBingo (Scenario.groupA true) = true
  ∧ Js.findGroup "grpA" (Scenario.game true false) = Some (Scenario.groupA true)
  ∧ List.filter (bingoFor "grpA")
      (step (Message 2 "g1" (select_answer "p1" "cell-B1"))
         (Scenario.world true false)).2
    = Stored (SetGroupBingo "g1" "grpA" ["A1"; "A2"; "A3"])
      :: ((λ ws, Sent ws (bingo_achieved "grpA" "Group 1"
                            (players (Scenario.groupA true))
                            ["A1"; "A2"; "A3"] 3))
          <$> [1; 2; 3; 4; 5; 6; 7]).
Proof. vm_compute. repeat split. Qed.

End BingoProofs.

(** ** Re-voting *)

Module RevoteProofs.

Import Tally JsMapProofs TallyProofs VoteProofs DatabaseProofs.





End RevoteProofs.

(** ** When the storage fails *)

Module FailingProofs.

Import Coordinator CoordinatorProofs Failing.

Section Failing.

Context {S : Type}.
Variable I : Failing.IStorage S.
Variable w : World.


Lemma run_getGame gameId s :
  Failing.getGameOrThrow I gameId s
  = match Failing.getGame I gameId s with
    | Ok (Some game) => (Ok game, s, [])
    | Ok None => (Throw "Game not found", s, [])
    | Throw e => (Throw e, s, [])
    end.
Proof.
  unfold Failing.getGameOrThrow, Failing.read, mbind, Failing.F_bind.
  by destruct (Failing.getGame I gameId s) as [[game|]|e].
Qed.

Lemma run_bind_F {A B} (m : Failing.F S A) (k : A → Failing.F S B) s :
  (m ≫= k) s
  = match m s with
    | (Ok a, s', trace) =>
        match k a s' with (r, s'', trace') => (r, s'', trace ++ trace') end
    | (Throw e, s', trace) => (Throw e, s', trace)
    end.
Proof. done. Qed.

Lemma run_call {A} c (method : S → result (A * S)) s :
  Failing.call c method s
  = match method s with
    | Ok (a, s') => (Ok a, s', [Stored c])
    | Throw e => (Throw e, s, [])
    end.
Proof. done. Qed.






End Failing.

Lemma gameUpdates_withGame w gameId game st :
  MemStorage.getGame gameId st = Some game →
  gameUpdates (withGame gameId game w) gameId
  = gameUpdates (set_storage st w) gameId.
Proof.
  intros Hgame. unfold gameUpdates.
  rewrite getGame_withGame. cbn [storage set_storage]. rewrite Hgame.
  reflexivity.
Qed.

Lemma bind_world {A} (k : World → M A) w : (Coordinator.world ≫= k) w = k w w.
Proof. rewrite run_bind. cbn. by destruct (k w w) as [[r w'] t]. Qed.

(** *** On [MemStorage] the handlers are those of the coordinator *)

Lemma memStorage_sendGameUpdate gameId st w :
  Coordinator.sendGameUpdate gameId (set_storage st w)
  = inWorld w (Failing.sendGameUpdate Failing.memStorage w gameId st).
Proof.
  unfold Coordinator.sendGameUpdate. rewrite bind_world.
  unfold Failing.sendGameUpdate, Failing.tryCatch.
  rewrite run_bind_F. unfold Failing.read.
  cbn [Failing.getGame Failing.memStorage].
  destruct (MemStorage.getGame gameId st) as [game|] eqn:Hgame.
  - rewrite (gameUpdates_withGame w gameId game st Hgame). cbn.
    by rewrite app_nil_r || done.
  - cbn. unfold inWorld, gameUpdates. cbn [storage set_storage]. by rewrite Hgame.
Qed.

Lemma memStorage_checkBingo gameId group size st w :
  Coordinator.checkBingo gameId group size (set_storage st w)
  = inWorld w (Failing.checkBingo Failing.memStorage w gameId group size st).
Proof.
  unfold Failing.checkBingo, Coordinator.checkBingo.
  rewrite run_bind_F, bind_world. unfold Failing.read.
  cbn [Failing.getGroupCorrectAnswers Failing.memStorage storage set_storage].
  destruct (MemStorage.getGroupCorrectAnswers gameId (group_id group) st)
    as [correctAnswers|e]; [|done].
  destruct (size <=? length correctAnswers); [|done].
  destruct (Utils.checkBingoPattern correctAnswers.*1 size) as [[pattern|]|];
    [|done|done].
  rewrite run_bind_F, run_call, run_bind, run_store.
  cbn [Failing.setGroupBingo Failing.memStorage storage set_storage].
  destruct (MemStorage.setGroupBingo gameId (group_id group) pattern st)
    as [[[] st']|e]; [|done].
  unfold Coordinator.sendAll. rewrite bind_world. done.
Qed.

Lemma memStorage_checkGroupConsensus gameId groupId st w :
  Coordinator.checkGroupConsensus gameId groupId (set_storage st w)
  = inWorld w
      (Failing.checkGroupConsensus Failing.memStorage w gameId groupId st).
Proof.
  unfold Failing.checkGroupConsensus, Coordinator.checkGroupConsensus.
  unfold Failing.tryCatch. rewrite run_tryCatch.
  rewrite run_bind_F, bind_world. unfold Failing.read.
  cbn [Failing.getGame Failing.memStorage storage set_storage].
  destruct (MemStorage.getGame gameId st) as [game|]; [|done].
  destruct (Js.findGroup groupId game) as [group|]; [|done].
  rewrite run_bind_F. unfold Failing.read.
  cbn [Failing.getGroupAnswers Failing.memStorage].
  destruct (Tally.groupConsensus _) as [c|]; [|done].
  rewrite run_bind_F, run_call, run_bind, run_store.
  cbn [Failing.setGroupAnswer Failing.memStorage storage set_storage].
  destruct (MemStorage.setGroupAnswer gameId groupId c st) as [[[] st']|e];
    [|done].
  change (set_storage st' (set_storage st w)) with (set_storage st' w).
  rewrite memStorage_checkBingo.
  destruct (Failing.checkBingo Failing.memStorage w gameId group
              (boardSize game) st') as [[[[]|e] st''] t]; done.
Qed.

(** The four handlers over [MemStorage] do what the handlers of the
    coordinator do. *)
Lemma memStorage_handlers gameId w :
  Coordinator.handleStartGame gameId w
  = inWorld w (Failing.handleStartGame Failing.memStorage w gameId (storage w))
  ∧ Coordinator.handleEndGame gameId w
    = inWorld w (Failing.handleEndGame Failing.memStorage w gameId (storage w))
  ∧ Coordinator.handleNextQuestion gameId w
    = inWorld w
        (Failing.handleNextQuestion Failing.memStorage w gameId (storage w))
  ∧ ∀ playerId cellId,
      Coordinator.handleSelectAnswer gameId playerId cellId w
      = inWorld w
          (Failing.handleSelectAnswer Failing.memStorage w gameId playerId
             cellId (storage w)).
Proof.
  assert (∀ e, (Throw e, w, []) = inWorld w (Throw e : result unit, storage w, []))
    as Hthrow by (intros e; unfold inWorld; cbn; by rewrite set_storage_same).
  split_and!.
  - unfold Failing.handleStartGame, Coordinator.handleStartGame.
    rewrite run_bind_F, run_getGame, run_bind, run_getGameOrThrow.
    cbn [Failing.getGame Failing.memStorage].
    destruct (MemStorage.getGame gameId (storage w)) as [game|]; [|apply Hthrow].
    case_bool_decide; [apply Hthrow|].
    rewrite run_bind_F, run_call, run_bind, run_store.
    cbn [Failing.updateGameStatus Failing.memStorage].
    destruct (MemStorage.updateGameStatus gameId active (storage w))
      as [[[] st]|e]; [|apply Hthrow].
    rewrite memStorage_sendGameUpdate.
    by destruct (Failing.sendGameUpdate Failing.memStorage w gameId st)
      as [[r st'] t].
  - unfold Failing.handleEndGame, Coordinator.handleEndGame.
    rewrite run_bind_F, run_getGame, run_bind, run_getGameOrThrow.
    cbn [Failing.getGame Failing.memStorage].
    destruct (MemStorage.getGame gameId (storage w)) as [game|]; [|apply Hthrow].
    case_bool_decide; [apply Hthrow|].
    rewrite run_bind_F, run_call, run_bind, run_store.
    cbn [Failing.updateGameStatus Failing.memStorage].
    destruct (MemStorage.updateGameStatus gameId completed (storage w))
      as [[[] st]|e]; [|apply Hthrow].
    rewrite run_bind_F, run_bind. unfold Coordinator.sendAll.
    rewrite bind_world. cbn [Failing.sendAll Failing.emit Coordinator.emit].
    rewrite memStorage_sendGameUpdate.
    by destruct (Failing.sendGameUpdate Failing.memStorage w gameId st)
      as [[r st'] t].
  - unfold Failing.handleNextQuestion, Coordinator.handleNextQuestion.
    rewrite run_bind_F, run_getGame, run_bind, run_getGameOrThrow.
    cbn [Failing.getGame Failing.memStorage].
    destruct (MemStorage.getGame gameId (storage w)) as [game|]; [|apply Hthrow].
    case_bool_decide; [apply Hthrow|].
    rewrite run_bind_F, run_call, run_bind, run_store.
    cbn [Failing.getNextQuestion Failing.memStorage].
    destruct (MemStorage.getNextQuestion gameId (storage w))
      as [[[q|] st]|e]; [| |apply Hthrow].
    + rewrite run_bind_F, run_call, run_bind, run_store.
      cbn [Failing.updateCurrentQuestion Failing.memStorage storage set_storage].
      destruct (MemStorage.updateCurrentQuestion gameId q st)
        as [[[] st']|e]; [|done].
      change (set_storage st' (set_storage st w)) with (set_storage st' w).
      rewrite memStorage_sendGameUpdate.
      by destruct (Failing.sendGameUpdate Failing.memStorage w gameId st')
        as [[r st''] t].
    + rewrite run_bind_F, run_call, run_bind, run_store.
      cbn [Failing.updateGameStatus Failing.memStorage storage set_storage].
      destruct (MemStorage.updateGameStatus gameId completed st)
        as [[[] st']|e]; [|done].
      change (set_storage st' (set_storage st w)) with (set_storage st' w).
      rewrite run_bind_F, run_bind. unfold Coordinator.sendAll.
      rewrite bind_world. cbn [Failing.sendAll Failing.emit Coordinator.emit].
      rewrite memStorage_sendGameUpdate.
      by destruct (Failing.sendGameUpdate Failing.memStorage w gameId st')
        as [[r st''] t].
  - intros playerId cellId.
    unfold Failing.handleSelectAnswer, Coordinator.handleSelectAnswer.
    destruct (_ || _); [apply Hthrow|].
    rewrite run_bind_F, run_getGame, run_bind, run_getGameOrThrow.
    cbn [Failing.getGame Failing.memStorage].
    destruct (MemStorage.getGame gameId (storage w)) as [game|]; [|apply Hthrow].
    case_bool_decide; [apply Hthrow|].
    destruct (Js.findPlayerGroup playerId game) as [playerGroup|];
      [|apply Hthrow].
    rewrite bind_world, run_bind_F, run_call, run_bind, run_store.
    cbn [Failing.recordPlayerAnswer Failing.memStorage].
    destruct (MemStorage.recordPlayerAnswer gameId playerId _ cellId (now w)
                (storage w)) as [[[] st]|e]; [|apply Hthrow].
    rewrite run_bind_F, run_bind, memStorage_checkGroupConsensus.
    destruct (Failing.checkGroupConsensus Failing.memStorage w gameId
                (group_id playerGroup) st) as [[[[]|e] st'] t]; [|done].
    unfold inWorld at 1. cbn [fst snd].
    rewrite memStorage_sendGameUpdate.
    by destruct (Failing.sendGameUpdate Failing.memStorage w gameId st')
      as [[r st''] t'].
Qed.


End FailingProofs.

(** ** More of the client utilities *)

Module UtilsExtra.

Import JsNum Utils Lines UtilsProofs Random.

(** *** Reading back what [createPositionGrid] writes *)

Lemma parseDigits_uint d a seen :
  parseDigits 10 (NilEmpty.string_of_uint d) (Z.of_nat a) seen
  = match d with
    | Decimal.Nil => if seen then Some (Z.of_nat a) else NaN
    | _ => Some (Z.of_nat (Nat.of_uint_acc d a))
    end.
Proof.
  revert a seen. induction d as [|d IH|d IH|d IH|d IH|d IH|d IH|d IH|d IH|d IH|d IH];
    intros a seen; [done|..];
    cbn [NilEmpty.string_of_uint parseDigits Nat.of_uint_acc];
    match goal with
    | |- context [digitValue 10 ?c] =>
        let v := eval vm_compute in (digitValue 10 c) in
        change (digitValue 10 c) with v
    end;
    cbv beta iota;
    rewrite Nat.tail_mul_spec;
    match goal with
    | |- parseDigits 10 _ ?z true = _ =>
        match goal with
        | |- context [Nat.of_uint_acc d ?b] =>
            replace z with (Z.of_nat b) by lia
        end
    end;
    rewrite IH; by destruct d.
Qed.

Lemma option_fmap_one (v : num) : (λ x, 1 * x)%Z <$> v = v.
Proof. destruct v as [x|]; [|done]. cbn. f_equal. lia. Qed.

Lemma parseInt_uint d :
  d ≠ Decimal.Nil →
  parseInt (NilEmpty.string_of_uint d) = Some (Z.of_nat (Nat.of_uint d)).
Proof.
  intros Hd.
  assert (parseInt (NilEmpty.string_of_uint d)
          = parseDigits 10 (NilEmpty.string_of_uint d) 0 false) as ->.
  { destruct d as [|d|d|d|d|d|d|d|d|d|d]; [done|..];
      try (unfold parseInt; cbn [NilEmpty.string_of_uint skipWhiteSpace];
           apply option_fmap_one).
    destruct d as [|d|d|d|d|d|d|d|d|d|d];
      unfold parseInt; cbn [NilEmpty.string_of_uint skipWhiteSpace];
      apply option_fmap_one. }
  change 0%Z with (Z.of_nat 0). rewrite (parseDigits_uint d 0 false). by destruct d.
Qed.

Lemma parseInt_numToString n : parseInt (numToString n) = Some (Z.of_nat n).
Proof.
  unfold numToString. rewrite parseInt_uint.
  - by rewrite DecimalNat.Unsigned.of_to.
  - intros Hnil. pose proof (DecimalNat.Unsigned.of_to n) as Hn.
    rewrite Hnil in Hn. cbn in Hn. subst n. done.
Qed.

Lemma rowOf_label row col :
  row < 191 → rowOf (label row col) = Some (Z.of_nat row).
Proof.
  intros Hrow. unfold rowOf, label. cbn [charCodeAt0].
  rewrite nat_ascii_embedding by lia. cbn. f_equal. lia.
Qed.

Lemma colOf_label row col : colOf (label row col) = Some (Z.of_nat col).
Proof.
  unfold colOf, label. cbn [substring1].
  rewrite parseInt_numToString. cbn. f_equal. lia.
Qed.

Lemma decode_label row col :
  row < 191 → decode (label row col) = cellOf row col.
Proof.
  intros Hrow. unfold decode, cellOf. by rewrite rowOf_label, colOf_label.
Qed.

(** X1.  Encoding and decoding of a position agree: the label that
    [createPositionGrid] writes for row [row] and column [col] is read back
    by [checkBingoPattern] ([charCodeAt(0) - 65] and
    [parseInt(substring(1)) - 1]) as that row and that column, for every
    column and for the rows whose letter is a code unit below 256. *)
Theorem label_round_trip (row col : nat) :
  row < 191 →
  rowOf (label row col) = Some (Z.of_nat row)
  ∧ colOf (label row col) = Some (Z.of_nat col).
Proof. intros Hrow. by rewrite rowOf_label, colOf_label. Qed.

Lemma label_round_trip_witness :
  rowOf (label 2 11) = Some 2%Z ∧ colOf (label 2 11) = Some 11%Z.
Proof. apply (label_round_trip 2 11). lia. Defined.

Lemma onBoard_label n row col :
  row < n → col < n → n ≤ 191 → onBoard n (label row col) = true.
Proof.
  intros Hrow Hcol Hn.
  unfold onBoard. rewrite rowOf_label, colOf_label by lia. cbn.
  rewrite !andb_true_iff, !Z.leb_le, !Z.ltb_lt. lia.
Qed.

Lemma label_inj row col row' col' :
  row < 191 → row' < 191 → label row col = label row' col' →
  row = row' ∧ col = col'.
Proof.
  intros Hrow Hrow' Heq. apply cellOf_inj.
  by rewrite <- !decode_label, Heq.
Qed.

Lemma length_bind_const {A B} (f : A → list B) (l : list A) m :
  (∀ x, length (f x) = m) → length (l ≫= f) = length l * m.
Proof.
  intros Hf. induction l as [|x l IH]; [done|].
  rewrite bind_cons, length_app, Hf, IH. cbn. lia.
Qed.

Lemma lookup_bind_const {A B} (f : A → list B) (l : list A) m i j x :
  (∀ x, length (f x) = m) → l !! i = Some x → j < m →
  (l ≫= f) !! (i * m + j) = f x !! j.
Proof.
  intros Hf. revert i. induction l as [|y l IH]; intros i Hi Hj; [done|].
  rewrite bind_cons. destruct i as [|i].
  - injection Hi as ->. cbn. apply lookup_app_l. by rewrite Hf.
  - cbn in Hi. rewrite lookup_app_r by (rewrite Hf; cbn; lia).
    rewrite Hf. replace (S i * m + j - m) with (i * m + j) by (cbn; lia).
    by apply IH.
Qed.

(** X2.  [createPositionGrid(size)] lists [size * size] labels in row-major
    order: the label of row [row] and column [col] is at index
    [row * size + col].  Up to size 191, where the row letters stay below
    256, the labels are pairwise distinct and every one passes the bounds
    check of [checkBingoPattern] for the same size. *)
Theorem createPositionGrid_layout (size : nat) :
  length (createPositionGrid size) = size * size
  ∧ (∀ row col, row < size → col < size →
       createPositionGrid size !! (row * size + col) = Some (label row col))
  ∧ (size ≤ 191 →
     NoDup (createPositionGrid size)
     ∧ (∀ pos, pos ∈ createPositionGrid size → onBoard size pos = true)).
Proof.
  unfold createPositionGrid. split_and!.
  - rewrite (length_bind_const _ _ size), length_seq; [done|].
    intros row. by rewrite length_fmap, length_seq.
  - intros row col Hrow Hcol.
    rewrite (lookup_bind_const _ _ size _ _ row).
    + rewrite list_lookup_fmap, lookup_seq_lt by done. done.
    + intros x. by rewrite length_fmap, length_seq.
    + by rewrite lookup_seq_lt.
    + done.
  - intros Hsize. split_and!.
    + apply NoDup_bind; [| |apply NoDup_seq].
      * intros row row' pos Hrow%elem_of_seq0 Hrow'%elem_of_seq0
          (col & -> & _)%list_elem_of_fmap (col' & Heq & _)%list_elem_of_fmap.
        apply label_inj in Heq as [? _]; [done|lia..].
      * intros row Hrow%elem_of_seq0. apply NoDup_fmap_2_strong; [|apply NoDup_seq].
        intros col col' _ _ Heq. apply label_inj in Heq as [_ ?]; [done|lia..].
    + intros pos (row & Hpos & Hrow%elem_of_seq0)%list_elem_of_bind.
      apply list_elem_of_fmap in Hpos as (col & -> & Hcol%elem_of_seq0).
      by apply onBoard_label.
Qed.

Lemma createPositionGrid_layout_witness :
  NoDup (createPositionGrid 5)
  ∧ (∀ pos, pos ∈ createPositionGrid 5 → onBoard 5 pos = true).
Proof.
  destruct (createPositionGrid_layout 5) as (_ & _ & Hdistinct).
  apply Hdistinct. lia.
Defined.

(** A detected pattern is a line of the board: the labels of [n] cells of
    the board, all of them marked. *)
Lemma detectWinPattern_line ps n pattern :
  detectWinPattern ps n = Some pattern →
  ∃ c : nat → nat * nat,
    pattern = tabulate n (λ k, label (c k).1 (c k).2)
    ∧ (∀ k k', c k = c k' → k = k')
    ∧ ∀ k, k < n → (c k).1 < n ∧ (c k).2 < n
                   ∧ cellMarked n ps (c k).1 (c k).2 = true.
Proof.
  unfold detectWinPattern. intros Hdet.
  destruct (find (rowFull n ps) (seq 0 n)) as [i|] eqn:Hrow.
  { apply find_some in Hrow as [Hi%list_elem_of_In%elem_of_seq0 Hfull].
    unfold rowFull in Hfull. rewrite forallb_seq0 in Hfull.
    injection Hdet as <-. exists (λ k, (i, k)). split_and!; [done|congruence|]. cbn. auto. }
  destruct (find (colFull n ps) (seq 0 n)) as [j|] eqn:Hcol.
  { apply find_some in Hcol as [Hj%list_elem_of_In%elem_of_seq0 Hfull].
    unfold colFull in Hfull. rewrite forallb_seq0 in Hfull.
    injection Hdet as <-. exists (λ k, (k, j)). split_and!; [done|congruence|]. cbn. auto. }
  destruct (diagFull n ps) eqn:Hdiag.
  { unfold diagFull in Hdiag. rewrite forallb_seq0 in Hdiag.
    injection Hdet as <-. exists (λ k, (k, k)). split_and!; [done|congruence|]. cbn. auto. }
  destruct (antiFull n ps) eqn:Hanti; [|done].
  unfold antiFull in Hanti. rewrite forallb_seq0 in Hanti.
  injection Hdet as <-. exists (λ k, (k, n - 1 - k)). split_and!.
  - unfold antiLabels. apply tabulate_ext. intros k Hk. unfold label.
    cbn [fst snd]. replace (n - 1 - k + 1) with (n - k) by lia. done.
  - congruence.
  - cbn. intros k Hk. split_and!; [done|lia|auto].
Qed.

(** X3.  A pattern that [checkBingoPattern] returns is a line of the board
    that the marks cover: it has [boardSize] distinct labels, every label is
    on the board, and for every label some marked position on the board
    stands for the same cell.  (Board sizes up to 191, where the row letters
    stay below 256.) *)
Theorem checkBingoPattern_sound (markedPositions : list string) (boardSize : nat)
    (pattern : list string) :
  boardSize ≤ 191 →
  checkBingoPattern markedPositions boardSize = Within (Some pattern) →
  length pattern = boardSize
  ∧ NoDup pattern
  ∧ ∀ l, l ∈ pattern →
      onBoard boardSize l = true
      ∧ ∃ pos, pos ∈ markedPositions ∧ onBoard boardSize pos = true
               ∧ rowOf pos = rowOf l ∧ colOf pos = colOf l.
Proof.
  intros Hsize. rewrite checkBingoPattern_detect. intros [= Hdet].
  pose proof (detectWinPattern_length _ _ _ Hdet) as Hmarks.
  destruct (detectWinPattern_line _ _ _ Hdet) as (c & -> & Hinj & Hline).
  split_and!.
  - apply length_tabulate.
  - unfold tabulate. apply NoDup_fmap_2_strong; [|apply NoDup_seq].
    intros k k' Hk%elem_of_seq0 Hk'%elem_of_seq0 Heq.
    destruct (Hline k Hk) as (? & ? & _), (Hline k' Hk') as (? & ? & _).
    apply label_inj in Heq as [Hr Hc]; [|lia..].
    apply Hinj. destruct (c k), (c k'); cbn in *; congruence.
  - intros l (k & -> & Hk%elem_of_seq0)%list_elem_of_fmap.
    destruct (Hline k Hk) as (Hr & Hc & Hmarked). split.
    + by apply onBoard_label.
    + apply cellMarked_spec in Hmarked as (pos & Hin & Hon & Hrow & Hcol).
      exists pos. by rewrite rowOf_label, colOf_label by lia.
Qed.

Lemma checkBingoPattern_sound_witness :
  length ["A2"; "B2"; "C2"] = 3
  ∧ NoDup ["A2"; "B2"; "C2"]
  ∧ ∀ l, l ∈ ["A2"; "B2"; "C2"] →
      onBoard 3 l = true
      ∧ ∃ pos, pos ∈ ["C02"; "A1"; " B2"; "A2"; "B+2"] ∧ onBoard 3 pos = true
               ∧ rowOf pos = rowOf l ∧ colOf pos = colOf l.
Proof.
  apply (checkBingoPattern_sound ["C02"; "A1"; " B2"; "A2"; "B+2"] 3).
  - lia.
  - reflexivity.
Defined.

Lemma cellMarked_mono n ps ps' i j :
  (∀ pos, pos ∈ ps → pos ∈ ps') →
  cellMarked n ps i j = true → cellMarked n ps' i j = true.
Proof.
  intros Hsub (pos & Hin & H)%cellMarked_spec. apply cellMarked_spec.
  exists pos. auto.
Qed.

Lemma forallb_mono (f g : nat → bool) (l : list nat) :
  (∀ k, f k = true → g k = true) → forallb f l = true → forallb g l = true.
Proof. rewrite !forallb_forall. auto. Qed.

Lemma find_is_Some (f : nat → bool) (l : list nat) x :
  x ∈ l → f x = true → is_Some (find f l).
Proof.
  intros Hin Hf. destruct (find f l) eqn:Hfind; [done|].
  apply list_elem_of_In in Hin. by rewrite (find_none _ _ Hfind _ Hin) in Hf.
Qed.

(** X4.  The result of [checkBingoPattern] depends only on which positions
    are marked, not on their order or on repetitions; and marking more
    positions never takes a bingo away. *)
Theorem checkBingoPattern_marks (markedPositions markedPositions' : list string)
    (boardSize : nat) :
  ((∀ pos, pos ∈ markedPositions ↔ pos ∈ markedPositions') →
   checkBingoPattern markedPositions boardSize
   = checkBingoPattern markedPositions' boardSize)
  ∧ ((∀ pos, pos ∈ markedPositions → pos ∈ markedPositions') →
     ∀ pattern,
       checkBingoPattern markedPositions boardSize = Within (Some pattern) →
       ∃ pattern',
         checkBingoPattern markedPositions' boardSize = Within (Some pattern')).
Proof.
  split.
  - intros Hsame. rewrite !checkBingoPattern_detect. f_equal.
    apply detectWinPattern_ext. intros i j.
    apply eq_true_iff_eq. split; apply cellMarked_mono; intros pos; apply Hsame.
  - intros Hsub pattern. rewrite !checkBingoPattern_detect. intros [= Hdet].
    assert (is_Some (detectWinPattern markedPositions' boardSize)) as [p' ->];
      [|by eexists].
    pose proof (λ i j, cellMarked_mono boardSize _ _ i j Hsub) as Hmono.
    unfold detectWinPattern in *.
    destruct (find (rowFull boardSize markedPositions) _) as [i|] eqn:Hrow.
    { apply find_some in Hrow as [Hi%list_elem_of_In Hfull].
      destruct (find_is_Some (rowFull boardSize markedPositions') _ i Hi) as [i' ->];
        [|done].
      revert Hfull. apply forallb_mono. intros k. apply Hmono. }
    destruct (find (rowFull boardSize markedPositions') _); [done|].
    destruct (find (colFull boardSize markedPositions) _) as [j|] eqn:Hcol.
    { apply find_some in Hcol as [Hj%list_elem_of_In Hfull].
      destruct (find_is_Some (colFull boardSize markedPositions') _ j Hj) as [j' ->];
        [|done].
      revert Hfull. apply forallb_mono. intros k. apply Hmono. }
    destruct (find (colFull boardSize markedPositions') _); [done|].
    destruct (diagFull boardSize markedPositions) eqn:Hdiag.
    { assert (diagFull boardSize markedPositions' = true) as ->; [|done].
      revert Hdiag. apply forallb_mono. intros k. apply Hmono. }
    destruct (diagFull boardSize markedPositions'); [done|].
    destruct (antiFull boardSize markedPositions) eqn:Hanti; [|done].
    assert (antiFull boardSize markedPositions' = true) as ->; [|done].
    revert Hanti. apply forallb_mono. intros k. apply Hmono.
Qed.

Lemma checkBingoPattern_marks_witness :
  checkBingoPattern ["B1"; "A1"; "C1"; "A1"] 3
  = checkBingoPattern ["A1"; "B1"; "C1"] 3
  ∧ ∃ pattern',
      checkBingoPattern ["A3"; "A1"; "B1"; "C1"; "A2"] 3 = Within (Some pattern').
Proof.
  split.
  - apply (checkBingoPattern_marks ["B1"; "A1"; "C1"; "A1"] ["A1"; "B1"; "C1"] 3).
    intros pos. rewrite !elem_of_cons, !elem_of_nil. tauto.
  - destruct (checkBingoPattern_marks ["A1"; "B1"; "C1"]
                ["A3"; "A1"; "B1"; "C1"; "A2"] 3) as [_ Hmore].
    apply (Hmore ltac:(intros pos; rewrite !elem_of_cons, !elem_of_nil; tauto)
             ["A1"; "B1"; "C1"]).
    reflexivity.
Defined.

(** *** The random helpers *)

Lemma swap_Permutation {A} i j (arr : list A) : swap i j arr ≡ₚ arr.
Proof.
  unfold swap. destruct (arr !! i) as [x|] eqn:Hi; [|done].
  destruct (arr !! j) as [y|] eqn:Hj; [|done].
  by apply Permutation_insert_swap.
Qed.

Lemma shuffleFrom_Permutation {A} j i (arr : list A) : shuffleFrom j i arr ≡ₚ arr.
Proof.
  revert arr. induction i as [|i IH]; intros arr; [done|].
  cbn [shuffleFrom]. by rewrite IH, swap_Permutation.
Qed.

(** X5.  [shuffleArray] returns a permutation of its argument, whatever
    the random draws are: no element is lost, added or repeated, and the
    length is kept. *)
Theorem shuffleArray_permutation {A} (j : nat → nat) (array : list A) :
  (∀ i, j i ≤ i) →
  shuffleArray j array ≡ₚ array
  ∧ length (shuffleArray j array) = length array
  ∧ (∀ x, x ∈ shuffleArray j array ↔ x ∈ array)
  ∧ (NoDup array → NoDup (shuffleArray j array)).
Proof.
  intros _.
  assert (shuffleArray j array ≡ₚ array) as Hperm
    by apply shuffleFrom_Permutation.
  split_and!; [done|by rewrite Hperm|by intros x; rewrite Hperm|by rewrite Hperm].
Qed.

Lemma shuffleArray_permutation_witness :
  shuffleArray (λ i, i / 2) ["a"; "b"; "c"; "d"; "e"] ≡ₚ ["a"; "b"; "c"; "d"; "e"]
  ∧ shuffleArray (λ i, i / 2) ["a"; "b"; "c"; "d"; "e"] = ["e"; "a"; "d"; "b"; "c"].
Proof.
  split; [|reflexivity].
  apply (shuffleArray_permutation (λ i, i / 2) ["a"; "b"; "c"; "d"; "e"]).
  intros i. apply Nat.Div0.div_le_upper_bound. lia.
Defined.

Lemma charAt_chars m :
  m < 62 → ∃ c, charAt m chars = String c EmptyString ∧ isAlphaNumeric c = true.
Proof.
  intros Hm.
  do 62 (destruct m as [|m]; [eexists; split; reflexivity|]). lia.
Qed.

Lemma list_ascii_app s1 s2 :
  list_ascii_of_string (s1 +:+ s2)
  = list_ascii_of_string s1 ++ list_ascii_of_string s2.
Proof. induction s1 as [|c s1 IH]; [done|]. cbn. by rewrite <- IH. Qed.

Lemma length_list_ascii s : length (list_ascii_of_string s) = String.length s.
Proof. induction s as [|c s IH]; [done|]. cbn. by rewrite IH. Qed.

Lemma generateFrom_chars k i n result :
  (∀ i, k i < 62) →
  ∃ suffix,
    list_ascii_of_string (generateFrom k i n result)
    = list_ascii_of_string result ++ suffix
    ∧ length suffix = n ∧ Forall (λ c, isAlphaNumeric c = true) suffix.
Proof.
  intros Hk. revert i result. induction n as [|n IH]; intros i result.
  - exists []. by rewrite app_nil_r.
  - cbn [generateFrom].
    destruct (IH (S i) (result +:+ charAt (k i) chars)) as (suffix & -> & Hlen & Hall).
    destruct (charAt_chars (k i) (Hk i)) as (c & -> & Hc).
    exists (c :: suffix). rewrite list_ascii_app, <- app_assoc. cbn.
    split_and!; [done|by rewrite Hlen|by constructor].
Qed.

(** X6.  [generateId(length)] returns a text of exactly [length]
    characters, each of them a letter or a digit of ASCII. *)
Theorem generateId_alphanumeric (k : nat → nat) (length : nat) :
  (∀ i, k i < 62) →
  String.length (generateId k length) = length
  ∧ Forall (λ c, isAlphaNumeric c = true)
      (list_ascii_of_string (generateId k length)).
Proof.
  intros Hk. unfold generateId.
  destruct (generateFrom_chars k 0 length EmptyString Hk) as (suffix & Heq & Hlen & Hall).
  cbn in Heq. rewrite <- length_list_ascii, Heq. done.
Qed.

Lemma generateId_alphanumeric_witness :
  String.length (generateId (λ i, (7 * i + 3) `mod` 62) 8) = 8
  ∧ Forall (λ c, isAlphaNumeric c = true)
      (list_ascii_of_string (generateId (λ i, (7 * i + 3) `mod` 62) 8)).
Proof.
  apply (generateId_alphanumeric (λ i, (7 * i + 3) `mod` 62) 8).
  intros i. apply Nat.mod_upper_bound. lia.
Defined.

End UtilsExtra.

(** ** More of [MemStorage] *)

Module StorageExtra.

Import Utils Random MemStorageMore UtilsProofs UtilsExtra.

(** *** Joining *)

Lemma updateFirst_insert {A} (p : A → bool) (f : A → A) (l : list A) k x :
  l !! k = Some x → p x = true →
  (∀ k' y, k' < k → l !! k' = Some y → p y = false) →
  Js.updateFirst p f l = <[k := f x]> l.
Proof.
  revert k. induction l as [|a l IH]; intros k Hk Hp Hbefore; [done|].
  destruct k as [|k].
  - injection Hk as ->. cbn. by rewrite Hp.
  - cbn. rewrite (Hbefore 0 a) by (done || lia). f_equal.
    apply IH; [done..|]. intros k' y Hk' Hy. apply (Hbefore (S k') y); [lia|done].
Qed.

Lemma foldl_smallest (l : list Group) (best : Group) :
  let r := foldl smaller best l in
  (∀ g, g ∈ l → length (players r) ≤ length (players g))
  ∧ ((r = best ∧ ∀ g, g ∈ l → length (players best) ≤ length (players g))
     ∨ (∃ k, l !! k = Some r
             ∧ length (players r) < length (players best)
             ∧ ∀ k' g', k' < k → l !! k' = Some g' →
                        length (players r) < length (players g'))).
Proof.
  revert best. induction l as [|a l IH]; intros best; cbn zeta.
  - split; [by intros g ?%elem_of_nil|]. left. split; [done|].
    by intros g ?%elem_of_nil.
  - cbn [foldl]. destruct (IH (smaller best a)) as [Hmin Hwhere].
    set (r := foldl smaller (smaller best a) l) in *.
    assert (length (players (smaller best a)) ≤ length (players a)
            ∧ length (players (smaller best a)) ≤ length (players best)) as [Ha Hb].
    { unfold smaller. destruct (Nat.ltb_spec (length (players a)) (length (players best))); lia. }
    assert (length (players r) ≤ length (players (smaller best a))) as Hr.
    { destruct Hwhere as [[-> _]|(k & _ & Hlt & _)]; lia. }
    split.
    { intros g [->|Hg]%elem_of_cons; [lia|auto]. }
    unfold smaller in *.
    destruct (Nat.ltb_spec (length (players a)) (length (players best))) as [Hlt|Hge].
    + (* the head becomes the best *)
      right. destruct Hwhere as [[Heq Hall]|(k & Hk & Hlt' & Hbefore)].
      * exists 0. rewrite Heq. split_and!; [done|done|]. intros; lia.
      * exists (S k). split_and!; [done|lia|].
        intros [|k'] g' Hk' Hg'; [injection Hg' as <-; lia|].
        apply (Hbefore k' g'); [lia|done].
    + destruct Hwhere as [[Heq Hall]|(k & Hk & Hlt' & Hbefore)].
      * left. split; [done|]. intros g [->|Hg]%elem_of_cons; auto.
      * right. exists (S k). split_and!; [done|done|].
        intros [|k'] g' Hk' Hg'; [injection Hg' as <-; lia|].
        apply (Hbefore k' g'); [lia|done].
Qed.

(** X7.  [addPlayerToGame] on a waiting game with groups puts the player at
    the end of the first group among those with the fewest players, and
    answers with the id and the name of that group; no other group changes.
    Groups whose sizes differ by one at most stay so. *)
Theorem addPlayerToGame_smallest_group (gameId playerName playerId : string)
    (st : MemStorage.t) (game : Game) :
  MemStorage.getGame gameId st = Some game →
  status game = waiting →
  groups game ≠ [] →
  ∃ k g,
    groups game !! k = Some g
    ∧ (∀ g', g' ∈ groups game → length (players g) ≤ length (players g'))
    ∧ (∀ k' g', k' < k → groups game !! k' = Some g' →
                length (players g) < length (players g'))
    ∧ MemStorage.addPlayerToGame gameId playerName playerId st
      = Ok (playerId, group_id g, group_name g,
            MemStorage.putGame gameId
              (set_groups
                 (<[k := set_players (players g ++ [mkPlayer playerId playerName]) g]>
                    (groups game)) game) st)
    ∧ (balanced (groups game) →
       balanced
         (<[k := set_players (players g ++ [mkPlayer playerId playerName]) g]>
            (groups game))).
Proof.
  intros Hgame Hstatus Hgroups.
  unfold MemStorage.addPlayerToGame. rewrite Hgame, Hstatus.
  rewrite bool_decide_eq_false_2 by (by intros ?).
  destruct (groups game) as [|first rest] eqn:Hgs; [done|]. clear Hgroups.
  change (λ best group, if length (players group) <? length (players best)
                        then group else best) with smaller.
  destruct (foldl_smallest (first :: rest) first) as [Hmin Hwhere].
  set (r := foldl smaller first (first :: rest)) in *.
  assert (∃ k, (first :: rest) !! k = Some r
               ∧ ∀ k' g', k' < k → (first :: rest) !! k' = Some g' →
                          length (players r) < length (players g'))
    as (k & Hk & Hbefore).
  { destruct Hwhere as [[Heq _]|(k & Hk & _ & Hbefore)].
    - exists 0. rewrite Heq. split; [done|]. intros; lia.
    - exists k. done. }
  exists k, r. split_and!; [done|done|done| |].
  - rewrite (updateFirst_insert _ _ _ k r);
      [done|done|by apply bool_decide_eq_true_2|].
    intros k' y Hk' Hy. apply bool_decide_eq_false_2. intros ->.
    specialize (Hbefore k' r Hk' Hy). lia.
  - intros Hbal g g' Hg Hg'.
    assert (∀ x, x ∈ <[k := set_players (players r ++ [mkPlayer playerId playerName]) r]>
                       (first :: rest) →
                 length (players r) ≤ length (players x)
                 ∧ length (players x) ≤ length (players r) + 1) as Hrange.
    { intros x (i & Hi)%list_elem_of_lookup.
      destruct (decide (i = k)) as [->|Hne].
      - rewrite list_lookup_insert_eq in Hi by (by eapply lookup_lt_Some).
        injection Hi as <-. cbn. rewrite length_app. cbn. lia.
      - rewrite list_lookup_insert_ne in Hi by done.
        apply list_elem_of_lookup_2 in Hi. split; [auto|].
        apply Hbal; [done|]. by eapply list_elem_of_lookup_2. }
    destruct (Hrange g Hg), (Hrange g' Hg'). lia.
Qed.

(** Fay joins the game of [Scenario] in its waiting room: she comes to group
    B, which has one player against four. *)
Lemma addPlayerToGame_smallest_group_witness :
  ∃ k g,
    groups (set_status waiting (Scenario.game false false)) !! k = Some g
    ∧ group_id g = "grpB"
    ∧ MemStorage.addPlayerToGame "g1" "Fay" "p9" Lobby.waitingRoom
      = Ok ("p9", "grpB", "Group 2",
            MemStorage.putGame "g1"
              (set_groups
                 (<[k := set_players (players g ++ [mkPlayer "p9" "Fay"]) g]>
                    (groups (set_status waiting (Scenario.game false false))))
                 (set_status waiting (Scenario.game false false)))
              Lobby.waitingRoom).
Proof.
  destruct (addPlayerToGame_smallest_group "g1" "Fay" "p9" Lobby.waitingRoom
              (set_status waiting (Scenario.game false false)))
    as (k & g & Hk & Hmin & Hfirst & Hrun & _); [reflexivity|reflexivity|done|].
  exists k, g.
  assert (k = 1) as ->.
  { destruct k as [|[|[|k]]]; [|done|done|done].
    injection Hk as <-. specialize (Hmin Scenario.groupB).
    cbn in Hmin. rewrite !elem_of_cons in Hmin. specialize (Hmin ltac:(auto)). lia. }
  injection Hk as <-. by split_and!.
Defined.

(** *** Serving the questions *)

Lemma find_split {A} (p : A → bool) (f : A → A) (l : list A) x :
  find p l = Some x →
  ∃ pre post, l = pre ++ x :: post ∧ Forall (λ y, p y = false) pre ∧ p x = true
              ∧ Js.updateFirst p f l = pre ++ f x :: post.
Proof.
  induction l as [|a l IH]; [done|]. cbn. destruct (p a) eqn:Hpa.
  - intros [= ->]. exists [], l. by split_and!.
  - intros (pre & post & -> & Hpre & Hx & Hupd)%IH.
    exists (a :: pre), post. rewrite Hupd. split_and!; try done. by constructor.
Qed.

Lemma find_none_Forall {A} (p : A → bool) (l : list A) :
  find p l = None → Forall (λ y, p y = false) l.
Proof.
  intros Hnone. apply Forall_forall. intros y Hy%list_elem_of_In.
  by apply (find_none _ _ Hnone).
Qed.

Lemma filter_unused_none (l : list Question) :
  Forall (λ q, negb (used q) = false) l → filter (λ q, used q = false) l = [].
Proof.
  induction 1 as [|q l Hq _ IH]; [done|].
  rewrite filter_cons_False; [done|]. by destruct (used q).
Qed.

Lemma set_used_used (l : list Question) :
  Forall (λ q, negb (used q) = false) l → set_used <$> l = l.
Proof.
  induction 1 as [|q l Hq _ IH]; [done|]. cbn. rewrite IH. f_equal.
  destruct q as [? ? ? []]; done.
Qed.

Lemma set_questions_same game : set_questions (questions game) game = game.
Proof. by destruct game. Qed.

Lemma serve_all n gameId st game :
  MemStorage.getGame gameId st = Some game →
  length (filter (λ q, used q = false) (questions game)) ≤ n →
  (serve n gameId st).1
  = asCurrent game <$> filter (λ q, used q = false) (questions game)
  ∧ MemStorage.getGame gameId (serve n gameId st).2
    = Some (set_questions (set_used <$> questions game) game)
  ∧ (∀ gameId', gameId' ≠ gameId →
       MemStorage.getGame gameId' (serve n gameId st).2
       = MemStorage.getGame gameId' st)
  ∧ MemStorage.playerAnswers (serve n gameId st).2 = MemStorage.playerAnswers st.
Proof.
  revert st game. induction n as [|n IH]; intros st game Hgame Hn.
  - apply Nat.le_0_r, length_zero_iff_nil in Hn. rewrite Hn. cbn.
    split_and!; try done. rewrite Hgame. f_equal.
    rewrite set_used_used, set_questions_same; [done|].
    apply Forall_forall. intros q Hq.
    destruct (used q) eqn:Hused; [done|].
    assert (q ∈ filter (λ q, used q = false) (questions game)) as Hin
      by by apply list_elem_of_filter.
    rewrite Hn in Hin. by apply elem_of_nil in Hin.
  - cbn [serve]. unfold MemStorage.getNextQuestion. rewrite Hgame.
    destruct (find (λ q, negb (used q)) (questions game)) as [q|] eqn:Hfind.
    + destruct (find_split _ set_used _ _ Hfind) as (pre & post & Hqs & Hpre & Hq & Hupd).
      rewrite Hupd.
      set (game' := set_questions (pre ++ set_used q :: post) game).
      set (st' := MemStorage.putGame gameId game' st).
      assert (filter (λ q, used q = false) (questions game)
              = q :: filter (λ q, used q = false) post) as Hunused.
      { rewrite Hqs, filter_app, filter_unused_none by done.
        rewrite filter_cons_True; [done|]. by destruct (used q). }
      assert (filter (λ q, used q = false) (questions game')
              = filter (λ q, used q = false) post) as Hunused'.
      { cbn. rewrite filter_app, filter_unused_none by done.
        by rewrite filter_cons_False. }
      destruct (IH st' game') as (Hserved & Hafter & Hothers & Hanswers).
      { unfold st', MemStorage.getGame. cbn. apply lookup_insert_eq. }
      { rewrite Hunused'. rewrite Hunused in Hn. cbn in Hn. lia. }
      destruct (serve n gameId st') as [served st''] eqn:Hserve. cbn in *.
      split_and!.
      * by rewrite Hunused, Hserved, Hunused'.
      * rewrite Hafter. f_equal. unfold game'. rewrite Hqs.
        rewrite !fmap_app, !fmap_cons. cbn. done.
      * intros gameId' Hne. rewrite Hothers by done.
        unfold st', MemStorage.getGame. cbn. by apply lookup_insert_ne.
      * by rewrite Hanswers.
    + cbn. pose proof (find_none_Forall _ _ Hfind) as Hall.
      rewrite filter_unused_none by done. split_and!; try done.
      rewrite Hgame, set_used_used, set_questions_same; done.
Qed.

(** X8.  [getNextQuestion] hands out every unused question of a game once, in
    the order of the game's list, and marks it used: called as often as the
    game has questions, it returns exactly the unused ones; after that all
    questions of the game are used and it returns [null], leaving the
    storage as it is. *)
Theorem getNextQuestion_serves_each_once (gameId : string) (st : MemStorage.t)
    (game : Game) :
  MemStorage.getGame gameId st = Some game →
  (serve (length (questions game)) gameId st).1
  = asCurrent game <$> filter (λ q, used q = false) (questions game)
  ∧ MemStorage.getGame gameId (serve (length (questions game)) gameId st).2
    = Some (set_questions (set_used <$> questions game) game)
  ∧ MemStorage.getNextQuestion gameId (serve (length (questions game)) gameId st).2
    = Ok (None, (serve (length (questions game)) gameId st).2).
Proof.
  intros Hgame.
  destruct (serve_all (length (questions game)) gameId st game Hgame)
    as (Hserved & Hafter & _ & _); [apply length_filter|].
  split_and!; [done..|].
  unfold MemStorage.getNextQuestion. rewrite Hafter. cbn [questions set_questions].
  destruct (find _ (set_used <$> questions game)) as [q|] eqn:Hfind; [|done].
  apply find_some in Hfind as [(q' & -> & _)%list_elem_of_In%list_elem_of_fmap Hq].
  done.
Qed.

Lemma getNextQuestion_serves_each_once_witness :
  (serve 2 "g1" (Coordinator.storage (Scenario.world false false))).1
  = [mkCurrent "q2" "Capital of Austria?" 30]
  ∧ MemStorage.getNextQuestion "g1"
      (serve 2 "g1" (Coordinator.storage (Scenario.world false false))).2
    = Ok (None, (serve 2 "g1" (Coordinator.storage (Scenario.world false false))).2).
Proof.
  destruct (getNextQuestion_serves_each_once "g1"
              (Coordinator.storage (Scenario.world false false))
              (Scenario.game false false)) as (Hserved & _ & Hnull); [reflexivity|].
  split; [exact Hserved|exact Hnull].
Defined.

(** *** Marking a cell *)

Lemma find_updateFirst_same {A} (p : A → bool) (f : A → A) (l : list A) :
  (∀ x, p (f x) = p x) → find p (Js.updateFirst p f l) = f <$> find p l.
Proof.
  intros Hf. induction l as [|a l IH]; [done|]. cbn.
  destruct (p a) eqn:Hpa; cbn.
  - by rewrite Hf, Hpa.
  - by rewrite Hpa.
Qed.

Lemma find_updateFirst_other {A} (p q : A → bool) (f : A → A) (l : list A) :
  (∀ x, q (f x) = q x) → (∀ x, p x = true → q x = false) →
  find q (Js.updateFirst p f l) = find q l.
Proof.
  intros Hf Hpq. induction l as [|a l IH]; [done|]. cbn.
  destruct (p a) eqn:Hpa; cbn.
  - by rewrite Hf, (Hpq a Hpa).
  - by rewrite IH.
Qed.

Lemma updateFirst_fmap {A B} `{EqDecision B} (key : A → B) (k : B) (f : A → A)
    (l : list A) :
  NoDup (key <$> l) →
  Js.updateFirst (λ x, bool_decide (key x = k)) f l
  = (λ x, if bool_decide (key x = k) then f x else x) <$> l.
Proof.
  induction l as [|a l IH]; [done|]. rewrite fmap_cons, NoDup_cons.
  intros [Ha Hl]. cbn. case_bool_decide as Hk.
  - f_equal. rewrite <- (list_fmap_id l) at 1. apply list_fmap_ext.
    intros i x Hx%list_elem_of_lookup_2. rewrite bool_decide_eq_false_2; [done|].
    intros Hkx. apply Ha. rewrite Hk, <- Hkx. by apply list_elem_of_fmap_2.
  - f_equal. by apply IH.
Qed.

(** X9.  A [setGroupAnswer] that returns has found the game with its current
    question, the group, the cell of the position after the dash and the
    question that is current.  On a board with one cell per position it
    marks that cell correct exactly when the cell's answer is the text of
    the current question, and unmarks it otherwise; the other cells of the
    group, and the other groups, are marked as before. *)
Theorem setGroupAnswer_marks_one_cell (gameId groupId cellId : string)
    (st st' : MemStorage.t) :
  MemStorage.setGroupAnswer gameId groupId cellId st = Ok (tt, st') →
  ∃ game current group prefix pos cell q,
    MemStorage.getGame gameId st = Some game
    ∧ currentQuestion game = Some current
    ∧ Js.findGroup groupId game = Some group
    ∧ Js.split "-" cellId = [prefix; pos]
    ∧ find (λ c, bool_decide (position c = pos)) (board group) = Some cell
    ∧ find (λ q, bool_decide (question_id q = current_id current)) (questions game)
      = Some q
    ∧ (NoDup (position <$> board group) →
       ∃ correctAnswers correctAnswers',
         MemStorage.getGroupCorrectAnswers gameId groupId st = Ok correctAnswers
         ∧ MemStorage.getGroupCorrectAnswers gameId groupId st' = Ok correctAnswers'
         ∧ ((pos, content cell) ∈ correctAnswers' ↔ answer cell = question q)
         ∧ ∀ p c, p ≠ pos → ((p, c) ∈ correctAnswers' ↔ (p, c) ∈ correctAnswers))
    ∧ (∀ groupId', groupId' ≠ groupId →
         MemStorage.getGroupCorrectAnswers gameId groupId' st'
         = MemStorage.getGroupCorrectAnswers gameId groupId' st).
Proof.
  unfold MemStorage.setGroupAnswer.
  destruct (MemStorage.getGame gameId st) as [game|] eqn:Hgame; [|done].
  destruct (currentQuestion game) as [current|] eqn:Hcurrent; [|done].
  destruct (Js.findGroup groupId game) as [group|] eqn:Hgroup; [|done].
  destruct (Js.split "-" cellId) as [|prefix [|pos [|? ?]]] eqn:Hsplit; try done.
  destruct (find _ (board group)) as [cell|] eqn:Hcell; [|done].
  destruct (find _ (questions game)) as [q|] eqn:Hq; [|done].
  intros [= <-]. exists game, current, group, prefix, pos, cell, q.
  split_and!; try done.
  - intros Hnodup.
    unfold MemStorage.getGroupCorrectAnswers. rewrite Hgame, Hgroup.
    unfold MemStorage.getGame. cbn. rewrite lookup_insert_eq.
    unfold Js.findGroup in *. cbn [groups set_groups].
    rewrite find_updateFirst_same by done. rewrite Hgroup. cbn.
    eexists _, _. split_and!; [done|done| |].
    + rewrite (updateFirst_fmap position pos) by done.
      apply find_some in Hcell as [Hin%list_elem_of_In Hpos%bool_decide_eq_true_1].
      rewrite list_elem_of_fmap. split.
      * intros (c' & [= Hp Hc] & [Hcorrect Hc']%list_elem_of_filter).
        apply list_elem_of_fmap in Hc' as (c0 & -> & Hc0).
        case_bool_decide as Hc0pos.
        -- cbn in Hcorrect. by apply bool_decide_eq_true_1 in Hcorrect.
        -- congruence.
      * intros Hanswer. exists (set_correct true cell).
        split; [cbn; by rewrite Hpos|].
        apply list_elem_of_filter. split; [done|].
        apply list_elem_of_fmap. exists cell. split; [|done].
        by rewrite bool_decide_eq_true_2, bool_decide_eq_true_2.
    + intros p c Hp. rewrite (updateFirst_fmap position pos) by done.
      rewrite !list_elem_of_fmap. split.
      * intros (c' & [= -> ->] & [Hcorrect Hc']%list_elem_of_filter).
        apply list_elem_of_fmap in Hc' as (c0 & -> & Hc0).
        case_bool_decide as Hc0pos; [done|].
        exists c0. split; [done|]. by apply list_elem_of_filter.
      * intros (c' & [= -> ->] & [Hcorrect Hc']%list_elem_of_filter).
        exists c'. split; [done|]. apply list_elem_of_filter. split; [done|].
        apply list_elem_of_fmap. exists c'. by rewrite bool_decide_eq_false_2.
  - intros groupId' Hne. unfold MemStorage.getGroupCorrectAnswers.
    rewrite Hgame. unfold MemStorage.getGame. cbn. rewrite lookup_insert_eq.
    unfold Js.findGroup. cbn [groups set_groups].
    rewrite find_updateFirst_other; [done|done|].
    intros g Hg%bool_decide_eq_true_1. apply bool_decide_eq_false_2. congruence.
Qed.

(** Group A answers the current question with B1, the cell of Oslo. *)
Lemma setGroupAnswer_marks_one_cell_witness :
  ∃ st',
    MemStorage.setGroupAnswer "g1" "grpA" "cell-B1"
      (Coordinator.storage (Scenario.world false false)) = Ok (tt, st')
    ∧ MemStorage.getGroupCorrectAnswers "g1" "grpB" st'
      = MemStorage.getGroupCorrectAnswers "g1" "grpB"
          (Coordinator.storage (Scenario.world false false)).
Proof.
  eexists. split; [reflexivity|].
  edestruct (setGroupAnswer_marks_one_cell "g1" "grpA" "cell-B1"
               (Coordinator.storage (Scenario.world false false)))
    as (game & current & group & prefix & pos & cell & q & _ & _ & _ & _ & _ & _
        & _ & Hothers); [reflexivity|].
  by apply Hothers.
Defined.

(** *** Creating a game *)

Lemma newCells_cells index positions shuffled cells :
  newCells index positions shuffled = Ok cells →
  position <$> cells = positions
  ∧ Forall (λ c, correct c = false) cells
  ∧ ∀ k c, cells !! k = Some c →
      ∃ q, shuffled !! ((index + k) `mod` length shuffled) = Some q
           ∧ content c = question_answer q ∧ answer c = question q.
Proof.
  revert index cells. induction positions as [|position rest IH];
    intros index cells; cbn [newCells].
  - intros [= <-]. split_and!; [done|done|]. by intros k c ?.
  - destruct (shuffled !! (index `mod` length shuffled)) as [q|] eqn:Hq; [|done].
    destruct (newCells (S index) rest shuffled) as [cells'|] eqn:Hrest; [|done].
    intros [= <-]. destruct (IH _ _ Hrest) as (Hpos & Hcorrect & Hcells).
    split_and!.
    + cbn. by rewrite Hpos.
    + by constructor.
    + intros [|k] c Hc.
      * injection Hc as <-. exists q. by rewrite Nat.add_0_r.
      * cbn in Hc. destruct (Hcells k c Hc) as (q' & Hq' & ? & ?).
        exists q'. by rewrite <- Nat.add_succ_comm.
Qed.

Lemma newCells_total index positions shuffled :
  shuffled ≠ [] → ∃ cells, newCells index positions shuffled = Ok cells.
Proof.
  intros Hne. revert index. induction positions as [|position rest IH];
    intros index; cbn [newCells]; [by eexists|].
  destruct (lookup_lt_is_Some_2 shuffled (index `mod` length shuffled)) as [q ->].
  { apply Nat.mod_upper_bound. by destruct shuffled. }
  destruct (IH (S index)) as [cells ->]. by eexists.
Qed.

Lemma newCells_empty index position rest :
  newCells index (position :: rest) []
  = Throw "TypeError: Cannot read properties of undefined".
Proof. done. Qed.

(** With enough questions every cell gets a question of its own. *)
Lemma newCells_take index positions shuffled cells :
  newCells index positions shuffled = Ok cells →
  index + length positions ≤ length shuffled →
  (λ c, (answer c, content c)) <$> cells
  = (λ q, (question q, question_answer q))
    <$> take (length positions) (drop index shuffled).
Proof.
  intros Hcells Hlen. destruct (newCells_cells _ _ _ _ Hcells) as (Hpos & _ & Hq).
  apply list_eq. intros k. rewrite !list_lookup_fmap.
  assert (length cells = length positions) as Hlength
    by by rewrite <- Hpos, length_fmap.
  destruct (decide (k < length positions)) as [Hk|Hk].
  - rewrite lookup_take_lt, lookup_drop by done.
    destruct (lookup_lt_is_Some_2 cells k) as [c Hc]; [lia|].
    rewrite Hc. destruct (Hq k c Hc) as (q & Hlook & Hcontent & Hanswer).
    rewrite Nat.mod_small in Hlook by lia. rewrite Hlook. cbn.
    by rewrite Hcontent, Hanswer.
  - rewrite lookup_take_ge by lia. rewrite lookup_ge_None_2 by lia. done.
Qed.

Lemma newGroups_groups uuid draw boardSize questions first i count groups :
  newGroups uuid draw boardSize questions first i count = Ok groups →
  length groups = count
  ∧ ∀ k g, groups !! k = Some g →
      group_id g = uuid (first + (i + k))
      ∧ group_name g = "Group " +:+ numToString (i + k + 1)
      ∧ players g = [] ∧ hasBingo g = false ∧ bingoPattern g = None
      ∧ newCells 0 (createPositionGrid boardSize)
          (shuffleArray (draw (i + k)) questions) = Ok (board g).
Proof.
  revert i groups. induction count as [|count IH]; intros i groups;
    cbn [newGroups].
  - intros [= <-]. split; [done|]. by intros k g ?.
  - destruct (newCells 0 _ _) as [cells|] eqn:Hcells; [|done].
    destruct (newGroups uuid draw boardSize questions first (S i) count)
      as [groups'|] eqn:Hrest; [|done].
    intros [= <-]. destruct (IH _ _ Hrest) as (Hlen & Hgroups).
    split; [cbn; by rewrite Hlen|].
    intros [|k] g Hg.
    + injection Hg as <-. rewrite !Nat.add_0_r. cbn. by split_and!.
    + cbn in Hg. destruct (Hgroups k g Hg) as (? & ? & ? & ? & ? & ?).
      replace (i + S k) with (S i + k) by lia. by split_and!.
Qed.

Lemma newGroups_total uuid draw boardSize questions first i count :
  questions ≠ [] →
  ∃ groups, newGroups uuid draw boardSize questions first i count = Ok groups.
Proof.
  intros Hne. revert i. induction count as [|count IH]; intros i;
    cbn [newGroups]; [by eexists|].
  destruct (newCells_total 0 (createPositionGrid boardSize)
              (shuffleArray (draw i) questions)) as [cells ->].
  { intros Hnil. apply Hne.
    apply Permutation_nil_r. rewrite <- Hnil. symmetry.
    apply shuffleFrom_Permutation. }
  destruct (IH (S i)) as [groups ->]. by eexists.
Qed.

Lemma newQuestions_texts uuid qs :
  (λ q, (question q, question_answer q)) <$> newQuestions uuid qs = qs
  ∧ Forall (λ q, used q = false) (newQuestions uuid qs)
  ∧ length (newQuestions uuid qs) = length qs.
Proof.
  unfold newQuestions. split_and!.
  - apply list_eq. intros k. rewrite list_lookup_fmap, list_lookup_imap.
    destruct (qs !! k) as [[text answer]|]; done.
  - apply Forall_forall. intros q (k & Hq)%list_elem_of_lookup.
    rewrite list_lookup_imap in Hq. destruct (qs !! k); [|done].
    by injection Hq as <-.
  - apply length_imap.
Qed.

(** X10.  A game that [createGame] returns is stored under its id, beside
    the games that were there; it is waiting, has no current question, the
    questions it was given, all unused, and as many groups as asked for.
    Every group is empty and without bingo; its board has the positions of
    [createPositionGrid] in their order, no cell marked, and every cell
    shows the answer of one of the game's questions and answers to that
    question.  With at least [boardSize * boardSize] questions, the cells of
    a board take the first questions of one shuffle, each question once. *)
Theorem createGame_fresh (data : GameData) (uuid : nat → string)
    (draw : nat → nat → nat) (createdAt : string) (st st' : MemStorage.t)
    (game : Game) :
  (∀ i k, draw i k ≤ k) →
  createGame data uuid draw createdAt st = Ok (game, st') →
  MemStorage.getGame (game_id game) st' = Some game
  ∧ (∀ gameId, gameId ≠ game_id game →
       MemStorage.getGame gameId st' = MemStorage.getGame gameId st)
  ∧ status game = waiting
  ∧ currentQuestion game = None
  ∧ (λ q, (question q, question_answer q)) <$> questions game = data_questions data
  ∧ Forall (λ q, used q = false) (questions game)
  ∧ length (groups game) = data_groupCount data
  ∧ ∀ g, g ∈ groups game →
      players g = [] ∧ hasBingo g = false
      ∧ position <$> board g = createPositionGrid (data_boardSize data)
      ∧ Forall (λ c, correct c = false) (board g)
      ∧ (∀ c, c ∈ board g →
           ∃ q, q ∈ questions game
                ∧ content c = question_answer q ∧ answer c = question q)
      ∧ (data_boardSize data * data_boardSize data ≤ length (data_questions data) →
         ∃ shuffledQuestions,
           shuffledQuestions ≡ₚ questions game
           ∧ (λ c, (answer c, content c)) <$> board g
             = (λ q, (question q, question_answer q))
               <$> take (data_boardSize data * data_boardSize data)
                     shuffledQuestions).
Proof.
  intros _. unfold createGame.
  destruct (newGroups _ _ _ _ _ _ _) as [groups|] eqn:Hgroups; [|done].
  intros [= <- <-]. cbn.
  destruct (newQuestions_texts uuid (data_questions data)) as (Htexts & Hunused & Hlen).
  destruct (newGroups_groups _ _ _ _ _ _ _ _ Hgroups) as (Hcount & Hgroup).
  split_and!; try done.
  - unfold MemStorage.getGame. cbn. apply lookup_insert_eq.
  - intros gameId Hne. unfold MemStorage.getGame. cbn. by apply lookup_insert_ne.
  - intros g (k & Hg)%list_elem_of_lookup.
    destruct (Hgroup k g Hg) as (_ & _ & Hplayers & Hbingo & _ & Hboard).
    destruct (newCells_cells _ _ _ _ Hboard) as (Hpos & Hcorrect & Hcells).
    split_and!; try done.
    + intros c (i & Hc)%list_elem_of_lookup.
      destruct (Hcells i c Hc) as (q & Hq%list_elem_of_lookup_2 & ? & ?).
      exists q. split_and!; try done.
      unfold shuffleArray in Hq. by rewrite shuffleFrom_Permutation in Hq.
    + intros Henough. eexists. split; [apply shuffleFrom_Permutation|].
      fold (shuffleArray (draw (0 + k)) (newQuestions uuid (data_questions data))).
      pose proof (proj1 (createPositionGrid_layout (data_boardSize data))) as Hsize.
      rewrite (newCells_take _ _ _ _ Hboard), drop_0, Hsize; [done|].
      rewrite Hsize. unfold shuffleArray.
      rewrite (Permutation_length (shuffleFrom_Permutation _ _ _)). lia.
Qed.

Lemma draw_in_range i k : Lobby.draw i k ≤ k.
Proof. unfold Lobby.draw. apply Nat.Div0.div_le_upper_bound. nia. Qed.

Lemma createGame_fresh_witness :
  ∃ game st',
    createGame Lobby.data Lobby.uuid Lobby.draw "2025-01-01T00:00:00.000Z"
      Lobby.empty = Ok (game, st')
    ∧ MemStorage.getGame "id-0" st' = Some game
    ∧ length (groups game) = 2.
Proof.
  eexists _, _. split; [vm_compute; reflexivity|].
  edestruct (createGame_fresh Lobby.data Lobby.uuid Lobby.draw
               "2025-01-01T00:00:00.000Z" Lobby.empty)
    as (Hstored & _ & _ & _ & _ & _ & Hcount & _);
    [apply draw_in_range|vm_compute; reflexivity|].
  split; [exact Hstored|exact Hcount].
Defined.

(** X11.  [createGame] throws exactly when it has a cell to fill and no
    question to fill it with: it returns a game when there is a question,
    when the board has no cell or when no group is asked for. *)
Theorem createGame_needs_a_question (data : GameData) (uuid : nat → string)
    (draw : nat → nat → nat) (createdAt : string) (st : MemStorage.t) :
  (∀ i k, draw i k ≤ k) →
  (∃ game st', createGame data uuid draw createdAt st = Ok (game, st'))
  ↔ data_questions data ≠ [] ∨ data_boardSize data = 0 ∨ data_groupCount data = 0.
Proof.
  intros _. unfold createGame. split.
  - intros (game & st' & Hrun).
    destruct (data_questions data) as [|q qs] eqn:Hqs; [|by left]. right.
    destruct (data_groupCount data) as [|count]; [by right|]. left.
    destruct (data_boardSize data) as [|size]; [done|].
    cbn in Hrun. done.
  - intros [Hqs|[Hsize|Hcount]].
    + destruct (newGroups_total uuid draw (data_boardSize data)
                  (newQuestions uuid (data_questions data))
                  (1 + length (newQuestions uuid (data_questions data)))
                  0 (data_groupCount data)) as [groups ->]; [|by eexists _, _].
      intros Hnil. apply Hqs.
      destruct (newQuestions_texts uuid (data_questions data)) as (_ & _ & Hlen).
      rewrite Hnil in Hlen. by destruct (data_questions data).
    + rewrite Hsize.
      assert (∀ questions first i count,
                ∃ groups, newGroups uuid draw 0 questions first i count = Ok groups)
        as Htotal.
      { intros questions first i count. revert i.
        induction count as [|count IH]; intros i; cbn; [by eexists|].
        destruct (IH (S i)) as [groups ->]. by eexists. }
      destruct (Htotal (newQuestions uuid (data_questions data))
                  (1 + length (newQuestions uuid (data_questions data))) 0
                  (data_groupCount data)) as [groups ->].
      by eexists _, _.
    + rewrite Hcount. cbn. by eexists _, _.
Qed.

Lemma createGame_needs_a_question_witness :
  ∃ game st',
    createGame Lobby.data Lobby.uuid Lobby.draw "2025-01-01T00:00:00.000Z"
      Lobby.empty = Ok (game, st').
Proof.
  apply (createGame_needs_a_question Lobby.data Lobby.uuid Lobby.draw
           "2025-01-01T00:00:00.000Z" Lobby.empty); [apply draw_in_range|].
  by left.
Defined.

End StorageExtra.

(** ** More of the coordinator *)

Module CoordinatorExtra.

Import Tally Coordinator CoordinatorProofs Compositional Invariants JsMapProofs
  TallyProofs VoteProofs BingoProofs Utils UtilsProofs UtilsExtra.

(** *** Properties that compose along a handler, from a given world *)

Section Pointwise.

Variable P : World → World → list Action → Prop.
Hypothesis P_refl : ∀ w, P w w [].
Hypothesis P_trans :
  ∀ w1 w2 w3 t1 t2, P w1 w2 t1 → P w2 w3 t2 → P w1 w3 (t1 ++ t2).

Lemma holds_ret {A} (a : A) w : holds P (mret a) w.
Proof. apply P_refl. Qed.

Lemma holds_throw {A} e w : holds P (throw e : M A) w.
Proof. apply P_refl. Qed.

Lemma holds_bind {A B} (m : M A) (k : A → M B) w :
  holds P m w →
  (∀ a, (m w).1.1 = Ok a → holds P (k a) (m w).1.2) →
  holds P (m ≫= k) w.
Proof.
  unfold holds. intros Hm Hk. rewrite run_bind.
  destruct (m w) as [[[a|e] w1] t1]; [|done].
  specialize (Hk a eq_refl). cbn in *.
  destruct (k a w1) as [[r w2] t2]. cbn in *. by apply (P_trans _ w1).
Qed.

Lemma holds_world_bind {A} (k : World → M A) w :
  holds P (k w) w → holds P (world ≫= k) w.
Proof.
  intros Hk. apply holds_bind; [apply P_refl|]. by intros a [= <-].
Qed.

Lemma holds_getGame_bind {A} gameId (k : Game → M A) w :
  (∀ game, MemStorage.getGame gameId (storage w) = Some game →
           holds P (k game) w) →
  holds P (getGameOrThrow gameId ≫= k) w.
Proof.
  intros Hk. unfold holds. rewrite run_bind, run_getGameOrThrow.
  destruct (MemStorage.getGame gameId (storage w)) as [game|] eqn:Hgame;
    [|apply P_refl].
  specialize (Hk game eq_refl). unfold holds in Hk.
  destruct (k game w) as [[r w2] t2]. cbn in *. done.
Qed.

Lemma holds_tryCatch {A} (body : M A) (handler : string → M A) w :
  holds P body w →
  (∀ e, (body w).1.1 = Throw e → holds P (handler e) (body w).1.2) →
  holds P (tryCatch body handler) w.
Proof.
  unfold holds. intros Hbody Hhandler. rewrite run_tryCatch.
  destruct (body w) as [[[a|e] w1] t1]; [done|].
  specialize (Hhandler e eq_refl). cbn in *.
  destruct (handler e w1) as [[r w2] t2]. cbn in *. by apply (P_trans _ w1).
Qed.

Lemma holds_forEach {A} (xs : list A) (body : A → M unit) w :
  (∀ x w', holds P (body x) w') → holds P (forEach xs body) w.
Proof.
  intros Hbody. revert w. induction xs as [|x xs IH]; intros w; [apply P_refl|].
  cbn [forEach]. apply holds_bind; [apply Hbody|]. intros _ _. apply IH.
Qed.

Lemma holds_update (f : World → World) w : P w (f w) [] → holds P (update f) w.
Proof. done. Qed.

Lemma holds_emit (t : list Action) w : P w w t → holds P (emit t) w.
Proof. done. Qed.

Lemma holds_store {A} call (method : MemStorage.t → result (A * MemStorage.t)) w :
  (∀ a st, method (storage w) = Ok (a, st) →
           P w (set_storage st w) [Stored call]) →
  holds P (store call method) w.
Proof.
  intros Hmethod. unfold holds. rewrite run_store.
  destruct (method (storage w)) as [[a st]|e] eqn:Hrun; [|apply P_refl].
  by apply (Hmethod a st).
Qed.

Lemma holds_satisfies {A} (m : M A) w : satisfies P m → holds P m w.
Proof. intros Hm. apply Hm. Qed.

End Pointwise.

(** One step of the structural proof that a handler has a property from a
    given world. *)
Ltac holds_step Prefl Ptrans :=
  lazymatch goal with
  | |- holds _ (mret _) _ => apply (holds_ret _ Prefl)
  | |- holds _ (throw _) _ => apply (holds_throw _ Prefl)
  | |- holds _ (world ≫= _) _ => apply (holds_world_bind _ Prefl Ptrans)
  | |- holds _ (getGameOrThrow _ ≫= _) _ =>
      apply (holds_getGame_bind _ Prefl); intros ? ?
  | |- holds _ (_ ≫= _) _ => apply (holds_bind _ Ptrans); [|intros ? ?]
  | |- holds _ (tryCatch _ _) _ => apply (holds_tryCatch _ Ptrans); [|intros ? ?]
  | |- holds _ (forEach _ _) _ => apply (holds_forEach _ Prefl Ptrans); intros ? ?
  | |- holds _ (update _) _ => apply holds_update
  | |- holds _ (emit _) _ => apply holds_emit
  | |- holds _ (store _ _) _ => apply (holds_store _ Prefl); intros ? ? ?
  | |- holds _ (match ?x with _ => _ end) _ => destruct x eqn:?
  end.

(** *** Routing *)

Lemma routed_refl gameId w : routed gameId w w [].
Proof. split_and!; [done..|]. by intros ws msg ?%elem_of_nil. Qed.

Lemma registeredOpen_same gameId w w' ws :
  gameConnections w' = gameConnections w → readyState w' = readyState w →
  registeredOpen w' gameId ws → registeredOpen w gameId ws.
Proof.
  intros Hc Hr (connections & playerId & Hconn & Hin & Hopen).
  exists connections, playerId. unfold isOpen in *. by rewrite <- Hc, <- Hr.
Qed.

Lemma routed_trans gameId w1 w2 w3 t1 t2 :
  routed gameId w1 w2 t1 → routed gameId w2 w3 t2 →
  routed gameId w1 w3 (t1 ++ t2).
Proof.
  intros (Hc1 & Hr1 & H1) (Hc2 & Hr2 & H2). split_and!; [congruence..|].
  intros ws msg [?|?]%elem_of_app; [eauto|].
  eapply registeredOpen_same; eauto.
Qed.

Lemma routed_sends gameId w trace :
  (∀ ws msg, Sent ws msg ∈ trace → registeredOpen w gameId ws) →
  routed gameId w w trace.
Proof. intros Hsent. split_and!; [done..|exact Hsent]. Qed.

Lemma routed_broadcast gameId w msg : routed gameId w w (broadcast w gameId msg).
Proof.
  apply routed_sends. intros ws msg'. unfold broadcast.
  destruct (gameConnections w !! gameId) as [connections|] eqn:Hconn;
    [|by intros ?%elem_of_nil].
  intros ([playerId ws'] & [= -> ->] & [Hopen Hin]%list_elem_of_filter)%list_elem_of_fmap.
  by exists connections, playerId.
Qed.

Lemma routed_gameUpdates gameId w : routed gameId w w (gameUpdates w gameId).
Proof.
  apply routed_sends. intros ws msg. unfold gameUpdates.
  destruct (MemStorage.getGame gameId (storage w)) as [game|];
    [|by intros ?%elem_of_nil].
  destruct (gameConnections w !! gameId) as [connections|] eqn:Hconn;
    [|by intros ?%elem_of_nil].
  rewrite elem_of_app. intros [Hhost|Hplayer].
  - destruct (JsMap.get "host" connections) as [hostConnection|] eqn:Hget;
      [|by apply elem_of_nil in Hhost].
    destruct (isOpen w hostConnection) eqn:Hopen; [|by apply elem_of_nil in Hhost].
    apply list_elem_of_singleton in Hhost as [= -> ->].
    exists connections, "host". split_and!; [done| |done].
    by apply get_Some_elem.
  - unfold playerUpdates in Hplayer.
    apply list_elem_of_bind in Hplayer as ([playerId connection] & Ha & Hin).
    destruct (bool_decide (playerId = "host")); [by apply elem_of_nil in Ha|].
    destruct (isOpen w connection) eqn:Hopen; [|by apply elem_of_nil in Ha].
    cbn in Ha. destruct (Js.findPlayerGroup playerId game);
      [|by apply elem_of_nil in Ha].
    apply list_elem_of_singleton in Ha as [= -> ->].
    by exists connections, playerId.
Qed.

Lemma routed_storage gameId w st : routed gameId w (set_storage st w) [].
Proof. split_and!; [done..|]. by intros ws msg ?%elem_of_nil. Qed.

Lemma routed_quiet gameId w w' :
  gameConnections w' = gameConnections w → readyState w' = readyState w →
  routed gameId w w' [].
Proof. intros. split_and!; [done..|]. by intros ws msg ?%elem_of_nil. Qed.

Lemma routed_stored gameId w st call : routed gameId w (set_storage st w) [Stored call].
Proof.
  split_and!; [done..|]. intros ws msg Hin.
  apply list_elem_of_singleton in Hin. done.
Qed.

Lemma routed_hostSelections gameId w game cellId pos limit connections :
  gameConnections w !! gameId = Some connections →
  routed gameId w w (hostSelections w game cellId pos limit connections).
Proof.
  intros Hconn. apply routed_sends. intros ws msg. unfold hostSelections.
  intros ([playerId connection] & Ha & Hin)%list_elem_of_bind.
  destruct (isOpen w connection) eqn:Hopen; [|by apply elem_of_nil in Ha].
  case_bool_decide; [|by apply elem_of_nil in Ha]. cbn in Ha.
  apply list_elem_of_singleton in Ha as [= -> ->].
  by exists connections, playerId.
Qed.

Lemma routed_playerVotes gameId w (members : list Player) connections msg :
  gameConnections w !! gameId = Some connections →
  routed gameId w w
    (p ← members;
     match JsMap.get (player_id p) connections with
     | Some connection =>
         if isOpen w connection then [Sent connection msg] else []
     | None => []
     end).
Proof.
  intros Hconn. apply routed_sends.
  intros ws msg' (p & Ha & _)%list_elem_of_bind.
  destruct (JsMap.get (player_id p) connections) as [connection|] eqn:Hget;
    [|by apply elem_of_nil in Ha].
  destruct (isOpen w connection) eqn:Hopen; [|by apply elem_of_nil in Ha].
  apply list_elem_of_singleton in Ha as [= -> ->].
  exists connections, (player_id p). split_and!; [done| |done].
  by apply get_Some_elem.
Qed.

Lemma routed_hostVote gameId w connections msg :
  gameConnections w !! gameId = Some connections →
  routed gameId w w
    (match JsMap.get "host" connections with
     | Some hostConnection =>
         if isOpen w hostConnection then [Sent hostConnection msg] else []
     | None => []
     end).
Proof.
  intros Hconn. apply routed_sends. intros ws msg' Ha.
  destruct (JsMap.get "host" connections) as [connection|] eqn:Hget;
    [|by apply elem_of_nil in Ha].
  destruct (isOpen w connection) eqn:Hopen; [|by apply elem_of_nil in Ha].
  apply list_elem_of_singleton in Ha as [= -> ->].
  exists connections, "host". split_and!; [done| |done].
  by apply get_Some_elem.
Qed.

Ltac routed_leaf :=
  first
    [ apply routed_refl
    | apply routed_stored
    | apply routed_gameUpdates
    | apply routed_broadcast
    | by apply routed_hostSelections
    | by apply routed_playerVotes
    | by apply routed_hostVote
    | by apply routed_quiet
    | unfold clearAnswers, resetAnswers, recordVote;
      repeat case_match; by apply routed_quiet ].

Lemma routed_dispatch gameId data w : holds (routed gameId) (dispatch gameId data) w.
Proof.
  destruct data;
    unfold dispatch, handleStartGame, handleEndGame, handleNextQuestion,
      handleSelectAnswer, checkGroupConsensus, handleHostSelection,
      handlePlayerAnswer, handleRevealAnswer, revealAnswers, revealGroup,
      checkBingo, sendGameUpdate, sendAll;
    repeat holds_step (routed_refl gameId) (routed_trans gameId);
    routed_leaf.
Qed.

(** X12.  Whatever a client message makes the coordinator send goes to an
    open socket that is registered for the game of the message; the one
    exception is the [error] that answers the sender of a message whose
    handling threw.  The handling changes neither the registry nor the state
    of a socket. *)
Theorem message_routing (ws : nat) (gameId : string) (data : ClientMessage)
    (w : World) :
  gameConnections (onMessage ws gameId data w).1.2 = gameConnections w
  ∧ readyState (onMessage ws gameId data w).1.2 = readyState w
  ∧ ∀ ws' msg,
      Sent ws' msg ∈ (onMessage ws gameId data w).2 →
      (ws' = ws ∧ msg = error "Failed to process message")
      ∨ registeredOpen w gameId ws'.
Proof.
  pose proof (routed_dispatch gameId data w) as (Hconn & Hready & Hsent).
  unfold onMessage. rewrite run_tryCatch.
  destruct (dispatch gameId data w) as [[[[]|e] w'] trace]; cbn in *.
  - split_and!; [done..|]. intros ws' msg Hin. right. eauto.
  - split_and!; [done..|]. intros ws' msg [Hin|Hin]%elem_of_app.
    + right. eauto.
    + left. by apply list_elem_of_singleton in Hin as [= -> ->].
Qed.

(** *** Other games *)

Lemma confined_refl gameId w : confined gameId w w [].
Proof. by intros gameId' Hne. Qed.

Lemma confined_trans gameId w1 w2 w3 t1 t2 :
  confined gameId w1 w2 t1 → confined gameId w2 w3 t2 →
  confined gameId w1 w3 (t1 ++ t2).
Proof.
  intros H1 H2 gameId' Hne. destruct (H1 _ Hne) as [<- <-]. by apply H2.
Qed.

Lemma confined_storage gameId w st t :
  (∀ gameId', gameId' ≠ gameId →
     MemStorage.getGame gameId' st = MemStorage.getGame gameId' (storage w)) →
  confined gameId w (set_storage st w) t.
Proof. intros Hst gameId' Hne. split; [by apply Hst|done]. Qed.

Lemma getGame_putGame_ne gameId gameId' game st :
  gameId' ≠ gameId →
  MemStorage.getGame gameId' (MemStorage.putGame gameId game st)
  = MemStorage.getGame gameId' st.
Proof. intros Hne. unfold MemStorage.getGame. cbn. by apply lookup_insert_ne. Qed.

Ltac method_confined :=
  intros Hrun gameId' Hne;
  repeat case_match; simplify_eq;
  first [ done | by apply getGame_putGame_ne ].

Lemma updateGameStatus_confined gameId s st a st' :
  MemStorage.updateGameStatus gameId s st = Ok (a, st') →
  ∀ gameId', gameId' ≠ gameId →
    MemStorage.getGame gameId' st' = MemStorage.getGame gameId' st.
Proof. unfold MemStorage.updateGameStatus. method_confined. Qed.

Lemma getNextQuestion_confined gameId st a st' :
  MemStorage.getNextQuestion gameId st = Ok (a, st') →
  ∀ gameId', gameId' ≠ gameId →
    MemStorage.getGame gameId' st' = MemStorage.getGame gameId' st.
Proof. unfold MemStorage.getNextQuestion. method_confined. Qed.

Lemma updateCurrentQuestion_confined gameId q st a st' :
  MemStorage.updateCurrentQuestion gameId q st = Ok (a, st') →
  ∀ gameId', gameId' ≠ gameId →
    MemStorage.getGame gameId' st' = MemStorage.getGame gameId' st.
Proof. unfold MemStorage.updateCurrentQuestion. method_confined. Qed.

Lemma recordPlayerAnswer_confined gameId playerId groupId cellId time st a st' :
  MemStorage.recordPlayerAnswer gameId playerId groupId cellId time st = Ok (a, st') →
  ∀ gameId', MemStorage.getGame gameId' st' = MemStorage.getGame gameId' st.
Proof.
  unfold MemStorage.recordPlayerAnswer. intros Hrun gameId'.
  repeat case_match; by simplify_eq.
Qed.

Lemma setGroupAnswer_confined gameId groupId cellId st a st' :
  MemStorage.setGroupAnswer gameId groupId cellId st = Ok (a, st') →
  ∀ gameId', gameId' ≠ gameId →
    MemStorage.getGame gameId' st' = MemStorage.getGame gameId' st.
Proof. unfold MemStorage.setGroupAnswer. method_confined. Qed.

Lemma setGroupBingo_confined gameId groupId pattern st a st' :
  MemStorage.setGroupBingo gameId groupId pattern st = Ok (a, st') →
  ∀ gameId', gameId' ≠ gameId →
    MemStorage.getGame gameId' st' = MemStorage.getGame gameId' st.
Proof. unfold MemStorage.setGroupBingo. method_confined. Qed.

Lemma confined_votes gameId w w' :
  storage w' = storage w →
  (∀ gameId', gameId' ≠ gameId → gameAnswers w' !! gameId' = gameAnswers w !! gameId') →
  confined gameId w w' [].
Proof. intros Hst Hvotes gameId' Hne. rewrite Hst. auto. Qed.

Ltac confined_leaf :=
  first
    [ apply confined_refl
    | apply confined_storage;
      first [ by eapply updateGameStatus_confined
            | by eapply getNextQuestion_confined
            | by eapply updateCurrentQuestion_confined
            | by (intros; eapply recordPlayerAnswer_confined)
            | by eapply setGroupAnswer_confined
            | by eapply setGroupBingo_confined ]
    | unfold clearAnswers, resetAnswers, recordVote;
      repeat case_match;
      (apply confined_votes; [done|]);
      intros ? ?; cbn; by rewrite ?lookup_insert_ne ].

Lemma confined_dispatch gameId data w :
  holds (confined gameId) (dispatch gameId data) w.
Proof.
  destruct data;
    unfold dispatch, handleStartGame, handleEndGame, handleNextQuestion,
      handleSelectAnswer, checkGroupConsensus, handleHostSelection,
      handlePlayerAnswer, handleRevealAnswer, revealAnswers, revealGroup,
      checkBingo, sendGameUpdate, sendAll;
    repeat holds_step (confined_refl gameId) (confined_trans gameId);
    confined_leaf.
Qed.

(** X13.  A client message for one game leaves every other game as it is:
    what is stored of it and its votes in flight. *)
Theorem other_games_untouched (ws : nat) (gameId gameId' : string)
    (data : ClientMessage) (w : World) :
  gameId' ≠ gameId →
  MemStorage.getGame gameId' (storage (onMessage ws gameId data w).1.2)
  = MemStorage.getGame gameId' (storage w)
  ∧ gameAnswers (onMessage ws gameId data w).1.2 !! gameId'
    = gameAnswers w !! gameId'.
Proof.
  intros Hne. pose proof (confined_dispatch gameId data w) as Hconf.
  unfold holds in Hconf. unfold onMessage. rewrite run_tryCatch.
  destruct (dispatch gameId data w) as [[[[]|e] w'] trace]; cbn in *;
    by apply Hconf.
Qed.

Lemma other_games_untouched_witness :
  MemStorage.getGame "g2"
    (storage
       (onMessage 2 "g1" (select_answer "p1" "cell-B1")
          (withGame "g2" (Scenario.game true true) (Scenario.world false false))).1.2)
  = Some (Scenario.game true true).
Proof.
  destruct (other_games_untouched 2 "g1" "g2" (select_answer "p1" "cell-B1")
              (withGame "g2" (Scenario.game true true) (Scenario.world false false)))
    as [Hstored _]; [done|].
  rewrite Hstored. reflexivity.
Defined.

(** *** What a game keeps *)

Lemma Forall2_same {A} (R : A → A → Prop) (l : list A) :
  (∀ x, R x x) → Forall2 R l l.
Proof. intros HR. induction l; constructor; auto. Qed.

Lemma Forall2_trans' {A} (R : A → A → Prop) (l1 l2 l3 : list A) :
  (∀ x y z, R x y → R y z → R x z) →
  Forall2 R l1 l2 → Forall2 R l2 l3 → Forall2 R l1 l3.
Proof.
  intros HR H12. revert l3. induction H12 as [|x y l1 l2 Hxy _ IH];
    intros l3 H23; inversion H23; subst; constructor; eauto.
Qed.

Lemma Forall2_updateFirst {A} (R : A → A → Prop) p f (l : list A) :
  (∀ x, R x x) → (∀ x, R x (f x)) → Forall2 R l (Js.updateFirst p f l).
Proof.
  intros Hrefl Hf. induction l as [|x l IH]; cbn; [constructor|].
  destruct (p x); constructor; auto using Forall2_same.
Qed.

Lemma Forall2_updateFirst_found {A} (R : A → A → Prop) p f (l : list A) :
  (∀ x, R x x) → (∀ x, find p l = Some x → R x (f x)) →
  Forall2 R l (Js.updateFirst p f l).
Proof.
  intros Hrefl. induction l as [|x l IH]; cbn; [constructor|].
  destruct (p x) eqn:Hp; intros Hf; constructor; auto using Forall2_same.
Qed.

Lemma cellKept_refl c : cellKept c c.
Proof. done. Qed.

Lemma cellKept_trans c1 c2 c3 : cellKept c1 c2 → cellKept c2 c3 → cellKept c1 c3.
Proof. intros (?&?&?) (?&?&?). split_and!; congruence. Qed.

Lemma membersKept_refl g : membersKept g g.
Proof. split_and!; try done. apply Forall2_same, cellKept_refl. Qed.

Lemma membersKept_trans g1 g2 g3 :
  membersKept g1 g2 → membersKept g2 g3 → membersKept g1 g3.
Proof.
  intros (?&?&?&?) (?&?&?&?). split_and!; try congruence.
  eapply Forall2_trans'; eauto using cellKept_trans.
Qed.

Lemma questionKept_refl q : questionKept q q.
Proof. done. Qed.

Lemma questionKept_trans q1 q2 q3 :
  questionKept q1 q2 → questionKept q2 q3 → questionKept q1 q3.
Proof. intros (?&?&?&?) (?&?&?&?). split_and!; try congruence. auto. Qed.

Lemma gameKept_refl g : gameKept g g.
Proof.
  split_and!; try done.
  - apply Forall2_same, questionKept_refl.
  - apply Forall2_same, membersKept_refl.
Qed.

Lemma gameKept_trans g1 g2 g3 : gameKept g1 g2 → gameKept g2 g3 → gameKept g1 g3.
Proof.
  intros (?&?&?&?&?&?&?&?&?&?&?&?) (?&?&?&?&?&?&?&?&?&?&?&?).
  split_and!; try congruence.
  - lia.
  - auto.
  - eapply Forall2_trans'; eauto using questionKept_trans.
  - eapply Forall2_trans'; eauto using membersKept_trans.
Qed.

Lemma gamesKept_refl st : gamesKept st st.
Proof. intros gameId game Hgame. exists game. auto using gameKept_refl. Qed.

Lemma gamesKept_trans st1 st2 st3 :
  gamesKept st1 st2 → gamesKept st2 st3 → gamesKept st1 st3.
Proof.
  intros H12 H23 gameId game1 Hgame1.
  destruct (H12 _ _ Hgame1) as (game2 & Hgame2 & Hkept12).
  destruct (H23 _ _ Hgame2) as (game3 & Hgame3 & Hkept23).
  exists game3. eauto using gameKept_trans.
Qed.

Lemma gamesKept_games st st' :
  MemStorage.games st' = MemStorage.games st → gamesKept st st'.
Proof.
  intros Hgames gameId game Hgame. exists game. split; [|apply gameKept_refl].
  unfold MemStorage.getGame in *. by rewrite Hgames.
Qed.

Lemma gamesKept_putGame st gameId game game' :
  MemStorage.getGame gameId st = Some game → gameKept game game' →
  gamesKept st (MemStorage.putGame gameId game' st).
Proof.
  intros Hgame Hkept id g Hg. unfold MemStorage.getGame, MemStorage.putGame in *.
  cbn. destruct (decide (gameId = id)) as [->|Hne].
  - rewrite lookup_insert_eq. exists game'. split; [done|]. congruence.
  - rewrite lookup_insert_ne by done. exists g. auto using gameKept_refl.
Qed.

Lemma kept_refl w : kept w w [].
Proof. apply gamesKept_refl. Qed.

Lemma kept_trans w1 w2 w3 t1 t2 :
  kept w1 w2 t1 → kept w2 w3 t2 → kept w1 w3 (t1 ++ t2).
Proof. apply gamesKept_trans. Qed.

(** A status that is not behind the stored one. *)
Lemma kept_updateGameStatus gameId s w game a st call :
  MemStorage.getGame gameId (storage w) = Some game →
  rank (status game) ≤ rank s →
  MemStorage.updateGameStatus gameId s (storage w) = Ok (a, st) →
  kept w (set_storage st w) [Stored call].
Proof.
  intros Hgame Hrank. unfold MemStorage.updateGameStatus. rewrite Hgame.
  intros [= _ <-]. apply (gamesKept_putGame _ _ game); [done|].
  split_and!; try done.
  - apply Forall2_same, questionKept_refl.
  - apply Forall2_same, membersKept_refl.
Qed.

Lemma gamesKept_completed gameId st a st' :
  MemStorage.updateGameStatus gameId completed st = Ok (a, st') → gamesKept st st'.
Proof.
  unfold MemStorage.updateGameStatus.
  destruct (MemStorage.getGame gameId st) as [game|] eqn:Hgame; [|done].
  intros [= _ <-]. apply (gamesKept_putGame _ _ game); [done|].
  split_and!; try done.
  - cbn. destruct (status game); cbn; lia.
  - apply Forall2_same, questionKept_refl.
  - apply Forall2_same, membersKept_refl.
Qed.

Lemma gamesKept_getNextQuestion gameId st a st' :
  MemStorage.getNextQuestion gameId st = Ok (a, st') → gamesKept st st'.
Proof.
  unfold MemStorage.getNextQuestion.
  destruct (MemStorage.getGame gameId st) as [game|] eqn:Hgame; [|done].
  destruct (find _ (questions game)); intros [= _ <-]; [|apply gamesKept_refl].
  apply (gamesKept_putGame _ _ game); [done|].
  split_and!; try done.
  - apply Forall2_updateFirst; [apply questionKept_refl|]. by intros x.
  - apply Forall2_same, membersKept_refl.
Qed.

Lemma gamesKept_updateCurrentQuestion gameId q st a st' :
  MemStorage.updateCurrentQuestion gameId q st = Ok (a, st') → gamesKept st st'.
Proof.
  unfold MemStorage.updateCurrentQuestion.
  destruct (MemStorage.getGame gameId st) as [game|] eqn:Hgame; [|done].
  intros [= _ <-]. apply (gamesKept_putGame _ _ game); [done|].
  split_and!; try done.
  - apply Forall2_same, questionKept_refl.
  - apply Forall2_same, membersKept_refl.
Qed.

Lemma gamesKept_recordPlayerAnswer gameId playerId groupId cellId time st a st' :
  MemStorage.recordPlayerAnswer gameId playerId groupId cellId time st = Ok (a, st') →
  gamesKept st st'.
Proof.
  unfold MemStorage.recordPlayerAnswer. intros Hrun.
  repeat case_match; try done. injection Hrun as _ <-.
  by apply gamesKept_games.
Qed.

Lemma gamesKept_setGroupAnswer gameId groupId cellId st a st' :
  MemStorage.setGroupAnswer gameId groupId cellId st = Ok (a, st') →
  gamesKept st st'.
Proof.
  unfold MemStorage.setGroupAnswer. intros Hrun.
  destruct (MemStorage.getGame gameId st) as [game|] eqn:Hgame; [|done].
  repeat case_match; try done. injection Hrun as _ <-.
  apply (gamesKept_putGame _ _ game); [done|].
  split_and!; try done.
  - apply Forall2_same, questionKept_refl.
  - apply Forall2_updateFirst_found; [apply membersKept_refl|].
    intros x Hx. unfold Js.findGroup in *. assert (x = g) as -> by congruence.
    split_and!; try done. cbn.
    apply Forall2_updateFirst; [apply cellKept_refl|]. by intros y.
Qed.

Lemma gamesKept_setGroupBingo gameId groupId pattern st a st' :
  MemStorage.setGroupBingo gameId groupId pattern st = Ok (a, st') →
  gamesKept st st'.
Proof.
  unfold MemStorage.setGroupBingo. intros Hrun.
  destruct (MemStorage.getGame gameId st) as [game|] eqn:Hgame; [|done].
  repeat case_match; try done. injection Hrun as _ <-.
  apply (gamesKept_putGame _ _ game); [done|].
  split_and!; try done.
  - apply Forall2_same, questionKept_refl.
  - apply Forall2_updateFirst; [apply membersKept_refl|].
    intros x. split_and!; try done. apply Forall2_same, cellKept_refl.
Qed.

Ltac kept_leaf :=
  unfold kept;
  first
    [ apply gamesKept_refl
    | by eapply gamesKept_completed
    | by eapply gamesKept_getNextQuestion
    | by eapply gamesKept_updateCurrentQuestion
    | by eapply gamesKept_recordPlayerAnswer
    | by eapply gamesKept_setGroupAnswer
    | by eapply gamesKept_setGroupBingo
    | unfold clearAnswers, resetAnswers, recordVote;
      repeat case_match; apply gamesKept_refl ].

Lemma kept_dispatch gameId data w : holds kept (dispatch gameId data) w.
Proof.
  destruct data;
    unfold dispatch, handleStartGame, handleEndGame, handleNextQuestion,
      handleSelectAnswer, checkGroupConsensus, handleHostSelection,
      handlePlayerAnswer, handleRevealAnswer, revealAnswers, revealGroup,
      checkBingo, sendGameUpdate, sendAll;
    repeat holds_step kept_refl kept_trans;
    try kept_leaf.
  eapply kept_updateGameStatus; [done| |done].
  apply bool_decide_eq_false_1 in Heqb.
  destruct (status game); cbn; try lia. by destruct Heqb.
Qed.

Lemma kept_handler e w : holds kept (handler e) w.
Proof.
  destruct e as [ws gameId playerId|ws gameId data|ws gameId playerId|k|ws s|t].
  - unfold handler, onConnection, sendGameUpdate.
    repeat holds_step kept_refl kept_trans; kept_leaf.
  - unfold handler, onMessage. holds_step kept_refl kept_trans.
    + apply kept_dispatch.
    + holds_step kept_refl kept_trans. kept_leaf.
  - unfold handler, onClose.
    repeat holds_step kept_refl kept_trans; kept_leaf.
  - unfold handler. repeat holds_step kept_refl kept_trans; try kept_leaf.
    match goal with
    | |- holds _ (handleRevealAnswer ?g ?c ?p) _ =>
        apply (kept_dispatch g (reveal_answer c p))
    end.
  - unfold handler. repeat holds_step kept_refl kept_trans; kept_leaf.
  - unfold handler. repeat holds_step kept_refl kept_trans; kept_leaf.
Qed.

(** X14.  Through any sequence of socket events and timers every stored game
    stays stored and keeps its id, its name and its settings; its status
    only moves forward (waiting, active, completed); a current question,
    once set, stays set; the questions keep their ids and texts, and a used
    question stays used; the groups keep their ids, names and players, and
    the cells of their boards keep position, content and answer. *)
Theorem game_kept_through_events (events : list Event) (w : World) :
  gamesKept (storage w) (storage (run events w).1).
Proof.
  induction events as [|e events IH] using rev_ind; [apply gamesKept_refl|].
  rewrite run_snoc, step_handler. cbn [fst].
  eapply gamesKept_trans; [exact IH|]. apply kept_handler.
Qed.

(** *** A completed game *)

(** X15.  An event of a game that is completed when its handling starts
    changes nothing: the handler of every message, and the reveal that a
    timer starts, read the game, find it neither waiting nor active and stop
    before they write or send; the world is as before, and the only message
    is the [error] to the sender where the handler throws.  (A handler that
    has read the game before it was completed is not an event of a completed
    game.) *)
Theorem completed_game_rejects_events (gameId : string) (game : Game) (w : World) :
  MemStorage.getGame gameId (storage w) = Some game →
  status game = completed →
  (∀ ws data,
     onMessage ws gameId data w = (Ok tt, w, [])
     ∨ onMessage ws gameId data w
       = (Ok tt, w, [Sent ws (error "Failed to process message")]))
  ∧ (∀ ws, onMessage ws gameId start_game w
           = (Ok tt, w, [Sent ws (error "Failed to process message")])
           ∧ onMessage ws gameId end_game w
             = (Ok tt, w, [Sent ws (error "Failed to process message")])
           ∧ onMessage ws gameId next_question w
             = (Ok tt, w, [Sent ws (error "Failed to process message")])
           ∧ ∀ playerId cellId,
               onMessage ws gameId (select_answer playerId cellId) w
               = (Ok tt, w, [Sent ws (error "Failed to process message")]))
  ∧ (∀ cellId pos, handleRevealAnswer gameId cellId pos w = (Ok tt, w, [])).
Proof.
  intros Hgame Hdone.
  assert (∀ s, s ≠ completed → bool_decide (status game ≠ s) = true) as Hnot.
  { intros s Hs. apply bool_decide_eq_true_2. by rewrite Hdone. }
  assert (∀ ws, onMessage ws gameId start_game w
                = (Ok tt, w, [Sent ws (error "Failed to process message")])
                ∧ onMessage ws gameId end_game w
                  = (Ok tt, w, [Sent ws (error "Failed to process message")])
                ∧ onMessage ws gameId next_question w
                  = (Ok tt, w, [Sent ws (error "Failed to process message")])
                ∧ ∀ playerId cellId,
                    onMessage ws gameId (select_answer playerId cellId) w
                    = (Ok tt, w, [Sent ws (error "Failed to process message")]))
    as Hthrows.
  { intros ws. split_and!.
    - unfold onMessage, dispatch, handleStartGame.
      by rewrite run_tryCatch, run_bind, run_getGameOrThrow, Hgame, Hnot.
    - unfold onMessage, dispatch, handleEndGame.
      by rewrite run_tryCatch, run_bind, run_getGameOrThrow, Hgame, Hnot.
    - unfold onMessage, dispatch, handleNextQuestion.
      by rewrite run_tryCatch, run_bind, run_getGameOrThrow, Hgame, Hnot.
    - intros playerId cellId. unfold onMessage, dispatch, handleSelectAnswer.
      rewrite run_tryCatch. destruct (_ || _); [done|].
      by rewrite run_bind, run_getGameOrThrow, Hgame, Hnot. }
  assert (∀ cellId pos, handleRevealAnswer gameId cellId pos w = (Ok tt, w, []))
    as Hreveal.
  { intros cellId pos. unfold handleRevealAnswer, revealAnswers.
    by rewrite run_tryCatch, run_bind, run_getGameOrThrow, Hgame, Hnot. }
  split_and!; [|done|done].
  intros ws data. destruct (Hthrows ws) as (Hstart & Hend & Hnext & Hselect).
  destruct data; try (by right).
  - left. unfold onMessage, dispatch, handleHostSelection.
    by rewrite !run_tryCatch, run_bind, run_getGameOrThrow, Hgame, Hnot.
  - left. unfold onMessage, dispatch. by rewrite run_tryCatch, Hreveal.
  - left. unfold onMessage, dispatch, handlePlayerAnswer.
    by rewrite !run_tryCatch, run_bind, run_getGameOrThrow, Hgame, Hnot.
  - by left.
Qed.

Lemma completed_game_rejects_events_witness :
  (∀ ws data,
     onMessage ws "g1" data
       (withGame "g1" (set_status completed (Scenario.game false false))
          (Scenario.world false false))
     = (Ok tt,
        withGame "g1" (set_status completed (Scenario.game false false))
          (Scenario.world false false), [])
     ∨ onMessage ws "g1" data
         (withGame "g1" (set_status completed (Scenario.game false false))
            (Scenario.world false false))
       = (Ok tt,
          withGame "g1" (set_status completed (Scenario.game false false))
            (Scenario.world false false),
          [Sent ws (error "Failed to process message")]))
  ∧ onMessage 2 "g1" (select_answer "p1" "cell-B1")
      (withGame "g1" (set_status completed (Scenario.game false false))
         (Scenario.world false false))
    = (Ok tt,
       withGame "g1" (set_status completed (Scenario.game false false))
         (Scenario.world false false),
       [Sent 2 (error "Failed to process message")]).
Proof.
  destruct (completed_game_rejects_events "g1"
              (set_status completed (Scenario.game false false))
              (withGame "g1" (set_status completed (Scenario.game false false))
                 (Scenario.world false false)) eq_refl eq_refl)
    as (Hall & Hthrows & _).
  split; [exact Hall|]. apply Hthrows.
Defined.

(** *** Votes of a round *)

Lemma lookup_resetVotes (groups : list Group) (m : gmap string (JsMap.t string string)) g :
  g ∈ groups →
  foldl (λ m group, <[group_id group := []]> m) m groups !! group_id g = Some [].
Proof.
  revert m. induction groups as [|g' groups IH] using rev_ind; intros m;
    [by intros ?%elem_of_nil|].
  rewrite foldl_app. cbn [foldl]. intros [Hin|Hin%list_elem_of_singleton]%elem_of_app.
  - destruct (decide (group_id g' = group_id g)) as [->|Hne].
    + apply lookup_insert_eq.
    + rewrite lookup_insert_ne by done. by apply IH.
  - subst. apply lookup_insert_eq.
Qed.

(** X16.  A host selection on an active game opens a round: the vote map of
    every group of the game is empty afterwards, the storage is untouched,
    and, when sockets are registered for the game, the timer of the reveal
    is set and exactly the open sockets registered under another id than
    the host's are sent [host_selected], each with the content of the cell
    at that position on the board of its player's group. *)
Theorem host_selection_opens_round (gameId cellId pos : string) (limit : nat)
    (w : World) (game : Game) :
  MemStorage.getGame gameId (storage w) = Some game →
  status game = active →
  storage (handleHostSelection gameId cellId pos limit w).1.2 = storage w
  ∧ (∀ g, g ∈ groups game →
       votesOf gameId (group_id g) (handleHostSelection gameId cellId pos limit w).1.2
       = Some [])
  ∧ (∀ connections,
       gameConnections w !! gameId = Some connections →
       timers (handleHostSelection gameId cellId pos limit w).1.2
       = timers w ++ [(gameId, cellId, pos)]
       ∧ ∀ ws msg,
           Sent ws msg ∈ (handleHostSelection gameId cellId pos limit w).2 ↔
           ∃ playerId,
             (playerId, ws) ∈ connections ∧ playerId ≠ "host"
             ∧ isOpen w ws = true
             ∧ msg = host_selected cellId pos limit
                       (match playerGroup ← Js.findPlayerGroup playerId game;
                              find (λ c, bool_decide (position c = pos))
                                (board playerGroup) with
                        | Some c => content c
                        | None => ""
                        end)
                       (currentQuestion game)).
Proof.
  intros Hgame Hactive.
  unfold handleHostSelection. rewrite run_tryCatch, run_bind, run_getGameOrThrow, Hgame.
  rewrite Hactive, bool_decide_eq_false_2 by (by intros ?).
  rewrite run_bind. cbn [update fst snd]. rewrite run_bind. cbn [world fst snd].
  change (gameConnections (resetAnswers gameId game w)) with (gameConnections w).
  destruct (gameConnections w !! gameId) as [connections|] eqn:Hconn.
  - rewrite run_bind. cbn [emit update fst snd]. split_and!.
    + done.
    + intros g Hg. unfold votesOf. cbn. rewrite lookup_insert_eq. cbn.
      by apply lookup_resetVotes.
    + intros ? [= <-]. split; [done|]. intros ws msg.
      rewrite !app_nil_l, app_nil_r. unfold hostSelections.
      rewrite list_elem_of_bind. split.
      * intros ([playerId connection] & Ha & Hin).
        change (isOpen (resetAnswers gameId game w) connection)
          with (isOpen w connection) in Ha.
        destruct (isOpen w connection) eqn:Hopen; [|by apply elem_of_nil in Ha].
        case_bool_decide; [|by apply elem_of_nil in Ha]. cbn in Ha.
        apply list_elem_of_singleton in Ha as [= -> ->].
        exists playerId. by split_and!.
      * intros (playerId & Hin & Hhost & Hopen & ->).
        exists (playerId, ws). split; [|done].
        change (isOpen (resetAnswers gameId game w) ws) with (isOpen w ws).
        rewrite Hopen, bool_decide_eq_true_2 by done. cbn.
        apply list_elem_of_singleton. done.
  - cbn. split_and!; [done| |done].
    intros g Hg. unfold votesOf. cbn. rewrite lookup_insert_eq. cbn.
    by apply lookup_resetVotes.
Qed.

Lemma host_selection_opens_round_witness :
  votesOf "g1" "grpB"
    (handleHostSelection "g1" "cell-B2" "B2" 30
       (recordVote "g1" "grpB" "p4" "cell-C3" (Scenario.world false false))).1.2
  = Some [].
Proof.
  destruct (host_selection_opens_round "g1" "cell-B2" "B2" 30
              (recordVote "g1" "grpB" "p4" "cell-C3" (Scenario.world false false))
              (Scenario.game false false))
    as (_ & Hvotes & _); [reflexivity..|].
  apply (Hvotes Scenario.groupB). right. left.
Defined.

(** *** A vote in flight *)

Lemma votersOf_length (groupAnswers : JsMap.t string string) c :
  length (votersOf groupAnswers c) = votesFor (JsMap.values groupAnswers) c.
Proof.
  unfold votersOf, JsMap.values. rewrite length_fmap.
  induction groupAnswers as [|[p c'] m IH]; [done|].
  rewrite fmap_cons, votesFor_cons, filter_cons. cbn [snd].
  destruct (decide (c' = c)) as [->|Hne].
  - rewrite bool_decide_eq_true_2 by done. cbn. by rewrite IH.
  - rewrite bool_decide_eq_false_2 by done. by rewrite IH.
Qed.

(** X17.  An [answer_select] of a player of an active game is recorded in the
    vote map of the player's group, under the player's id, and touches
    neither the storage nor the votes of another group.  The [player_vote]
    that reports it goes to open sockets only: to the host's, with the id of
    the group, and to those of the members of the player's group, and to no
    other socket.  It lists every choice of the group with its voters, each
    choice with at least one voter and as many votes as voters. *)
Theorem player_vote_stays_in_group (gameId playerId cellId pos : string)
    (w : World) (game : Game) (playerGroup : Group)
    (connections : JsMap.t string nat) :
  MemStorage.getGame gameId (storage w) = Some game →
  status game = active →
  Js.findPlayerGroup playerId game = Some playerGroup →
  gameConnections w !! gameId = Some connections →
  storage (handlePlayerAnswer gameId playerId cellId pos w).1.2 = storage w
  ∧ votesOf gameId (group_id playerGroup)
      (handlePlayerAnswer gameId playerId cellId pos w).1.2
    = Some (JsMap.set playerId cellId
              (default [] (votesOf gameId (group_id playerGroup) w)))
  ∧ (∀ groupId, groupId ≠ group_id playerGroup →
       votesOf gameId groupId (handlePlayerAnswer gameId playerId cellId pos w).1.2
       = votesOf gameId groupId w)
  ∧ ∀ ws msg,
      Sent ws msg ∈ (handlePlayerAnswer gameId playerId cellId pos w).2 →
      isOpen w ws = true
      ∧ ∃ options,
          (∀ o, o ∈ options →
             option_votes o = length (option_voters o) ∧ 0 < option_votes o
             ∧ ∀ p, p ∈ option_voters o ↔
                    (p, option_id o)
                    ∈ JsMap.set playerId cellId
                        (default [] (votesOf gameId (group_id playerGroup) w)))
          ∧ ((JsMap.get "host" connections = Some ws
              ∧ msg = player_vote (Some (group_id playerGroup)) playerId cellId
                        options)
             ∨ (∃ member, member ∈ players playerGroup
                  ∧ JsMap.get (player_id member) connections = Some ws
                  ∧ msg = player_vote None playerId cellId options)).
Proof.
  intros Hgame Hactive Hgroup Hconn.
  unfold handlePlayerAnswer.
  rewrite run_tryCatch, run_bind, run_getGameOrThrow, Hgame.
  rewrite Hactive, bool_decide_eq_false_2 by (by intros ?). rewrite Hgroup.
  rewrite run_bind. cbn [update fst snd]. rewrite run_bind. cbn [world fst snd].
  change (gameConnections (recordVote gameId (group_id playerGroup) playerId cellId w))
    with (gameConnections w).
  rewrite Hconn, run_bind. cbn [emit fst snd].
  rewrite votesOf_recordVote. cbn [default].
  set (groupAnswers := JsMap.set playerId cellId
                         (default [] (votesOf gameId (group_id playerGroup) w))).
  split_and!.
  - done.
  - done.
  - intros groupId Hne. unfold votesOf, recordVote. cbn.
    rewrite lookup_insert_eq. cbn. rewrite lookup_insert_ne by done.
    by destruct (gameAnswers w !! gameId).
  - intros ws msg.
    change (isOpen (recordVote gameId (group_id playerGroup) playerId cellId w))
      with (isOpen w).
    assert (∀ o, o ∈ answerOptions game pos groupAnswers →
              option_votes o = length (option_voters o) ∧ 0 < option_votes o
              ∧ ∀ p, p ∈ option_voters o ↔ (p, option_id o) ∈ groupAnswers)
      as Hoptions.
    { intros o ([c n] & -> & Hin)%list_elem_of_fmap. cbn.
      rewrite countAnswers_firstOcc in Hin.
      apply list_elem_of_fmap in Hin as (c' & [= -> ->] & Hc).
      rewrite elem_of_firstOcc in Hc.
      rewrite votersOf_length. split; [done|].
      split; [by apply (proj1 (votesFor_pos _ _))|].
      intros p. unfold votersOf. rewrite list_elem_of_fmap. split.
      - intros ([p' c''] & -> & [Hc' Hin]%list_elem_of_filter). cbn in *. by subst.
      - intros Hin. exists (p, c'). split; [done|]. by apply list_elem_of_filter. }
    rewrite !app_nil_l, elem_of_app. intros [Hmember|Hhost].
    + apply list_elem_of_bind in Hmember as (member & Ha & Hin).
      destruct (JsMap.get (player_id member) connections) as [connection|] eqn:Hget;
        [|by apply elem_of_nil in Ha].
      destruct (isOpen w connection) eqn:Hopen; [|by apply elem_of_nil in Ha].
      apply list_elem_of_singleton in Ha as [= -> ->].
      split; [done|]. eexists. split; [exact Hoptions|]. right. by exists member.
    + destruct (JsMap.get "host" connections) as [connection|] eqn:Hget;
        [|by apply elem_of_nil in Hhost].
      destruct (isOpen w connection) eqn:Hopen; [|by apply elem_of_nil in Hhost].
      apply list_elem_of_singleton in Hhost as [= -> ->].
      split; [done|]. eexists. split; [exact Hoptions|]. by left.
Qed.

Lemma player_vote_stays_in_group_witness :
  votesOf "g1" "grpA"
    (handlePlayerAnswer "g1" "p2" "cell-B2" "B2" (Scenario.world false false)).1.2
  = Some [("p2", "cell-B2")]
  ∧ votesOf "g1" "grpB"
      (handlePlayerAnswer "g1" "p2" "cell-B2" "B2" (Scenario.world false false)).1.2
    = None.
Proof.
  destruct (player_vote_stays_in_group "g1" "p2" "cell-B2" "B2"
              (Scenario.world false false) (Scenario.game false false)
              (Scenario.groupA false) Scenario.connections)
    as (_ & Hgroup & Hothers & _); [reflexivity..|].
  split; [exact Hgroup|]. by rewrite (Hothers "grpB").
Defined.

(** *** The registry of the sockets *)

Lemma get_delete_eq {V} (k : string) (m : JsMap.t string V) :
  JsMap.get k (JsMap.delete k m) = None.
Proof.
  apply get_None. unfold JsMap.keys, JsMap.delete.
  intros ([k' v] & -> & [Hne _]%list_elem_of_filter)%list_elem_of_fmap. done.
Qed.

Lemma get_delete_ne {V} (k k' : string) (m : JsMap.t string V) :
  k' ≠ k → JsMap.get k' (JsMap.delete k m) = JsMap.get k' m.
Proof.
  intros Hne. unfold JsMap.delete. induction m as [|[k0 v0] m IH]; [done|].
  rewrite filter_cons. cbn [fst]. destruct (decide (k0 ≠ k)) as [Hk0|Hk0].
  - rewrite !get_cons. by rewrite IH.
  - apply dec_stable in Hk0. subst k0.
    rewrite get_cons, bool_decide_eq_false_2 by done. done.
Qed.

Lemma step_Connection_world ws gameId playerId w :
  (step (Connection ws gameId playerId) w).1
  = set_gameConnections
      (<[gameId := JsMap.set (default "host" playerId) ws
                     (default [] (gameConnections w !! gameId))]>
         (gameConnections w))
      (set_readyState (<[ws := OPEN]> (readyState w)) w).
Proof. reflexivity. Qed.

Lemma step_Close_world ws gameId playerId w :
  (step (Close ws gameId playerId) w).1
  = match gameConnections w !! gameId with
    | None => set_readyState (<[ws := CLOSED]> (readyState w)) w
    | Some connections =>
        set_gameConnections
          (if bool_decide
                (length (JsMap.delete (default "host" playerId) connections) = 0)
           then delete gameId (gameConnections w)
           else <[gameId := JsMap.delete (default "host" playerId) connections]>
                  (gameConnections w))
          (set_readyState (<[ws := CLOSED]> (readyState w)) w)
    end.
Proof.
  unfold step, handler, onClose. rewrite run_bind. cbn.
  by destruct (gameConnections w !! gameId).
Qed.

(** X18.  The registry of the sockets.  A connection registers its socket,
    open, under the id of its player (["host"] without one) for its game and
    replaces what was registered under that id; the other ids of the game
    keep their sockets.  A close removes the registration of its player id,
    whichever socket holds it, and with the last registration the entry of
    the game; the other ids keep their sockets.  Neither touches the
    storage. *)
Theorem connection_registry (w : World) (ws : nat) (gameId : string)
    (playerId : option string) :
  (∃ connections,
     gameConnections (step (Connection ws gameId playerId) w).1 !! gameId
     = Some connections
     ∧ JsMap.get (default "host" playerId) connections = Some ws
     ∧ (∀ other, other ≠ default "host" playerId →
          JsMap.get other connections
          = JsMap.get other (default [] (gameConnections w !! gameId)))
     ∧ isOpen (step (Connection ws gameId playerId) w).1 ws = true)
  ∧ (∀ connections,
       gameConnections (step (Close ws gameId playerId) w).1 !! gameId
       = Some connections →
       connections ≠ []
       ∧ JsMap.get (default "host" playerId) connections = None)
  ∧ (∀ other, other ≠ default "host" playerId →
       gameConnections (step (Close ws gameId playerId) w).1 !! gameId
         ≫= JsMap.get other
       = gameConnections w !! gameId ≫= JsMap.get other)
  ∧ storage (step (Connection ws gameId playerId) w).1 = storage w
  ∧ storage (step (Close ws gameId playerId) w).1 = storage w.
Proof.
  rewrite step_Connection_world, step_Close_world. split_and!.
  - eexists. cbn. rewrite lookup_insert_eq. split_and!; [done| | |].
    + apply get_set_eq.
    + intros other Hne. by apply get_set_ne.
    + unfold isOpen. cbn. rewrite lookup_insert_eq. by apply bool_decide_eq_true_2.
  - intros connections.
    destruct (gameConnections w !! gameId) as [old|] eqn:Hold; cbn.
    + case_bool_decide as Hempty; cbn.
      * by rewrite lookup_delete_eq.
      * rewrite lookup_insert_eq. intros [= <-]. split.
        -- intros Hnil. by rewrite Hnil in Hempty.
        -- apply get_delete_eq.
    + by rewrite Hold.
  - intros other Hne.
    destruct (gameConnections w !! gameId) as [old|] eqn:Hold; cbn.
    + case_bool_decide as Hempty; cbn.
      * rewrite lookup_delete_eq. cbn.
        apply nil_length_inv in Hempty.
        rewrite <- (get_delete_ne (default "host" playerId)) by done.
        by rewrite Hempty.
      * rewrite lookup_insert_eq. cbn. by apply get_delete_ne.
    + by rewrite Hold.
  - done.
  - by destruct (gameConnections w !! gameId).
Qed.

(** *** The bingo check *)

Lemma run_world_bind {A} (k : World → M A) w : (world ≫= k) w = k w w.
Proof. rewrite run_bind. cbn. by destruct (k w w) as [[r w'] t]. Qed.

(** X19.  A bingo is recorded only for a line that is marked: when the bingo
    check records a pattern for a group, the pattern is a line of
    [size] distinct labels on the board, every label stands for the cell of
    a position that is marked correct on the stored board of the group, and
    the group is stored with the bingo and the pattern.  (Board sizes up to
    191.) *)
Theorem bingo_only_for_marked_line (gameId : string) (group : Group) (size : nat)
    (w : World) (pattern : list string) :
  size ≤ 191 →
  Stored (SetGroupBingo gameId (group_id group) pattern)
  ∈ (checkBingo gameId group size w).2 →
  ∃ game stored,
    MemStorage.getGame gameId (storage w) = Some game
    ∧ Js.findGroup (group_id group) game = Some stored
    ∧ length pattern = size
    ∧ NoDup pattern
    ∧ (∀ l, l ∈ pattern →
         onBoard size l = true
         ∧ ∃ cell, cell ∈ board stored ∧ correct cell = true
                   ∧ rowOf (position cell) = rowOf l
                   ∧ colOf (position cell) = colOf l)
    ∧ MemStorage.getGame gameId (storage (checkBingo gameId group size w).1.2)
      = Some (set_groups
                (Js.updateFirst (λ g, bool_decide (group_id g = group_id group))
                   (set_bingo pattern) (groups game)) game).
Proof.
  intros Hsize. unfold checkBingo. rewrite run_world_bind.
  unfold MemStorage.getGroupCorrectAnswers.
  destruct (MemStorage.getGame gameId (storage w)) as [game|] eqn:Hgame;
    [|by intros ?%elem_of_nil].
  destruct (Js.findGroup (group_id group) game) as [stored|] eqn:Hstored;
    [|by intros ?%elem_of_nil].
  destruct (size <=? _); [|by intros ?%elem_of_nil].
  destruct (checkBingoPattern _ size) as [[found|]|] eqn:Hcheck;
    try by intros ?%elem_of_nil.
  rewrite run_bind, run_store. unfold MemStorage.setGroupBingo.
  rewrite Hgame, Hstored. unfold sendAll. rewrite run_world_bind.
  cbn [emit fst snd]. intros [Hin|Hin]%elem_of_cons.
  2:{ unfold broadcast in Hin. destruct (gameConnections _ !! gameId);
        [|by apply elem_of_nil in Hin].
      by apply list_elem_of_fmap in Hin as (? & ? & _). }
  injection Hin as <-.
  destruct (checkBingoPattern_sound _ _ _ Hsize Hcheck) as (Hlen & Hnodup & Hline).
  exists game, stored. split_and!; try done.
  - intros l Hl. destruct (Hline l Hl) as (Hon & pos & Hpos & _ & Hrow & Hcol).
    split; [done|].
    rewrite <- list_fmap_compose in Hpos.
    apply list_elem_of_fmap in Hpos as (cell & -> & [Hcorrect Hcell]%list_elem_of_filter).
    exists cell. done.
  - unfold MemStorage.getGame. cbn. apply lookup_insert_eq.
Qed.

Lemma bingo_only_for_marked_line_witness :
  ∃ game stored,
    MemStorage.getGame "g1" (storage (Scenario.world true false)) = Some game
    ∧ Js.findGroup "grpA" game = Some stored
    ∧ ∀ l, l ∈ ["A1"; "A2"; "A3"] →
        ∃ cell, cell ∈ board stored ∧ correct cell = true
                ∧ rowOf (position cell) = rowOf l
                ∧ colOf (position cell) = colOf l.
Proof.
  destruct (bingo_only_for_marked_line "g1" (Scenario.groupA true) 3
              (Scenario.world true false) ["A1"; "A2"; "A3"])
    as (game & stored & Hgame & Hstored & _ & _ & Hline & _).
  - lia.
  - vm_compute. left.
  - exists game, stored. split_and!; [done..|]. intros l Hl. by apply Hline.
Defined.

(** *** Consensus *)

Lemma FirstVoteWinner_unique cellIds c c' :
  FirstVoteWinner cellIds c → FirstVoteWinner cellIds c' → c = c'.
Proof.
  intros (b & a & Heq & Hb & Hmax & Hlt) (b' & a' & Heq' & Hb' & Hmax' & Hlt').
  destruct (Nat.lt_trichotomy (length b) (length b')) as [Hlen|[Hlen|Hlen]].
  - assert (c ∈ b') as Hin.
    { apply (list_elem_of_lookup_2 _ (length b)).
      rewrite <- (lookup_app_l b' (c' :: a')) by done.
      rewrite <- Heq', Heq. by rewrite list_lookup_middle. }
    specialize (Hlt' c Hin). specialize (Hmax c'). lia.
  - assert (cellIds !! length b = Some c) as H1
      by (rewrite Heq; by apply list_lookup_middle).
    assert (cellIds !! length b = Some c') as H2
      by (rewrite Heq', Hlen; by apply list_lookup_middle).
    congruence.
  - assert (c' ∈ b) as Hin.
    { apply (list_elem_of_lookup_2 _ (length b')).
      rewrite <- (lookup_app_l b (c :: a)) by done.
      rewrite <- Heq, Heq'. by rewrite list_lookup_middle. }
    specialize (Hlt c' Hin). specialize (Hmax' c). lia.
Qed.

(** X20.  The per-vote path.  On the cell ids of the stored answers of a
    group, not empty and none of them the empty text, [checkGroupConsensus]
    resolves to exactly one choice: the one with the highest count, and
    among those with the highest count the one whose first vote is the
    earliest in the list. *)
Theorem per_vote_consensus (cellIds : list string) (c : string) :
  cellIds ≠ [] → "" ∉ cellIds →
  groupConsensus cellIds = Some c ↔ FirstVoteWinner cellIds c.
Proof.
  intros Hne Hempty.
  destruct (groupConsensus_first_vote cellIds Hne Hempty) as (c0 & Hc0 & Hwin).
  rewrite Hc0. split.
  - by intros [= <-].
  - intros Hwin'. f_equal. by apply (FirstVoteWinner_unique cellIds).
Qed.

Lemma per_vote_consensus_witness :
  groupConsensus ["cell-B2"; "cell-A1"; "cell-A1"; "cell-B2"; "cell-C3"]
  = Some "cell-B2"
  ↔ FirstVoteWinner ["cell-B2"; "cell-A1"; "cell-A1"; "cell-B2"; "cell-C3"]
      "cell-B2".
Proof.
  apply (per_vote_consensus
           ["cell-B2"; "cell-A1"; "cell-A1"; "cell-B2"; "cell-C3"] "cell-B2").
  - done.
  - rewrite !not_elem_of_cons. split_and!; try done. apply not_elem_of_nil.
Defined.

(** The running winner of the reveal-time tally: the counts so far, the
    highest count so far, and the choice that reached it first. *)
Lemma revealTally_running (cellIds : list string) :
  let '(counts, best, high) := revealTally cellIds in
  counts = countAnswers cellIds
  ∧ (∀ x, votesFor cellIds x ≤ high)
  ∧ (cellIds = [] ∧ best = "" ∧ high = 0
     ∨ ∃ before after,
         cellIds = before ++ best :: after
         ∧ votesFor (before ++ [best]) best = high
         ∧ ∀ x, votesFor before x < high).
Proof.
  induction cellIds as [|c l IH] using rev_ind.
  - cbn. split_and!; [done|by intros x|by left].
  - unfold revealTally in *. rewrite foldl_app. cbn [foldl].
    destruct (foldl revealStep ([], "", 0) l) as [[counts best] high].
    destruct IH as (-> & Hmax & Hbest). unfold revealStep.
    rewrite get_countAnswers.
    assert (default 0 (if bool_decide (c ∈ l) then Some (votesFor l c) else None)
            = votesFor l c) as ->.
    { case_bool_decide as Hc; [done|]. cbn. symmetry. by apply votesFor_zero. }
    assert (JsMap.set c (votesFor l c + 1) (countAnswers l) = countAnswers (l ++ [c]))
      as Hcounts.
    { unfold countAnswers at 2. rewrite foldl_app. cbn [foldl]. unfold bump.
      fold (countAnswers l). rewrite get_countAnswers.
      case_bool_decide as Hc; [done|]. cbn.
      by rewrite (proj1 (votesFor_zero l c) Hc). }
    destruct (Nat.ltb_spec high (votesFor l c + 1)) as [Hhigher|Hlower].
    + split_and!; [done| |].
      * intros x. rewrite votesFor_snoc. specialize (Hmax x).
        case_bool_decide; [subst; lia|lia].
      * right. exists l, []. split_and!; [done| |].
        -- rewrite votesFor_snoc, bool_decide_eq_true_2 by done. done.
        -- intros x. specialize (Hmax x). lia.
    + split_and!; [done| |].
      * intros x. rewrite votesFor_snoc. specialize (Hmax x).
        case_bool_decide; [subst; lia|lia].
      * right. destruct Hbest as [(-> & _ & ->)|(before & after & -> & Hbest & Hbefore)].
        -- cbn in Hlower. lia.
        -- exists before, (after ++ [c]). split_and!; [|done|done].
           by rewrite <- app_assoc.
Qed.

(** X21.  The reveal path.  On the values of the vote map of a group, not
    empty and none of them the empty text, [handleRevealAnswer] resolves to
    a choice with the highest count, and among those with the highest count
    to the one that reached that count first: with the vote that makes it
    reach the count no choice has reached it before, and the choice gets no
    vote after. *)
Theorem reveal_consensus_first_to_top (cellIds : list string) :
  cellIds ≠ [] → "" ∉ cellIds →
  ∃ c before after,
    revealConsensus cellIds = Some c
    ∧ cellIds = before ++ c :: after
    ∧ (∀ x, votesFor cellIds x ≤ votesFor cellIds c)
    ∧ votesFor (before ++ [c]) c = votesFor cellIds c
    ∧ (∀ x, votesFor before x < votesFor cellIds c).
Proof.
  intros Hne Hempty. unfold revealConsensus.
  pose proof (revealTally_running cellIds) as Hrun.
  destruct (revealTally cellIds) as [[counts best] high]. cbn.
  destruct Hrun as (_ & Hmax & [(-> & _)|(before & after & Heq & Hbest & Hbefore)]);
    [done|].
  assert (votesFor cellIds best = high) as Hhigh.
  { apply Nat.le_antisymm; [apply Hmax|].
    rewrite <- Hbest, Heq. rewrite (cons_middle best before after), app_assoc.
    unfold votesFor. rewrite (count_occ_app _ (before ++ [best]) after). lia. }
  exists best, before, after. rewrite Hhigh. split_and!; try done.
  unfold truthy. rewrite bool_decide_eq_false_2; [done|].
  intros ->. apply Hempty. rewrite Heq. apply elem_of_app. right. left.
Qed.

Lemma reveal_consensus_first_to_top_witness :
  ∃ c before after,
    revealConsensus ["cell-A1"; "cell-B2"; "cell-B2"; "cell-A1"] = Some c
    ∧ ["cell-A1"; "cell-B2"; "cell-B2"; "cell-A1"] = before ++ c :: after
    ∧ (∀ x, votesFor ["cell-A1"; "cell-B2"; "cell-B2"; "cell-A1"] x
            ≤ votesFor ["cell-A1"; "cell-B2"; "cell-B2"; "cell-A1"] c)
    ∧ votesFor (before ++ [c]) c
      = votesFor ["cell-A1"; "cell-B2"; "cell-B2"; "cell-A1"] c
    ∧ (∀ x, votesFor before x
            < votesFor ["cell-A1"; "cell-B2"; "cell-B2"; "cell-A1"] c).
Proof.
  apply (reveal_consensus_first_to_top ["cell-A1"; "cell-B2"; "cell-B2"; "cell-A1"]).
  - done.
  - rewrite !not_elem_of_cons. split_and!; try done. apply not_elem_of_nil.
Defined.

End CoordinatorExtra.

(** ** The REST controllers *)

Module RestProofs.

Import Tally Coordinator CoordinatorProofs Invariants Rest MemStorageMore
  CoordinatorExtra.

Lemma run_sendGameUpdate gameId w :
  sendGameUpdate gameId w = (Ok tt, w, gameUpdates w gameId).
Proof. unfold sendGameUpdate. by rewrite run_world_bind. Qed.

Lemma run_sendAll gameId msg w :
  sendAll gameId msg w = (Ok tt, w, broadcast w gameId msg).
Proof. unfold sendAll. by rewrite run_world_bind. Qed.

Lemma getGame_put gameId game st :
  MemStorage.getGame gameId (MemStorage.putGame gameId game st) = Some game.
Proof. unfold MemStorage.getGame, MemStorage.putGame. cbn. apply lookup_insert_eq. Qed.

(** X22.  The controllers of the host ([getGameForHost], [startGame],
    [endGame], [nextQuestion]) do nothing for anybody but the creator of the
    game: a request without a user, for a game that is not stored or by
    another user is answered with 401, 404 or 403, the world stays as it is
    and nothing is sent. *)
Theorem host_routes_authorize controller user gameId w :
  controller ∈ [getGameForHost; startGame; endGame; nextQuestion] →
  ¬ isCreator user gameId w →
  ∃ response,
    controller user gameId w = (Ok response, w, [])
    ∧ statusCode response ∈ [401; 404; 403].
Proof.
  intros Hc Hnot.
  assert (∀ game u, MemStorage.getGame gameId (storage w) = Some game →
            userOf user = Some u → creatorId game ≠ u) as Hother.
  { intros game u Hg Hu Heq. apply Hnot. exists game. by rewrite Heq. }
  rewrite !elem_of_cons in Hc.
  destruct Hc as [->|[->|[->|[->|Hc]]]]; [..|by apply elem_of_nil in Hc].
  all: unfold getGameForHost, startGame, endGame, nextQuestion.
  all: rewrite run_tryCatch.
  all: destruct (userOf user) as [u|] eqn:Hu;
    [|eexists; split; [reflexivity|cbn; rewrite !elem_of_cons; auto]].
  all: rewrite run_world_bind.
  all: destruct (MemStorage.getGame gameId (storage w)) as [game|] eqn:Hg;
    [|eexists; split; [reflexivity|cbn; rewrite !elem_of_cons; auto]].
  all: rewrite bool_decide_eq_true_2 by eauto.
  all: eexists; split; [reflexivity|cbn; rewrite !elem_of_cons; auto].
Qed.

Lemma host_routes_authorize_witness :
  ∃ response,
    endGame (Some 8) "g1" (Scenario.world false false)
    = (Ok response, Scenario.world false false, [])
    ∧ statusCode response ∈ [401; 404; 403].
Proof.
  apply host_routes_authorize.
  - rewrite !elem_of_cons. auto.
  - intros (game & Hg & Hu). vm_compute in Hg. by simplify_eq.
Defined.

Lemma gameUpdates_quiet w gameId :
  Forall (λ a, isGameOver a = false) (gameUpdates w gameId).
Proof.
  unfold gameUpdates. repeat case_match; try by constructor.
  all: apply Forall_app; split; [by repeat constructor|].
  all: unfold playerUpdates; apply Forall_bind, Forall_forall; intros [p c] _.
  all: cbn; repeat case_match; by repeat constructor.
Qed.

Lemma quiet_app t1 t2 : quiet (t1 ++ t2) = quiet t1 ++ quiet t2.
Proof. unfold quiet. by rewrite List.filter_app. Qed.

Lemma quiet_game_over w gameId text :
  quiet (broadcast w gameId (game_over text)) = [].
Proof.
  unfold broadcast. case_match; [|done].
  unfold quiet. induction (filter _ _) as [|e rest IH]; [done|]. cbn. done.
Qed.

Ltac run_send :=
  repeat first
    [ rewrite run_bind | rewrite run_sendGameUpdate | rewrite run_sendAll
    | progress cbn [mret M_ret] ].

(** X23.  For the creator of the game, [startGame], [endGame] and
    [nextQuestion] leave the world exactly as the message of the same name
    over the socket does, and send the same messages apart from [game_over];
    [nextQuestion] never sends a [game_over], also when it ends the game.
    The response is 200 where the handler of the message returns and 400
    where it throws; it is never 500. *)
Theorem rest_matches_socket data controller user gameId w :
  controllerOf data = Some controller →
  isCreator user gameId w →
  (controller user gameId w).1.2 = (dispatch gameId data w).1.2
  ∧ quiet (controller user gameId w).2 = quiet (dispatch gameId data w).2
  ∧ (data = next_question →
     Forall (λ a, isGameOver a = false) (controller user gameId w).2)
  ∧ ∃ response,
      (controller user gameId w).1.1 = Ok response
      ∧ statusCode response
        = match (dispatch gameId data w).1.1 with Ok _ => 200 | Throw _ => 400 end.
Proof.
  intros Hc (game & Hg & Hu).
  destruct data; cbn in Hc; simplify_eq.
  - unfold startGame, dispatch, handleStartGame.
    rewrite run_tryCatch, Hu, run_world_bind, Hg, run_bind, run_getGameOrThrow, Hg.
    rewrite bool_decide_eq_false_2 by (intros H; by apply H).
    destruct (bool_decide (status game ≠ waiting)) eqn:Hs.
    { cbn. split_and!; [done..|by eexists]. }
    rewrite !run_bind, run_store. unfold MemStorage.updateGameStatus.
    rewrite Hg. cbn. run_send. cbn. rewrite ?app_nil_r.
    split_and!; [done..|by eexists].
  - unfold endGame, dispatch, handleEndGame.
    rewrite run_tryCatch, Hu, run_world_bind, Hg, run_bind, run_getGameOrThrow, Hg.
    rewrite bool_decide_eq_false_2 by (intros H; by apply H).
    destruct (bool_decide (status game ≠ active)) eqn:Hs.
    { cbn. split_and!; [done..|by eexists]. }
    rewrite !run_bind, run_store. unfold MemStorage.updateGameStatus.
    rewrite Hg. cbn. run_send. cbn.
    rewrite ?app_nil_r.
    split_and!; [done| |done|by eexists].
    change (?a :: ?l) with ([a] ++ l).
    rewrite !quiet_app, !quiet_game_over. done.
  - unfold nextQuestion, dispatch, handleNextQuestion.
    rewrite run_tryCatch, Hu, run_world_bind, Hg, run_bind, run_getGameOrThrow, Hg.
    rewrite bool_decide_eq_false_2 by (intros H; by apply H).
    destruct (bool_decide (status game ≠ active)) eqn:Hs.
    { cbn. split_and!; [done..|by eexists]. }
    rewrite !run_bind, run_store. unfold MemStorage.getNextQuestion.
    rewrite Hg.
    destruct (find _ (questions game)) as [q|] eqn:Hq.
    + rewrite !run_bind, !run_store. unfold MemStorage.updateCurrentQuestion.
      cbn [storage set_storage]. rewrite !getGame_put. cbn. run_send. cbn.
      rewrite ?app_nil_r.
      split_and!; [done|done| |by eexists].
      intros _. repeat constructor. apply gameUpdates_quiet.
    + rewrite !run_bind, !run_store. unfold MemStorage.updateGameStatus.
      cbn [storage set_storage]. rewrite Hg. cbn. run_send. cbn.
      rewrite ?app_nil_r.
      split_and!; [done| | |by eexists].
      * change (?a :: ?l) with ([a] ++ l). rewrite !quiet_app, !quiet_game_over. done.
      * intros _. repeat constructor. apply gameUpdates_quiet.
Qed.

Lemma rest_matches_socket_witness :
  (nextQuestion (Some 7) "g1" (Scenario.world false true)).1.2
  = (dispatch "g1" next_question (Scenario.world false true)).1.2
  ∧ quiet (nextQuestion (Some 7) "g1" (Scenario.world false true)).2
    = quiet (dispatch "g1" next_question (Scenario.world false true)).2
  ∧ (next_question = next_question →
     Forall (λ a, isGameOver a = false)
       (nextQuestion (Some 7) "g1" (Scenario.world false true)).2)
  ∧ ∃ response,
      (nextQuestion (Some 7) "g1" (Scenario.world false true)).1.1 = Ok response
      ∧ statusCode response
        = match (dispatch "g1" next_question (Scenario.world false true)).1.1 with
          | Ok _ => 200
          | Throw _ => 400
          end.
Proof.
  apply (rest_matches_socket next_question nextQuestion (Some 7) "g1"
           (Scenario.world false true)).
  - reflexivity.
  - exists (Scenario.game false true). split; reflexivity.
Defined.

Lemma find_elem_of {A} (p : A → bool) (l : list A) x :
  find p l = Some x → x ∈ l.
Proof.
  induction l as [|a l IH]; [done|]. cbn.
  destruct (p a); [intros [= ->]; left|intros H; right; auto].
Qed.

(** X24.  [submitAnswer] with a player id and a cell id does to the world
    what a [select_answer] message does, and sends the same messages, when
    the groups of the game have non-empty ids; it answers 200 exactly when
    the handler of the message returns, and 400, 404 or 500 otherwise. *)
Theorem submitAnswer_matches_select_answer gameId playerId cellId w :
  gameId ≠ "" →
  (∀ game group,
     MemStorage.getGame gameId (storage w) = Some game →
     group ∈ groups game → group_id group ≠ "") →
  (submitAnswer gameId (Some playerId) (Some cellId) w).1.2
  = (handleSelectAnswer gameId playerId cellId w).1.2
  ∧ (submitAnswer gameId (Some playerId) (Some cellId) w).2
    = (handleSelectAnswer gameId playerId cellId w).2
  ∧ ∃ response,
      (submitAnswer gameId (Some playerId) (Some cellId) w).1.1 = Ok response
      ∧ statusCode response ∈ [200; 400; 404; 500]
      ∧ (statusCode response = 200
         ↔ (handleSelectAnswer gameId playerId cellId w).1.1 = Ok tt).
Proof.
  intros Hgame Hids.
  unfold submitAnswer, handleSelectAnswer.
  rewrite run_tryCatch. cbn [fieldOf].
  rewrite (bool_decide_eq_false_2 (gameId = "")) by done. cbn [orb].
  destruct (bool_decide (playerId = "")).
  { cbn. split_and!; [done..|]. eexists. split_and!; [done| |done].
    cbn. rewrite !elem_of_cons. auto. }
  destruct (bool_decide (cellId = "")).
  { cbn. split_and!; [done..|]. eexists. split_and!; [done| |done].
    cbn. rewrite !elem_of_cons. auto. }
  cbn [orb]. rewrite run_world_bind, run_bind, run_getGameOrThrow.
  destruct (MemStorage.getGame gameId (storage w)) as [game|] eqn:Hg.
  2: { cbn. split_and!; [done..|]. eexists. split_and!; [done| |done].
       cbn. rewrite !elem_of_cons. auto. }
  destruct (bool_decide (status game ≠ active)).
  { cbn. split_and!; [done..|]. eexists. split_and!; [done| |done].
    cbn. rewrite !elem_of_cons. auto. }
  destruct (Js.findPlayerGroup playerId game) as [group|] eqn:Hgroup.
  2: { cbn. split_and!; [done..|]. eexists. split_and!; [done| |done].
       cbn. rewrite !elem_of_cons. auto. }
  cbn [fmap option_fmap option_map fieldOf].
  rewrite bool_decide_eq_false_2
    by (apply (Hids game); [done|by eapply find_elem_of]).
  rewrite run_world_bind, !run_bind, !run_store.
  destruct (MemStorage.recordPlayerAnswer _ _ _ _ _ _) as [[[] st]|e].
  2: { cbn. split_and!; [done..|]. eexists. split_and!; [done| |done].
       cbn. rewrite !elem_of_cons. auto 6. }
  rewrite !run_bind.
  destruct (checkGroupConsensus gameId (group_id group) (set_storage st w))
    as [[[[]|e] w1] t1].
  2: { cbn. rewrite ?app_nil_r. split_and!; [done..|]. eexists. split_and!; [done| |done].
       cbn. rewrite !elem_of_cons. auto 6. }
  run_send. cbn. rewrite ?app_nil_r.
  split_and!; [done..|]. eexists. split_and!; [done| |done].
  cbn. rewrite !elem_of_cons. auto.
Qed.

Lemma submitAnswer_matches_select_answer_witness :
  (submitAnswer "g1" (Some "p4") (Some "cell-B1") (Scenario.world false false)).1.2
  = (handleSelectAnswer "g1" "p4" "cell-B1" (Scenario.world false false)).1.2
  ∧ (submitAnswer "g1" (Some "p4") (Some "cell-B1") (Scenario.world false false)).2
    = (handleSelectAnswer "g1" "p4" "cell-B1" (Scenario.world false false)).2
  ∧ ∃ response,
      (submitAnswer "g1" (Some "p4") (Some "cell-B1")
         (Scenario.world false false)).1.1 = Ok response
      ∧ statusCode response ∈ [200; 400; 404; 500]
      ∧ (statusCode response = 200
         ↔ (handleSelectAnswer "g1" "p4" "cell-B1"
              (Scenario.world false false)).1.1 = Ok tt).
Proof.
  apply (submitAnswer_matches_select_answer "g1" "p4" "cell-B1"
           (Scenario.world false false)).
  - discriminate.
  - intros game group Hg Hin. vm_compute in Hg. simplify_eq.
    cbn in Hin. rewrite !elem_of_cons in Hin.
    destruct Hin as [->|[->|Hin]]; [discriminate..|by apply elem_of_nil in Hin].
Defined.

Lemma run_getGameForPlayer gameId playerId w :
  getGameForPlayer gameId playerId w
  = (Ok match MemStorage.getGame gameId (storage w) with
        | None => mkResponse 404 (JsonMessage "Game not found")
        | Some game =>
            match Js.findPlayerGroup playerId game with
            | None => mkResponse 404 (JsonMessage "Player not found in this game")
            | Some playerGroup =>
                mkResponse 200
                  (JsonPlayerGame
                     (mkPlayerView (game_id game) (game_name game)
                        (status game) (boardSize game) (cellSize game)
                        (currentQuestion game) playerGroup))
            end
        end, w, []).
Proof.
  unfold getGameForPlayer. rewrite run_tryCatch, run_world_bind.
  by repeat case_match.
Qed.

(** X25.  The game that a player reads with [getGameForPlayer] is the game
    that [sendGameUpdate] pushes to the player: a socket that is open and
    registered for the player gets the view of the 200 response, and every
    [game_update] with one group goes to an open socket of a player for whom
    [getGameForPlayer] answers 200 with that view. *)
Theorem player_view_is_pushed gameId w connections :
  gameConnections w !! gameId = Some connections →
  (∀ playerId ws view,
     playerId ≠ "host" → (playerId, ws) ∈ connections → isOpen w ws = true →
     (getGameForPlayer gameId playerId w).1.1
     = Ok (mkResponse 200 (JsonPlayerGame view)) →
     Sent ws (game_update_player view) ∈ (sendGameUpdate gameId w).2)
  ∧ (∀ ws view,
       Sent ws (game_update_player view) ∈ (sendGameUpdate gameId w).2 →
       ∃ playerId,
         playerId ≠ "host" ∧ (playerId, ws) ∈ connections ∧ isOpen w ws = true
         ∧ (getGameForPlayer gameId playerId w).1.1
           = Ok (mkResponse 200 (JsonPlayerGame view))).
Proof.
  intros Hc. rewrite run_sendGameUpdate. cbn [fst snd].
  unfold gameUpdates. rewrite Hc. split.
  - intros playerId ws view Hhost Hin Hopen.
    rewrite run_getGameForPlayer. cbn [fst snd].
    destruct (MemStorage.getGame gameId (storage w)) as [game|]; [|done].
    destruct (Js.findPlayerGroup playerId game) as [group|] eqn:Hgroup; [|done].
    intros [= <-]. apply elem_of_app. right.
    unfold playerUpdates. apply list_elem_of_bind. exists (playerId, ws).
    split; [|done].
    rewrite bool_decide_eq_false_2, Hopen, Hgroup by done. cbn. left.
  - intros ws view Hsent.
    destruct (MemStorage.getGame gameId (storage w)) as [game|] eqn:Hg;
      [|by apply elem_of_nil in Hsent].
    apply elem_of_app in Hsent as [Hsent|Hsent].
    { repeat case_match; try by apply elem_of_nil in Hsent.
      by apply list_elem_of_singleton in Hsent. }
    unfold playerUpdates in Hsent.
    apply list_elem_of_bind in Hsent as ([playerId c] & Hsent & Hin).
    exists playerId. rewrite run_getGameForPlayer, Hg. cbn [fst snd].
    case_bool_decide as Hhost; [by apply elem_of_nil in Hsent|].
    destruct (isOpen w c) eqn:Hopen; [|by apply elem_of_nil in Hsent].
    cbn in Hsent.
    destruct (Js.findPlayerGroup playerId game) as [group|];
      [|by apply elem_of_nil in Hsent].
    apply list_elem_of_singleton in Hsent. injection Hsent as <- <-.
    done.
Qed.

Lemma player_view_is_pushed_witness :
  (∀ playerId ws view,
     playerId ≠ "host" → (playerId, ws) ∈ Scenario.connections →
     isOpen (Scenario.world false false) ws = true →
     (getGameForPlayer "g1" playerId (Scenario.world false false)).1.1
     = Ok (mkResponse 200 (JsonPlayerGame view)) →
     Sent ws (game_update_player view)
     ∈ (sendGameUpdate "g1" (Scenario.world false false)).2)
  ∧ (∀ ws view,
       Sent ws (game_update_player view)
       ∈ (sendGameUpdate "g1" (Scenario.world false false)).2 →
       ∃ playerId,
         playerId ≠ "host" ∧ (playerId, ws) ∈ Scenario.connections
         ∧ isOpen (Scenario.world false false) ws = true
         ∧ (getGameForPlayer "g1" playerId (Scenario.world false false)).1.1
           = Ok (mkResponse 200 (JsonPlayerGame view))).
Proof.
  apply (player_view_is_pushed "g1" (Scenario.world false false)
           Scenario.connections).
  reflexivity.
Defined.

(** *** Joining *)

Lemma find_updateFirst_member {A} `{EqDecision A} (p : A → bool) (f : A → A)
    (l : list A) m :
  m ∈ l → (∀ y, y ∈ l → p y = false) → p (f m) = true →
  find p (Js.updateFirst (λ g, bool_decide (g = m)) f l) = Some (f m).
Proof.
  intros Hm Hall Hp. induction l as [|a l IH]; [by apply elem_of_nil in Hm|].
  cbn. case_bool_decide as Ha.
  - subst. cbn. by rewrite Hp.
  - cbn. rewrite (Hall a) by left. apply IH.
    + by apply elem_of_cons in Hm as [->|Hm].
    + intros y Hy. apply Hall. by right.
Qed.

Lemma foldl_smaller_member (l : list Group) best :
  foldl smaller best l = best ∨ foldl smaller best l ∈ l.
Proof.
  revert best. induction l as [|a l IH]; intros best; [by left|].
  cbn [foldl]. destruct (IH (smaller best a)) as [->|Hin].
  - unfold smaller. destruct (_ <? _); [right; left|by left].
  - right. by right.
Qed.

Lemma isMember_joined playerId name g :
  Js.isMember playerId (set_players (players g ++ [mkPlayer playerId name]) g)
  = true.
Proof.
  unfold Js.isMember. cbn. rewrite existsb_app. cbn.
  rewrite bool_decide_eq_true_2 by done. by rewrite orb_true_r.
Qed.

(** X26.  A [joinGame] that is not answered with 200 changes nothing and
    sends nothing.  One that is answered with 200, with an id that no player
    of the game has, was for a waiting game and a name with something else
    than white space; the response names the group that now holds the player
    under the trimmed name, [getGameForPlayer] answers 200 with that group
    for the new player, and every socket that was open and registered for
    the game got the [player_joined]. *)
Theorem joinGame_then_player_view gameId displayName playerId w :
  (statusCode (joinGame gameId displayName playerId w).1.1 ≠ 200 →
    (joinGame gameId displayName playerId w).1.2 = w
    ∧ (joinGame gameId displayName playerId w).2 = [])
  ∧ (statusCode (joinGame gameId displayName playerId w).1.1 = 200 →
     freshPlayer playerId gameId w →
     ∃ name game group,
       displayName = Some name ∧ trim name ≠ ""
       ∧ MemStorage.getGame gameId (storage w) = Some game
       ∧ status game = waiting
       ∧ mkPlayer playerId (trim name) ∈ players group
       ∧ json (joinGame gameId displayName playerId w).1.1
         = JsonJoined playerId (group_id group) (group_name group)
       ∧ (getGameForPlayer gameId playerId
            (joinGame gameId displayName playerId w).1.2).1.1
         = Ok (mkResponse 200
                 (JsonPlayerGame
                    (mkPlayerView (game_id game) (game_name game) waiting
                       (boardSize game) (cellSize game) (currentQuestion game)
                       group)))
       ∧ ∀ ws, registeredOpen w gameId ws →
           player_joined ws playerId (trim name) (group_id group)
             (group_name group)
           ∈ (joinGame gameId displayName playerId w).2).
Proof.
  unfold joinGame.
  destruct displayName as [name|]; cbn [fieldOf]; [|by split].
  case_bool_decide as Hname; [by split|].
  case_bool_decide as Htrim; [by split|].
  destruct (MemStorage.getGame gameId (storage w)) as [game|] eqn:Hg; [|by split].
  case_bool_decide as Hstatus; [by split|].
  unfold MemStorage.addPlayerToGame. rewrite Hg.
  rewrite bool_decide_eq_false_2 by (intros H; by apply H).
  destruct (groups game) as [|first rest] eqn:Hgroups; [by split|].
  change (λ best group, if length (players group) <? length (players best)
                        then group else best) with smaller.
  set (m := foldl smaller first (first :: rest)).
  cbn [fst snd statusCode json]. split; [done|]. intros _ Hfresh.
  set (joined := set_players (players m ++ [mkPlayer playerId (trim name)]) m).
  exists name, game, joined.
  assert (m ∈ first :: rest) as Hm.
  { destruct (foldl_smaller_member (first :: rest) first) as [Heq|Hin];
      [fold m in Heq; rewrite Heq; left|done]. }
  split_and!; try done.
  - cbn. apply elem_of_app. right. left.
  - rewrite run_getGameForPlayer. cbn [fst snd storage set_storage].
    rewrite getGame_put. unfold Js.findPlayerGroup. cbn [groups set_groups].
    rewrite (find_updateFirst_member _ _ _ m); [cbn; by rewrite Hstatus|done| |].
    + intros y Hy. apply (Hfresh game); [done|by rewrite Hgroups].
    + apply isMember_joined.
  - intros ws (connections & p & Hc & Hin & Hopen).
    apply elem_of_app. left. unfold joinedMessages.
    cbn [gameConnections set_storage]. rewrite Hc.
    apply list_elem_of_fmap. exists (p, ws). split; [done|].
    apply list_elem_of_filter. split; [|done]. done.
Qed.

Lemma joinGame_then_player_view_witness :
  ∃ name game group,
    Some "  Fay " = Some name ∧ trim name ≠ ""
    ∧ MemStorage.getGame "g1" (storage lobby) = Some game
    ∧ status game = waiting
    ∧ mkPlayer "p9" (trim name) ∈ players group
    ∧ json (joinGame "g1" (Some "  Fay ") "p9" lobby).1.1
      = JsonJoined "p9" (group_id group) (group_name group)
    ∧ (getGameForPlayer "g1" "p9"
         (joinGame "g1" (Some "  Fay ") "p9" lobby).1.2).1.1
      = Ok (mkResponse 200
              (JsonPlayerGame
                 (mkPlayerView (game_id game) (game_name game) waiting
                    (boardSize game) (cellSize game) (currentQuestion game)
                    group)))
    ∧ ∀ ws, registeredOpen lobby "g1" ws →
        player_joined ws "p9" (trim name) (group_id group) (group_name group)
        ∈ (joinGame "g1" (Some "  Fay ") "p9" lobby).2.
Proof.
  apply (proj2 (joinGame_then_player_view "g1" (Some "  Fay ") "p9" lobby)).
  - reflexivity.
  - intros game group Hg Hin. vm_compute in Hg. simplify_eq.
    cbn in Hin. rewrite !elem_of_cons in Hin.
    destruct Hin as [->|[->|Hin]]; [reflexivity..|by apply elem_of_nil in Hin].
Defined.

End RestProofs.

(** ** The tables of the SQL storage *)

Module TablesProofs.

Import DatabaseProofs Tables.

Section TablesProofs.

Variable before : string → string → bool.





(** *** The question that is served and the current question *)

Lemma filter_first {A} (p : A → bool) (l : list A) x rest :
  List.filter p l = x :: rest →
  ∃ l1 l2, l = l1 ++ x :: l2 ∧ List.filter p l1 = [] ∧ p x = true.
Proof.
  induction l as [|a l IH]; [done|]. cbn.
  destruct (p a) eqn:Ha.
  - intros [= -> _]. by exists [], l.
  - intros (l1 & l2 & -> & H1 & Hx)%IH. exists (a :: l1), l2.
    split_and!; [done| |done]. cbn. by rewrite Ha.
Qed.

Lemma greatest_from best rows :
  foldl (λ best q,
           match best with
           | None => Some q
           | Some b =>
               if before (DatabaseStorage.questions_id b)
                    (DatabaseStorage.questions_id q)
               then Some q else Some b
           end) best rows = best
  ∨ ∃ r, r ∈ rows
         ∧ foldl (λ best q,
                    match best with
                    | None => Some q
                    | Some b =>
                        if before (DatabaseStorage.questions_id b)
                             (DatabaseStorage.questions_id q)
                        then Some q else Some b
                    end) best rows = Some r.
Proof.
  revert best. induction rows as [|q rows IH]; intros best; [by left|].
  cbn [foldl]. destruct (IH (match best with
                             | None => Some q
                             | Some b =>
                                 if before (DatabaseStorage.questions_id b)
                                      (DatabaseStorage.questions_id q)
                                 then Some q else Some b
                             end)) as [Heq|(r & Hr & Heq)].
  - rewrite Heq. destruct best as [b|]; [|right; exists q; split; [left|done]].
    destruct (before _ _); [right; exists q; split; [left|done]|by left].
  - right. exists r. split; [by right|done].
Qed.

Lemma greatest_stays q rows :
  Forall (λ r, before (DatabaseStorage.questions_id q)
                 (DatabaseStorage.questions_id r) = false) rows →
  foldl (λ best q,
           match best with
           | None => Some q
           | Some b =>
               if before (DatabaseStorage.questions_id b)
                    (DatabaseStorage.questions_id q)
               then Some q else Some b
           end) (Some q) rows = Some q.
Proof. induction 1 as [|r rows Hr _ IH]; [done|]. cbn. by rewrite Hr. Qed.

(** X28.  The question that [getNextQuestion] of [DatabaseStorage] serves
    is the one that the other methods take for the current question (the
    used question of the game with the greatest id) when its id comes after
    the ids of the questions of the game that were used before, the ids of
    the table being distinct. *)
Theorem served_question_is_current gameId db served db' :
  NoDup (DatabaseStorage.questions_id <$> DatabaseStorage.questions db) →
  DatabaseStorage.getNextQuestion gameId db = Ok (Some served, db') →
  (∀ r, r ∈ usedQuestions gameId db →
        before (DatabaseStorage.questions_id r) (current_id served) = true
        ∧ before (current_id served) (DatabaseStorage.questions_id r) = false) →
  ∃ row,
    DatabaseStorage.currentQuestion before gameId db' = Some row
    ∧ DatabaseStorage.questions_id row = current_id served
    ∧ DatabaseStorage.questions_question row = current_question served.
Proof.
  intros Hids Hnext Hlater. unfold DatabaseStorage.getNextQuestion in Hnext.
  destruct (List.filter _ (DatabaseStorage.games db)) as [|game ?]; [done|].
  destruct (List.filter _ (DatabaseStorage.questions db))
    as [|q ?] eqn:Hunused; [done|].
  injection Hnext as <- <-. cbn [current_id current_question] in *.
  apply filter_first in Hunused as (l1 & l2 & Hrows & _ & Hq).
  apply andb_prop in Hq as [Hgame%bool_decide_eq_true_1 Hused].
  unfold DatabaseStorage.currentQuestion, usedQuestions in *. cbn.
  rewrite Hrows in *. clear Hrows.
  rewrite fmap_app, fmap_cons in Hids.
  apply NoDup_app in Hids as (_ & Hl1 & [Hl2 _]%NoDup_cons).
  set (q' := DatabaseStorage.mkQuestionRow (DatabaseStorage.questions_id q)
               (DatabaseStorage.questions_gameId q)
               (DatabaseStorage.questions_question q)
               (DatabaseStorage.questions_answer q) true).
  assert (∀ rows, DatabaseStorage.questions_id q ∉ DatabaseStorage.questions_id <$> rows →
            DatabaseStorage.updateWhere
              (λ r, bool_decide (DatabaseStorage.questions_id r
                                 = DatabaseStorage.questions_id q))
              (λ r, DatabaseStorage.mkQuestionRow (DatabaseStorage.questions_id r)
                      (DatabaseStorage.questions_gameId r)
                      (DatabaseStorage.questions_question r)
                      (DatabaseStorage.questions_answer r) true) rows = rows)
    as Hsame.
  { intros rows Hl. unfold DatabaseStorage.updateWhere.
    induction rows as [|r rows IH]; [done|]. cbn.
    rewrite fmap_cons, not_elem_of_cons in Hl. destruct Hl as [Hr Hl].
    rewrite bool_decide_eq_false_2 by done. by rewrite IH. }
  unfold DatabaseStorage.updateWhere in *.
  rewrite fmap_app, fmap_cons, !Hsame.
  2: { done. }
  2: { intros Hin. apply (Hl1 (DatabaseStorage.questions_id q)); [done|left]. }
  rewrite bool_decide_eq_true_2 by done. fold q'.
  rewrite List.filter_app. cbn [List.filter].
  replace (bool_decide (DatabaseStorage.questions_gameId q' = gameId)
           && DatabaseStorage.questions_used q') with true
    by (cbn; by rewrite bool_decide_eq_true_2).
  exists q'. split; [|done].
  unfold DatabaseStorage.greatest. rewrite foldl_app. cbn [foldl].
  rewrite List.filter_app in Hlater.
  assert (match foldl _ None (List.filter _ l1) with
          | None => Some q'
          | Some b =>
              if before (DatabaseStorage.questions_id b)
                   (DatabaseStorage.questions_id q')
              then Some q' else Some b
          end = Some q') as ->.
  { destruct (greatest_from None (List.filter
                (λ q0, bool_decide (DatabaseStorage.questions_gameId q0 = gameId)
                       && DatabaseStorage.questions_used q0) l1))
      as [->|(r & Hr & ->)]; [done|].
    change (DatabaseStorage.questions_id q')
      with (DatabaseStorage.questions_id q).
    destruct (Hlater r) as [-> _]; [|done].
    apply elem_of_app. by left. }
  apply greatest_stays. apply Forall_forall. intros r Hr.
  change (DatabaseStorage.questions_id q') with (DatabaseStorage.questions_id q).
  apply Hlater. apply elem_of_app. right.
  cbn. destruct (_ && _); [by right|done].
Qed.

End TablesProofs.


Lemma served_question_is_current_witness :
  ∃ row,
    DatabaseStorage.currentQuestion Scenario.before "g1"
      (DatabaseStorage.perform Scenario.before
         (DatabaseStorage.callGetNextQuestion "g1") Scenario.database)
    = Some row
    ∧ DatabaseStorage.questions_id row = "q2"
    ∧ DatabaseStorage.questions_question row = "Capital of Austria?".
Proof.
  apply (served_question_is_current Scenario.before "g1" Scenario.database
           (mkCurrent "q2" "Capital of Austria?" 30)).
  - apply (bool_decide_unpack _). vm_compute. exact I.
  - reflexivity.
  - intros r Hr. cbn in Hr. apply list_elem_of_singleton in Hr as ->.
    split; reflexivity.
Defined.

End TablesProofs.
